(** * amazonface-rag: the query-resolution engine of [src/app/api/ask/route.ts]

    A shallow embedding of the [POST] handler: the synonym tables, the
    synonym normaliser, the heuristic (fallback) parser, the cosine ranking,
    the filter combinator and the response, followed by the properties the
    specification states about them.

    Conventions of the embedding.
    - A JavaScript string is a [string]: the bytes of its UTF-8 encoding.
      Equality, concatenation, [includes] and the matching of a pattern of
      ASCII characters are then what they are on the string itself.
    - [String.prototype.toLowerCase] and [String.prototype.trim] are
      built-ins of the engine, which fold every capital letter of Unicode
      and strip every white-space character of Unicode.  They are taken as
      the two operations of the class [Builtins], with the three facts about
      them that the proofs use; every property below holds of any pair of
      functions with these facts, so of the engine's.  The examples are run
      with the instance [latin1Builtins], which is the built-ins on text
      whose capitals are those of ASCII and of the Latin-1 Supplement.
    - [string | null] is [option string]; JavaScript truthiness of such a
      value ([if (!value)], [if (query.partUsed)]) is [truthy], which is
      false on [None] and on the empty string.
    - A [Record<string, string[]>] is the list of its [Object.entries], in
      insertion order.
    - A JavaScript number is a binary64 [float] (the kernel's primitive
      floats), so NaN and the infinities are the ones the program meets.
    - The request body is taken after [await req.json()] has given an
      object whose [question] is absent or a string, and the values coming
      from the language model ([llmQuery]) are taken at the types the
      handler declares for the variables that receive them.  A request
      outside these types can end in the handler's last [catch], with
      status 500; that path is not part of the embedding, and no property
      below speaks about it. *)

From Stdlib Require Import Bool List Arith Lia Ascii String Floats Permutation.
Import ListNotations.
Open Scope string_scope.

(** ** Strings *)

Module Js.

Definition isUpperAZ (c : ascii) : bool :=
  let n := nat_of_ascii c in ((65 <=? n) && (n <=? 90))%nat.

Definition isLowerAZ (c : ascii) : bool :=
  let n := nat_of_ascii c in ((97 <=? n) && (n <=? 122))%nat.

(** [hay.includes(needle)] *)
Fixpoint includes (hay needle : string) : bool :=
  String.prefix needle hay
  || match hay with
     | EmptyString => false
     | String _ hay' => includes hay' needle
     end.

(** Truthiness of a [string | null | undefined] value. *)
Definition truthy (v : option string) : bool :=
  match v with
  | None => false
  | Some EmptyString => false
  | Some _ => true
  end.

(** Truthiness of a [boolean | undefined] value. *)
Definition truthyb (v : option bool) : bool :=
  match v with
  | Some true => true
  | _ => false
  end.

End Js.

Import Js.

(** What [toLowerCase] and [trim] do to ASCII text, that is to a string
    all of whose characters are below 128: the letters A-Z are folded, the
    characters 9-13 and 32 are stripped from both ends. *)
Module AsciiText.

Fixpoint isText (s : string) : bool :=
  match s with
  | EmptyString => true
  | String c s' => (nat_of_ascii c <? 128)%nat && isText s'
  end.

Definition isSpace (c : ascii) : bool :=
  let n := nat_of_ascii c in (((9 <=? n) && (n <=? 13)) || (n =? 32))%nat.

Definition lowerChar (c : ascii) : ascii :=
  if isUpperAZ c then ascii_of_nat (nat_of_ascii c + 32) else c.

Fixpoint toLowerCase (s : string) : string :=
  match s with
  | EmptyString => EmptyString
  | String c s' => String (lowerChar c) (toLowerCase s')
  end.

Fixpoint trimStart (s : string) : string :=
  match s with
  | EmptyString => EmptyString
  | String c s' => if isSpace c then trimStart s' else s
  end.

Fixpoint trimEnd (s : string) : string :=
  match s with
  | EmptyString => EmptyString
  | String c s' =>
      match trimEnd s' with
      | EmptyString => if isSpace c then EmptyString else String c EmptyString
      | t => String c t
      end
  end.

Definition trim (s : string) : string := trimEnd (trimStart s).

End AsciiText.

(** [String.prototype.toLowerCase] and [String.prototype.trim], with what
    is used of them: on ASCII text they are the functions of [AsciiText],
    and lower-casing neither makes nor removes white space at the ends of
    a string, so it can be done before or after trimming. *)
Class Builtins : Type := {
  toLowerCase : string -> string;
  trim : string -> string;
  toLowerCase_ascii : forall s,
    AsciiText.isText s = true -> toLowerCase s = AsciiText.toLowerCase s;
  trim_ascii : forall s,
    AsciiText.isText s = true -> trim s = AsciiText.trim s;
  toLowerCase_trim : forall s, toLowerCase (trim s) = trim (toLowerCase s)
}.

(** The functions the examples are run with, on strings in UTF-8.
    [trim] strips the white space of the language: the characters 9-13 and
    32, the no-break space U+00A0 (the bytes 194 160) and the three-byte
    characters U+1680, U+2000-U+200A, U+2028, U+2029, U+202F, U+205F,
    U+3000 and U+FEFF.  [toLowerCase] folds the capitals of ASCII and of
    the Latin-1 Supplement: the capitals U+00C0-U+00DE, the multiplication
    sign U+00D7 apart, are the bytes 195 128 to 195 158 without 195 151,
    and the small letter is 32 further on in the second byte.  It is the
    built-in on text whose capitals are among these. *)
Module Latin1Text.

(** The second byte of a capital of the Latin-1 Supplement. *)
Definition isCapitalTail (c : ascii) : bool :=
  let n := nat_of_ascii c in ((128 <=? n) && (n <=? 158) && negb (n =? 151))%nat.

(** The first byte of the characters U+00C0-U+00FF. *)
Definition isLead (c : ascii) : bool := Ascii.eqb c "195".

(** The byte [c] lower-cased; [afterLead] tells that the byte before it
    is the lead byte 195. *)
Definition lowerByte (afterLead : bool) (c : ascii) : ascii :=
  if afterLead && isCapitalTail c then ascii_of_nat (nat_of_ascii c + 32)
  else AsciiText.lowerChar c.

Fixpoint lowerFrom (afterLead : bool) (s : string) : string :=
  match s with
  | EmptyString => EmptyString
  | String c s' => String (lowerByte afterLead c) (lowerFrom (isLead c) s')
  end.

Definition toLowerCase (s : string) : string := lowerFrom false s.

(** The white space of two bytes: U+00A0. *)
Definition isSpace2 (a b : ascii) : bool := Ascii.eqb a "194" && Ascii.eqb b "160".

(** The white space of three bytes: U+1680, U+2000-U+200A, U+2028,
    U+2029, U+202F, U+205F, U+3000 and U+FEFF. *)
Definition isSpace3 (a b c : ascii) : bool :=
  if Ascii.eqb a "225" then Ascii.eqb b "154" && Ascii.eqb c "128"
  else if Ascii.eqb a "226" then
    if Ascii.eqb b "128" then
      let n := nat_of_ascii c in
      (((128 <=? n) && (n <=? 138)) || (n =? 168) || (n =? 169) || (n =? 175))%nat
    else Ascii.eqb b "129" && Ascii.eqb c "159"
  else if Ascii.eqb a "227" then Ascii.eqb b "128" && Ascii.eqb c "128"
  else if Ascii.eqb a "239" then Ascii.eqb b "187" && Ascii.eqb c "191"
  else false.

Fixpoint trimStart (s : string) : string :=
  match s with
  | EmptyString => EmptyString
  | String a s1 =>
      if AsciiText.isSpace a then trimStart s1
      else match s1 with
           | String b s2 =>
               if isSpace2 a b then trimStart s2
               else match s2 with
                    | String c s3 => if isSpace3 a b c then trimStart s3 else s
                    | EmptyString => s
                    end
           | EmptyString => s
           end
  end.

Fixpoint trimEnd (s : string) : string :=
  match s with
  | EmptyString => EmptyString
  | String c s' =>
      match trimEnd s' with
      | EmptyString => if AsciiText.isSpace c then EmptyString else String c EmptyString
      | String d EmptyString =>
          if isSpace2 c d then EmptyString else String c (String d EmptyString)
      | String d (String e EmptyString) =>
          if isSpace3 c d e then EmptyString
          else String c (String d (String e EmptyString))
      | t => String c t
      end
  end.

Definition trim (s : string) : string := trimEnd (trimStart s).

End Latin1Text.

(** ** Synonym dictionaries (route.ts, lines 51-101) *)

Definition Dict : Type := list (string * list string).

Definition speciesSynonyms : list string :=
  ["tree"; "trees"; "plant"; "plants"; "vegetation"; "species"].

Definition ecosystemServiceSynonyms : Dict :=
  [ ("Medicinal",
      ["medicine"; "medicinal"; "healing"; "remedy"; "pharmaceutical"; "health"]);
    ("Food",
      ["food"; "edible"; "nutrition"; "eat"; "eating"; "consumed"; "nutritional"]);
    ("Raw Material",
      ["raw material"; "material"; "timber"; "wood"; "construction"; "building";
       "fiber"; "latex"; "resource"]) ].

Definition partUsedSynonyms : Dict :=
  [ ("fruit", ["fruit"; "fruits"; "edible fruit"]);
    ("seed", ["seed"; "seeds"; "edible seed"]);
    ("bark", ["bark"]);
    ("trunk", ["trunk"; "wood"; "timber"]);
    ("leaves", ["leaf"; "leaves"; "edible leaves"]);
    ("root", ["root"; "roots"]);
    ("latex", ["latex"]);
    ("resin", ["resin"]);
    ("branch", ["branch"; "branches"]);
    ("flower", ["flower"; "flowers"]);
    ("sap", ["sap"]) ].

(** ** The synonym normaliser (route.ts, lines 145-157) *)

Section QueryExtraction.

Context {engine : Builtins}.

(** One iteration of the [for ... of Object.entries(synonymsDict)] loop
    decides whether the entry answers for [lowerValue]. *)
Definition entryMatches (lowerValue : string) (entry : string * list string) : bool :=
  let (canonical, synonyms) := entry in
  (toLowerCase canonical =? lowerValue)
  || existsb (fun syn => toLowerCase syn =? lowerValue) synonyms.

Fixpoint normalizeLoop (lowerValue : string) (entries : Dict) : option string :=
  match entries with
  | [] => None
  | (canonical, synonyms) :: rest =>
      if toLowerCase canonical =? lowerValue then Some canonical
      else if existsb (fun syn => toLowerCase syn =? lowerValue) synonyms
           then Some canonical
           else normalizeLoop lowerValue rest
  end.

Definition normalizeField (value : option string) (synonymsDict : Dict)
  : option string :=
  if negb (truthy value) then None
  else
    match value with
    | None => None
    | Some v =>
        let lowerValue := toLowerCase (trim v) in
        match normalizeLoop lowerValue synonymsDict with
        | Some canonical => Some canonical
        | None => Some v (* fallback to original if no match *)
        end
    end.

(** The spec's reading of "no canonical label or synonym matches". *)
Definition noEntryMatches (v : string) (T : Dict) : Prop :=
  forall entry, In entry T -> entryMatches (toLowerCase (trim v)) entry = false.

(** A table is self-resolving when each of its canonical labels normalises
    to itself. *)
Definition canonicalStable (T : Dict) : bool :=
  forallb (fun entry =>
             match normalizeField (Some (fst entry)) T with
             | Some c => c =? fst entry
             | None => false
             end) T.

(** ** The query and its modifiers (route.ts, lines 24-28 and 104-112) *)

Record Query : Type := mkQuery {
  species : option string;
  ecosystemService : option string;
  partUsed : option string
}.

(** [and: { ecosystemService?: string; partUsed?: string }] *)
Record AndClause : Type := mkAnd {
  andEcosystemService : option string;
  andPartUsed : option string
}.

(** The object the completion service's answer parses to. *)
Record LlmQuery : Type := mkLlmQuery {
  llmSpecies : option string;
  llmEcosystemService : option string;
  llmPartUsed : option string;
  llmOnly : option bool;
  llmAnd : option AndClause
}.

(** The four variables the extraction step leaves behind:
    [query], [only], [and] and [usedLLM]. *)
Record Extracted : Type := mkExtracted {
  exQuery : Query;
  exOnly : option bool;
  exAnd : option AndClause;
  exUsedLLM : bool
}.

Definition initialQuery : Query := mkQuery None None None.

(** ** The heuristic parser (route.ts, lines 171-214) *)

(** [for (const [label, synonyms] of Object.entries(dict))
       if (synonyms.some((syn) => lowerQ.includes(syn))) { ...; break; }] *)
Fixpoint detectLabel (lowerQ : string) (dict : Dict) : option string :=
  match dict with
  | [] => None
  | (label, synonyms) :: rest =>
      if existsb (fun syn => includes lowerQ syn) synonyms then Some label
      else detectLabel lowerQ rest
  end.

(** The exclusivity patterns all have the shape [/before([a-z]+)after/]:
    a literal, one capture group of lower-case letters, a literal. *)
Record OnlyPattern : Type := mkPattern {
  patBefore : string;
  patAfter : string
}.

Definition onlyPartsUsedPatterns : list OnlyPattern :=
  [ mkPattern "only the " " are used";
    mkPattern "" " are the only part used";
    mkPattern "parts used is only " "";
    mkPattern "the only value in partsused is " "" ].

(** [dropPrefix p s] is the rest of [s] after the literal [p], if [s]
    starts with it. *)
Fixpoint dropPrefix (p s : string) : option string :=
  match p with
  | EmptyString => Some s
  | String a p' =>
      match s with
      | EmptyString => None
      | String b s' => if Ascii.eqb a b then dropPrefix p' s' else None
      end
  end.

(** The greedy group [([a-z]+)] followed by the literal [after], at the
    head of [s]: the longest run of letters is tried first and the matcher
    backs off one letter at a time, as a backtracking engine does. *)
Fixpoint greedyLower (after s : string) : option string :=
  match s with
  | EmptyString => None
  | String c s' =>
      if isLowerAZ c then
        match greedyLower after s' with
        | Some w => Some (String c w)
        | None => if String.prefix after s' then Some (String c EmptyString) else None
        end
      else None
  end.

Definition matchHere (p : OnlyPattern) (s : string) : option string :=
  match dropPrefix (patBefore p) s with
  | Some rest => greedyLower (patAfter p) rest
  | None => None
  end.

(** [s.match(pattern)] for a pattern without the [g] flag: the match at the
    leftmost position that has one; the result is its capture [match[1]]. *)
Fixpoint regexMatch (p : OnlyPattern) (s : string) : option string :=
  match matchHere p s with
  | Some w => Some w
  | None =>
      match s with
      | EmptyString => None
      | String _ s' => regexMatch p s'
      end
  end.

(** [for (const pattern of onlyPartsUsedPatterns)
       { const match = lowerQ.match(pattern);
         if (match && match[1]) { ...; break; } }] *)
Fixpoint firstOnlyMatch (patterns : list OnlyPattern) (lowerQ : string)
  : option string :=
  match patterns with
  | [] => None
  | pattern :: rest =>
      match regexMatch pattern lowerQ with
      | Some m1 => if truthy (Some m1) then Some m1 else firstOnlyMatch rest lowerQ
      | None => firstOnlyMatch rest lowerQ
      end
  end.

(** [Object.entries(partUsedSynonyms).find(([canonical, synonyms]) =>
       canonical.toLowerCase() === match[1] || synonyms.includes(match[1]))] *)
Definition normalizedPart (m1 : string) : option (string * list string) :=
  find (fun entry : string * list string =>
          let (canonical, synonyms) := entry in
          (toLowerCase canonical =? m1) || existsb (fun syn => syn =? m1) synonyms)
       partUsedSynonyms.

Definition heuristicParse (question : string) : Extracted :=
  let lowerQ := toLowerCase question in
  let query := initialQuery in
  (* 1. EcosystemService detection *)
  let query :=
    match detectLabel lowerQ ecosystemServiceSynonyms with
    | Some service => mkQuery (species query) (Some service) (partUsed query)
    | None => query
    end in
  (* 2. PartsUsed detection (only if not already matched as ecosystemService) *)
  let query :=
    if negb (truthy (ecosystemService query)) then
      match detectLabel lowerQ partUsedSynonyms with
      | Some part => mkQuery (species query) (ecosystemService query) (Some part)
      | None => query
      end
    else query in
  (* 3. Species detection (broad query if any synonym is present) *)
  let query :=
    if existsb (fun syn => includes lowerQ syn) speciesSynonyms
    then mkQuery None (ecosystemService query) (partUsed query)
    else query in
  (* 4. Fallback for 'only' logic on PartsUsed *)
  match firstOnlyMatch onlyPartsUsedPatterns lowerQ with
  | Some m1 =>
      let part :=
        match normalizedPart m1 with
        | Some entry => fst entry
        | None => m1
        end in
      mkExtracted (mkQuery (species query) (ecosystemService query) (Some part))
                  (Some true) None false
  | None => mkExtracted query None None false
  end.

(** ** Extraction with fallback (route.ts, lines 113-215)

    [llm] is what the [try] block obtains: [Some] of the parsed answer, or
    [None] when something in the block throws: the completion call,
    [JSON.parse], or [normalizeField] on a value that is not a string. *)
Definition extractQuery (question : string) (llm : option LlmQuery) : Extracted :=
  match llm with
  | Some llmQuery =>
      mkExtracted
        (mkQuery (llmSpecies llmQuery)
                 (normalizeField (llmEcosystemService llmQuery) ecosystemServiceSynonyms)
                 (normalizeField (llmPartUsed llmQuery) partUsedSynonyms))
        (llmOnly llmQuery) (llmAnd llmQuery) true
  | None => heuristicParse question
  end.

End QueryExtraction.

(** [/how many|number of|count/i.test(question)]: under the flag [i] a
    letter of the pattern matches itself and its capital, and nothing
    else; a blank matches a blank. *)
Definition isCountQuery (question : string) : bool :=
  let q := AsciiText.toLowerCase question in
  includes q "how many" || includes q "number of" || includes q "count".

(** ** Catalog entries (route.ts, lines 10-21)

    [ScoredTreeSpecies]: the entries of [data_with_embeddings.json] are
    declared with this type, and the scored copies have it.  [similarity]
    is [None] while the property is absent from the object, which is how
    [scripts/add-embeddings.ts] writes the catalog. *)
Record ScoredTreeSpecies : Type := mkEntry {
  Species : string;
  Family : string;
  EcosystemService : list string;
  PartsUsed : list string;
  RelatedFunctionalTraits : list string;
  embedding : list float;
  similarity : option float
}.

(** ** Cosine similarity and ranking (route.ts, lines 263-275) *)

Module Rank.

Local Open Scope float_scope.

(** [b[i]] inside an arithmetic expression: out of range it is
    [undefined], which a product turns into NaN. *)
Definition at_index (b : list float) (i : nat) : float := nth i b nan.

(** [l.reduce((sum, x, i) => f(sum, x, i), acc)], the index starting at [i]. *)
Fixpoint reduceFrom (f : float -> float -> nat -> float)
  (l : list float) (i : nat) (acc : float) : float :=
  match l with
  | [] => acc
  | x :: rest => reduceFrom f rest (S i) (f acc x i)
  end.

Definition dotProduct (a b : list float) : float :=
  reduceFrom (fun sum ai i => sum + ai * at_index b i) a 0%nat 0.

Definition norm (a : list float) : float :=
  sqrt (reduceFrom (fun sum ai _ => sum + ai * ai) a 0%nat 0).

Definition cosineSimilarity (a b : list float) : float :=
  let dot := dotProduct a b in
  let normA := norm a in
  let normB := norm b in
  dot / (normA * normB).

(** [{ ...entry, similarity: cosineSimilarity(questionEmbedding, entry.embedding) }] *)
Definition score (questionEmbedding : list float) (entry : ScoredTreeSpecies)
  : ScoredTreeSpecies :=
  mkEntry (Species entry) (Family entry) (EcosystemService entry)
          (PartsUsed entry) (RelatedFunctionalTraits entry) (embedding entry)
          (Some (cosineSimilarity questionEmbedding (embedding entry))).

(** The value of the property [similarity] in arithmetic. *)
Definition similarityOf (e : ScoredTreeSpecies) : float :=
  match similarity e with
  | Some s => s
  | None => nan
  end.

(** [(a, b) => b.similarity - a.similarity] *)
Definition comparator (a b : ScoredTreeSpecies) : float :=
  similarityOf b - similarityOf a.

(** [Array.prototype.sort] places [a] after [b] when the comparator's
    value for [(a, b)] is positive; zero and NaN leave the pair as it is.
    The sort is stable, so with a consistent comparator its result is
    determined; it is modelled as a stable insertion sort.  With NaN
    similarities the comparator is not consistent and an engine may order
    the entries otherwise. *)
Definition sortsAfter (a b : ScoredTreeSpecies) : bool := 0 <? comparator a b.

Fixpoint insertSorted (x : ScoredTreeSpecies) (l : list ScoredTreeSpecies)
  : list ScoredTreeSpecies :=
  match l with
  | [] => [x]
  | y :: rest => if sortsAfter x y then y :: insertSorted x rest else x :: l
  end.

Definition sortBySimilarity (l : list ScoredTreeSpecies) : list ScoredTreeSpecies :=
  fold_right insertSorted [] l.

(** [scored], after [scored.sort(...)]. *)
Definition rankCatalog (questionEmbedding : list float)
  (dataWithEmbeddings : list ScoredTreeSpecies) : list ScoredTreeSpecies :=
  sortBySimilarity (map (score questionEmbedding) dataWithEmbeddings).

Definition isNaN (x : float) : bool := negb (x =? x).

Definition isZero (x : float) : bool := (x =? 0).

End Rank.

Import Rank.

(** ** The filter combinator (route.ts, lines 276-351) *)

Section FilterCombinator.

Context {engine : Builtins}.

(** [arr.length === 1 && arr[0].toLowerCase() === q.toLowerCase()] *)
Definition soleValueIs (arr : list string) (q : string) : bool :=
  (List.length arr =? 1)%nat
  && match arr with
     | x :: _ => toLowerCase x =? toLowerCase q
     | [] => false
     end.

(** [arr.some((s) => s.toLowerCase().includes(q.toLowerCase()))] *)
Definition someIncludes (arr : list string) (q : string) : bool :=
  existsb (fun s => includes (toLowerCase s) (toLowerCase q)) arr.

(** The callback of the filter on the exclusivity branch (lines 280-296). *)
Definition onlyCallback (query : Query) (item : ScoredTreeSpecies) : bool :=
  let matched := true in
  let matched :=
    match ecosystemService query with
    | Some q => if truthy (Some q)
                then matched && soleValueIs (EcosystemService item) q
                else matched
    | None => matched
    end in
  let matched :=
    match partUsed query with
    | Some q => if truthy (Some q)
                then matched && soleValueIs (PartsUsed item) q
                else matched
    | None => matched
    end in
  matched.

(** The callback of the filter on the default branch (lines 299-314). *)
Definition defaultCallback (query : Query) (item : ScoredTreeSpecies) : bool :=
  let speciesMatch :=
    match species query with
    | Some q => negb (truthy (Some q))
                || includes (toLowerCase (Species item)) (toLowerCase q)
    | None => true
    end in
  let ecosystemMatch :=
    match ecosystemService query with
    | Some q => negb (truthy (Some q)) || someIncludes (EcosystemService item) q
    | None => true
    end in
  let partMatch :=
    match partUsed query with
    | Some q => negb (truthy (Some q)) || someIncludes (PartsUsed item) q
    | None => true
    end in
  speciesMatch && ecosystemMatch && partMatch.

(** Lines 279-315: the primary branch chosen by [only]. *)
Definition primaryBranch (query : Query) (only : option bool)
  (dataWithEmbeddings scored : list ScoredTreeSpecies) : list ScoredTreeSpecies :=
  if truthyb only then filter (onlyCallback query) dataWithEmbeddings
  else filter (defaultCallback query) scored.

(** A step of the form [if (v) { filtered = filtered.filter(p v) }]. *)
Definition filterWhenSet (v : option string)
  (p : string -> ScoredTreeSpecies -> bool)
  (filtered : list ScoredTreeSpecies) : list ScoredTreeSpecies :=
  match v with
  | Some q => if truthy (Some q) then filter (p q) filtered else filtered
  | None => filtered
  end.

(** Lines 318-334: the second pass of the 'only' logic. *)
Definition onlyAgain (query : Query) (only : option bool)
  (filtered : list ScoredTreeSpecies) : list ScoredTreeSpecies :=
  if truthyb only then
    let filtered :=
      filterWhenSet (ecosystemService query)
        (fun q item => soleValueIs (EcosystemService item) q) filtered in
    filterWhenSet (partUsed query)
      (fun q item => soleValueIs (PartsUsed item) q) filtered
  else filtered.

(** Lines 336-351: the 'and' logic. *)
Definition andFilters (and_ : option AndClause)
  (filtered : list ScoredTreeSpecies) : list ScoredTreeSpecies :=
  match and_ with
  | Some clause =>
      let filtered :=
        filterWhenSet (andEcosystemService clause)
          (fun q item => someIncludes (EcosystemService item) q) filtered in
      filterWhenSet (andPartUsed clause)
        (fun q item => someIncludes (PartsUsed item) q) filtered
  | None => filtered
  end.

(** The value of [filtered] at line 352. *)
Definition filterCatalog (x : Extracted)
  (dataWithEmbeddings scored : list ScoredTreeSpecies) : list ScoredTreeSpecies :=
  andFilters (exAnd x)
    (onlyAgain (exQuery x) (exOnly x)
       (primaryBranch (exQuery x) (exOnly x) dataWithEmbeddings scored)).

End FilterCombinator.

(** ** The handler (route.ts, lines 30-407) *)

(** Calls the handler makes to its collaborators, in the order made:
    the completion attempt (the [try] block of lines 113-168), the
    embedding request, the catalog fetch and each image lookup. *)
Inductive Call : Type :=
| CompletionCall (question : string)
| EmbeddingCall (question : string)
| CatalogFetch (filename : string)
| ImageLookup (speciesName : string).

(** What the collaborators answer during one request.
    - [completion]: the parsed answer of the completion service, [None]
      when anything in the [try] block of lines 113-168 throws;
    - [embeddingOf]: the embedding of the question, [None] when
      [embeddings.create] throws;
    - [fetchPublicJson]: the catalog, or the message of the error thrown;
    - [fetchGbifImages]: the image URLs of a species (empty on failure). *)
Record World : Type := mkWorld {
  completion : string -> option LlmQuery;
  embeddingOf : string -> option (list float);
  fetchPublicJson : string -> string + list ScoredTreeSpecies;
  fetchGbifImages : string -> list string
}.

(** [{ ...item, images }] *)
Record ResultItem : Type := mkResult {
  resultItem : ScoredTreeSpecies;
  images : list string
}.

Inductive Response : Type :=
| JsonError (status : nat) (error : string)
| JsonCount (count : nat)
| JsonResults (results : list ResultItem).

(** A handler step logs the calls it makes and either goes on with a value
    or returns a response at once. *)
Definition Handler (A : Type) : Type := list Call -> (Response + A) * list Call.

Definition ret {A : Type} (a : A) : Handler A := fun log => (inr a, log).

Definition bind {A B : Type} (m : Handler A) (f : A -> Handler B) : Handler B :=
  fun log =>
    match m log with
    | (inl response, log') => (inl response, log')
    | (inr a, log') => f a log'
    end.

Definition respond {A : Type} (r : Response) : Handler A := fun log => (inl r, log).

Definition calling {A : Type} (c : Call) (answer : A) : Handler A :=
  fun log => (inr answer, (log ++ [c])%list).

Notation "x <- m ;; k" := (bind m (fun x => k))
  (at level 61, m at next level, right associativity).

(** [Promise.all(filtered.map(async (item) => ...fetchGbifImages(item.Species)...))] *)
Fixpoint withImages (w : World) (filtered : list ScoredTreeSpecies)
  : Handler (list ResultItem) :=
  match filtered with
  | [] => ret []
  | item :: rest =>
      imgs <- calling (ImageLookup (Species item)) (fetchGbifImages w (Species item)) ;;
      others <- withImages w rest ;;
      ret (mkResult item imgs :: others)
  end.

Section Route.

Context {engine : Builtins}.

(** The handler, for a request whose body has parsed to an object:
    [body] is its [question] when that is a string, [None] when it is
    absent, null or another falsy value that is not a string.  What is
    thrown while the catalog is fetched reaches the last [catch] (lines
    401-406) and is answered with its message. *)
Definition handle (w : World) (body : option string) : Handler Response :=
  if negb (truthy body) then respond (JsonError 400 "No question provided")
  else
    match body with
    | None => respond (JsonError 400 "No question provided")
    | Some question =>
        llm <- calling (CompletionCall question) (completion w question) ;;
        let x := extractQuery question llm in
        let countQuery := isCountQuery question in
        answer <- calling (EmbeddingCall question) (embeddingOf w question) ;;
        match answer with
        | None => respond (JsonError 500 "Failed to generate embedding for question.")
        | Some questionEmbedding =>
            fetched <- calling (CatalogFetch "data_with_embeddings.json")
                               (fetchPublicJson w "data_with_embeddings.json") ;;
            match fetched with
            | inl message => respond (JsonError 500 message)
            | inr dataWithEmbeddings =>
                let scored := rankCatalog questionEmbedding dataWithEmbeddings in
                let filtered := filterCatalog x dataWithEmbeddings scored in
                resultsWithImages <- withImages w filtered ;;
                if countQuery then ret (JsonCount (List.length filtered))
                else ret (JsonResults resultsWithImages)
            end
        end
    end.

(** The response of a request and the calls it made. *)
Definition POST (w : World) (body : option string) : Response * list Call :=
  match handle w body [] with
  | (inl response, log) => (response, log)
  | (inr response, log) => (response, log)
  end.

End Route.

(** ** Vocabulary of the specification *)

(** [needle] occurs in [hay] as a substring. *)
Definition occursIn (needle hay : string) : Prop :=
  exists pre post, hay = pre ++ needle ++ post.

(** [label] is the first canonical label of [dict], in table order, one of
    whose synonyms occurs in [lowerQ]. *)
Definition firstLabelWith (lowerQ : string) (dict : Dict) (label : string) : Prop :=
  exists pre synonyms post,
    dict = (pre ++ (label, synonyms) :: post)%list
    /\ (exists syn, In syn synonyms /\ occursIn syn lowerQ)
    /\ (forall entry syn, In entry pre -> In syn (snd entry) -> ~ occursIn syn lowerQ).

(** A non-empty word of the letters a-z. *)
Fixpoint allLower (w : string) : bool :=
  match w with
  | EmptyString => true
  | String c w' => isLowerAZ c && allLower w'
  end.

Definition isToken (w : string) : Prop := w <> "" /\ allLower w = true.

(** The pattern [p] matches somewhere in [s] with capture [w]. *)
Definition matchesPattern (p : OnlyPattern) (s w : string) : Prop :=
  isToken w /\ occursIn (patBefore p ++ w ++ patAfter p) s.

(** None of the exclusivity patterns matches [lowerQ]. *)
Definition noOnlyPattern (lowerQ : string) : Prop :=
  forall p w, In p onlyPartsUsedPatterns -> ~ matchesPattern p lowerQ w.

Section Matching.

Context {engine : Builtins}.

(** [arr] has length exactly 1 and its sole element equals [q]
    case-insensitively. *)
Definition soleValue (arr : list string) (q : string) : Prop :=
  exists x, arr = [x] /\ toLowerCase x = toLowerCase q.

(** Some element of [arr] contains [q] case-insensitively. *)
Definition someContains (arr : list string) (q : string) : Prop :=
  exists s, In s arr /\ occursIn (toLowerCase q) (toLowerCase s).

(** The exclusivity branch's matching rule, in the spec's words. *)
Definition onlySpec (query : Query) (item : ScoredTreeSpecies) : Prop :=
  (forall q, ecosystemService query = Some q -> soleValue (EcosystemService item) q)
  /\ (forall q, partUsed query = Some q -> soleValue (PartsUsed item) q).

(** The default branch's matching rule, in the spec's words. *)
Definition defaultSpec (query : Query) (item : ScoredTreeSpecies) : Prop :=
  (forall q, species query = Some q ->
             occursIn (toLowerCase q) (toLowerCase (Species item)))
  /\ (forall q, ecosystemService query = Some q ->
                someContains (EcosystemService item) q)
  /\ (forall q, partUsed query = Some q -> someContains (PartsUsed item) q).

(** The 'and' predicates, in the spec's words; a value is present when it
    is a non-empty string. *)
Definition andSpec (and_ : option AndClause) (item : ScoredTreeSpecies) : Prop :=
  forall clause, and_ = Some clause ->
    (forall q, andEcosystemService clause = Some q -> q <> "" ->
               someContains (EcosystemService item) q)
    /\ (forall q, andPartUsed clause = Some q -> q <> "" ->
                  someContains (PartsUsed item) q).

End Matching.

(** The calls of the enrichment step for a list of surviving entries. *)
Definition imageLookups (filtered : list ScoredTreeSpecies) : list Call :=
  map (fun item => ImageLookup (Species item)) filtered.

Definition isImageLookup (c : Call) : bool :=
  match c with
  | ImageLookup _ => true
  | _ => false
  end.

(** Zero, negative zero or NaN. *)
Definition zeroOrNaN (x : float) : Prop :=
  x = PrimFloat.zero \/ x = PrimFloat.neg_zero \/ x = PrimFloat.nan.

(** ** Example data *)

Module Examples.

Local Open Scope float_scope.

Definition bertholletia : ScoredTreeSpecies :=
  mkEntry "Bertholletia excelsa" "Lecythidaceae"
          ["Food"; "Raw Material"] ["seed"; "trunk"] ["seed mass"] [1; 0] None.

Definition carapa : ScoredTreeSpecies :=
  mkEntry "Carapa guianensis" "Meliaceae"
          ["Medicinal"] ["leaves"] ["leaf area"] [0; 1] None.

Definition protium : ScoredTreeSpecies :=
  mkEntry "Protium hebetatum" "Burseraceae"
          ["Medicinal"; "Raw Material"] ["resin"; "bark"] [] [1; 1] None.

(** An entry without services or parts, as [scripts/xlsx-to-json.ts]
    writes a row whose cells are empty. *)
Definition pouteria : ScoredTreeSpecies :=
  mkEntry "Pouteria sp." "Sapotaceae" [] [] [] [1; 2] None.

Definition catalog : list ScoredTreeSpecies :=
  [bertholletia; carapa; protium; pouteria].

(** An entry whose embedding is the zero vector, and a catalog with it. *)
Definition inga : ScoredTreeSpecies :=
  mkEntry "Inga sp." "Fabaceae" ["Food"] ["fruits"] [] [0; 0] None.

Definition catalogWithZero : list ScoredTreeSpecies :=
  [bertholletia; inga; carapa].

(** Entries whose services and parts are written with capitals, one of
    them with a part in Portuguese, as [scripts/xlsx-to-json.ts] leaves a
    part it cannot translate, and a catalog with them. *)
Definition hymenaea : ScoredTreeSpecies :=
  mkEntry "Hymenaea courbaril" "Fabaceae" ["Food"] ["LEAVES"] [] [1; 3] None.

Definition copaifera : ScoredTreeSpecies :=
  mkEntry "Copaifera multijuga" "Fabaceae" ["MEDICINAL"] ["ÓLEO"] [] [2; 1] None.

(** The no-break space U+00A0, the line separator U+2028 and the byte
    order mark U+FEFF. *)
Definition nbsp : string := String "194" (String "160" EmptyString).

Definition lineSeparator : string :=
  String "226" (String "128" (String "168" EmptyString)).

Definition byteOrderMark : string :=
  String "239" (String "187" (String "191" EmptyString)).

Definition capitalsCatalog : list ScoredTreeSpecies :=
  [carapa; hymenaea; protium; copaifera].

(** A world in which the completion service is down, so that the heuristic
    parser runs. *)
Definition offlineWorld : World :=
  mkWorld (fun _ => None)
          (fun _ => Some [1; 1])
          (fun _ => inr catalog)
          (fun name => [name ++ ".jpg"]%string).

(** A table with two entries, the first of which lists the lower-cased
    second label among its synonyms. *)
Definition crossedTable : Dict := [("Y", ["x"]); ("X", ["q"])].

End Examples.

(** ** The collaborators reached over HTTP (route.ts, lines 41-48 and 358-386) *)

Module Http.

(** The two environment variables [fetchPublicJson] reads. *)
Record ProcessEnv : Type := mkEnv {
  VERCEL_URL : option string;
  NEXT_PUBLIC_BASE_URL : option string
}.

(** What [await fetch(url)] followed by [await res.json()] can give: the
    promise of [fetch] rejects with an error of some message, or a response
    arrives with its [ok] flag and a body that parses ([inr]) or does not
    ([inl], the message of the error [json()] throws). *)
Inductive Fetched (A : Type) : Type :=
| Rejected (message : string)
| Responded (ok : bool) (json : string + A).

Arguments Rejected {A} message.
Arguments Responded {A} ok json.

(** [process.env.VERCEL_URL ? `https://${process.env.VERCEL_URL}`
      : process.env.NEXT_PUBLIC_BASE_URL || "http://localhost:3000"] *)
Definition baseUrl (env : ProcessEnv) : string :=
  if truthy (VERCEL_URL env) then
    match VERCEL_URL env with
    | Some v => "https://" ++ v
    | None => "https://"
    end
  else if truthy (NEXT_PUBLIC_BASE_URL env) then
    match NEXT_PUBLIC_BASE_URL env with
    | Some v => v
    | None => "http://localhost:3000"
    end
  else "http://localhost:3000".

Definition publicUrl (env : ProcessEnv) (filename : string) : string :=
  (baseUrl env ++ "/") ++ filename.

(** [fetchPublicJson(filename)], lines 41-48: the value it resolves to, or
    the message of the error it throws. *)
Definition fetchPublicJson {A : Type} (env : ProcessEnv)
  (fetch : string -> Fetched A) (filename : string) : string + A :=
  match fetch (publicUrl env filename) with
  | Rejected message => inl message
  | Responded ok json =>
      if negb ok then inl ("Failed to fetch " ++ filename) else json
  end.

(** *** [encodeURIComponent]

    Letters, digits and [- _ . ! ~ * ' ( )] stand for themselves; any
    other character is written as [%] and two upper-case hexadecimal
    digits.  A character above 127 is a byte of the UTF-8 encoding and is
    escaped as such. *)

Definition isDigit (c : ascii) : bool :=
  let n := nat_of_ascii c in ((48 <=? n) && (n <=? 57))%nat.

Definition isMark (c : ascii) : bool :=
  existsb (Ascii.eqb c) ["-"; "_"; "."; "!"; "~"; "*"; "'"; "("; ")"]%char.

Definition isUnreserved (c : ascii) : bool :=
  isUpperAZ c || isLowerAZ c || isDigit c || isMark c.

Definition hexDigit (n : nat) : ascii :=
  nth n ["0"; "1"; "2"; "3"; "4"; "5"; "6"; "7"; "8"; "9";
         "A"; "B"; "C"; "D"; "E"; "F"]%char "0"%char.

Definition percentEscape (c : ascii) : string :=
  let n := nat_of_ascii c in
  String "%" (String (hexDigit (n / 16)) (String (hexDigit (n mod 16)) EmptyString)).

Fixpoint encodeURIComponent (s : string) : string :=
  match s with
  | EmptyString => EmptyString
  | String c s' =>
      (if isUnreserved c then String c EmptyString else percentEscape c)
      ++ encodeURIComponent s'
  end.

(** *** The image lookup (lines 358-386) *)

(** An element of [result.media]: its [type] and its [identifier], each
    possibly absent. *)
Record GbifMedia : Type := mkMedia {
  mediaType : option string;
  identifier : option string
}.

(** An element of [data.results]; [media] is [None] when the property is
    absent or is not an array. *)
Record GbifResult : Type := mkGbifResult {
  media : option (list GbifMedia)
}.

(** The parsed body of the occurrence search; [gbifResults] is [None] when
    [data.results] is absent. *)
Record GbifData : Type := mkGbifData {
  gbifResults : option (list GbifResult)
}.

Definition gbifApiUrl (speciesName : string) : string :=
  ("https://api.gbif.org/v1/occurrence/search?mediaType=StillImage&scientificName="
   ++ encodeURIComponent speciesName) ++ "&limit=10".

(** [media.type === "StillImage" && media.identifier] *)
Definition isStillImage (m : GbifMedia) : bool :=
  match mediaType m with
  | Some t => (t =? "StillImage") && truthy (identifier m)
  | None => false
  end.

Definition identifierOf (m : GbifMedia) : string :=
  match identifier m with
  | Some i => i
  | None => EmptyString
  end.

(** The inner loop, lines 369-378: the images collected so far go in, the
    images after the loop come out. *)
Fixpoint mediaLoop (medias : list GbifMedia) (images : list string) : list string :=
  match medias with
  | [] => images
  | m :: rest =>
      let images :=
        if isStillImage m && (List.length images <? 5)%nat
        then (images ++ [identifierOf m])%list
        else images in
      if (5 <=? List.length images)%nat then images (* break *)
      else mediaLoop rest images
  end.

(** The outer loop, lines 367-381. *)
Fixpoint resultLoop (results : list GbifResult) (images : list string) : list string :=
  match results with
  | [] => images
  | result :: rest =>
      let images :=
        match media result with
        | Some medias => mediaLoop medias images
        | None => images
        end in
      if (5 <=? List.length images)%nat then images (* break *)
      else resultLoop rest images
  end.

Definition collectImages (data : GbifData) : list string :=
  resultLoop (match gbifResults data with
              | Some results => results
              | None => []
              end) [].

(** [fetchGbifImages(speciesName)]: the [try] of lines 359-382 and its
    [catch]. *)
Definition fetchGbifImages (fetch : string -> Fetched GbifData)
  (speciesName : string) : list string :=
  match fetch (gbifApiUrl speciesName) with
  | Rejected _ => []
  | Responded ok json =>
      if negb ok then []
      else match json with
           | inl _ => []
           | inr data => collectImages data
           end
  end.

End Http.

(** The world of a deployment: the two services of the OpenAI client are
    taken as they answer, the catalog and the images are fetched as the
    handler fetches them. *)
Definition deployedWorld (env : Http.ProcessEnv)
  (completion : string -> option LlmQuery)
  (embeddingOf : string -> option (list float))
  (fetchCatalog : string -> Http.Fetched (list ScoredTreeSpecies))
  (fetchGbif : string -> Http.Fetched Http.GbifData) : World :=
  mkWorld completion embeddingOf
          (Http.fetchPublicJson env fetchCatalog)
          (Http.fetchGbifImages fetchGbif).

(** ** The page that calls the handler (the client component [Home]) *)

Module Page.

(** [modalImage]: the gallery of the open modal and the image shown. *)
Record ModalImage : Type := mkModal {
  modalImages : list string;
  modalIndex : nat
}.

(** The component's state variables.  [results] is [None] while the
    variable is [null] or [undefined]. *)
Record State : Type := mkState {
  question : string;
  results : option (list ResultItem);
  loading : bool;
  error : option string;
  modalImage : option ModalImage;
  visibleCount : nat;
  showBackToTop : bool
}.

Definition initialState : State := mkState "" None false None None 20 false.

Definition setQuestion (v : string) (st : State) : State :=
  mkState v (results st) (loading st) (error st) (modalImage st)
          (visibleCount st) (showBackToTop st).

Definition setResults (v : option (list ResultItem)) (st : State) : State :=
  mkState (question st) v (loading st) (error st) (modalImage st)
          (visibleCount st) (showBackToTop st).

Definition setLoading (v : bool) (st : State) : State :=
  mkState (question st) (results st) v (error st) (modalImage st)
          (visibleCount st) (showBackToTop st).

Definition setError (v : option string) (st : State) : State :=
  mkState (question st) (results st) (loading st) v (modalImage st)
          (visibleCount st) (showBackToTop st).

Definition setModalImage (v : option ModalImage) (st : State) : State :=
  mkState (question st) (results st) (loading st) (error st) v
          (visibleCount st) (showBackToTop st).

Definition setVisibleCount (v : nat) (st : State) : State :=
  mkState (question st) (results st) (loading st) (error st) (modalImage st)
          v (showBackToTop st).

Definition setShowBackToTop (v : bool) (st : State) : State :=
  mkState (question st) (results st) (loading st) (error st) (modalImage st)
          (visibleCount st) v.

(** What [await fetch("/api/ask", ...)] and [await res.json()] give the
    page: something is thrown (an [Error] with its message, or another
    value), or the handler's response arrives. *)
Inductive Reply : Type :=
| Thrown (message : option string)
| Answered (response : Response).

(** [res.ok] *)
Definition statusOk (status : nat) : bool :=
  ((200 <=? status) && (status <=? 299))%nat.

(** [handleSubmit] up to its first [await]. *)
Definition beginSubmit (st : State) : State :=
  setResults None (setError None (setLoading true st)).

(** [handleSubmit] from the reply on: the rest of the [try], the [catch]
    and the [finally]. *)
Definition finishSubmit (reply : Reply) (st : State) : State :=
  let st :=
    match reply with
    | Thrown (Some message) => setError (Some message) st
    | Thrown None => setError (Some "Unknown error") st
    | Answered (JsonError status message) =>
        if statusOk status then setResults None st (* data.results is undefined *)
        else setError (Some (if truthy (Some message) then message
                             else "Unknown error")) st
    | Answered (JsonCount _) => setResults None st (* data.results is undefined *)
    | Answered (JsonResults rs) => setResults (Some rs) st
    end in
  setLoading false st.

Definition handleSubmit (reply : Reply) (st : State) : State :=
  finishSubmit reply (beginSubmit st).

Section Submission.

Context {engine : Builtins}.

(** A submission answered by the handler in world [w]: the body sent is
    [{ question }]. *)
Definition submitTo (w : World) (st : State) : State :=
  handleSubmit (Answered (fst (POST w (Some (question st))))) st.

End Submission.

(** What the page shows of the state. *)
Definition shownError (st : State) : option string :=
  if truthy (error st) then error st else None.

(** [results.slice(0, visibleCount)] *)
Definition shownItems (st : State) : list ResultItem :=
  match results st with
  | Some rs => firstn (visibleCount st) rs
  | None => []
  end.

(** The loader [div] is rendered: [visibleCount < results.length]. *)
Definition loaderShown (st : State) : bool :=
  match results st with
  | Some rs => negb (List.length rs =? 0)%nat && (visibleCount st <? List.length rs)%nat
  | None => false
  end.

(** The modal is rendered: inside the results block, when [modalImage] is
    set. *)
Definition modalShown (st : State) : bool :=
  match results st, modalImage st with
  | Some _, Some _ => true
  | _, _ => false
  end.

(** What can happen to the page. *)
Inductive Event : Type :=
| Typed (text : string)
| SubmitStarted
| SubmitSettled (reply : Reply)
| LoaderSeen
| ThumbnailClicked (idx : nat)
| GalleryClicked (i : nat)
| ModalClosed
| Scrolled (scrollY : nat).

(** The state after an event, [None] when the page in that state offers
    no element that raises it. *)
Definition step (st : State) (e : Event) : option State :=
  match e with
  | Typed text => Some (setQuestion text st)
  | SubmitStarted => Some (beginSubmit st)
  | SubmitSettled reply => Some (finishSubmit reply st)
  | LoaderSeen =>
      if loaderShown st then
        match results st with
        | Some rs =>
            Some (setVisibleCount (Nat.min (visibleCount st + 20) (List.length rs)) st)
        | None => None
        end
      else None
  | ThumbnailClicked idx =>
      match nth_error (shownItems st) idx with
      | Some item =>
          if (0 <? List.length (images item))%nat
          then Some (setModalImage (Some (mkModal (firstn 7 (images item)) 0)) st)
          else None
      | None => None
      end
  | GalleryClicked i =>
      if modalShown st then
        match modalImage st with
        | Some m =>
            if (i <? List.length (modalImages m))%nat
            then Some (setModalImage (Some (mkModal (modalImages m) i)) st)
            else None
        | None => None
        end
      else None
  | ModalClosed => if modalShown st then Some (setModalImage None st) else None
  | Scrolled scrollY => Some (setShowBackToTop (300 <? scrollY)%nat st)
  end.

(** The states the page can be in: the initial one and those an event
    leads to. *)
Inductive Reachable : State -> Prop :=
| reach_initial : Reachable initialState
| reach_step : forall st e st',
    Reachable st -> step st e = Some st' -> Reachable st'.

End Page.

(** ** The batch job that attaches the embeddings (scripts/add-embeddings.ts) *)

Module AddEmbeddings.

(** An entry of [data.json]; the three arrays may be absent, and
    [embedding] is absent until the job sets it. *)
Record DataEntry : Type := mkData {
  dSpecies : string;
  dFamily : string;
  dEcosystemService : option (list string);
  dPartsUsed : option (list string);
  dRelatedFunctionalTraits : option (list string);
  dOBS : option string;
  dEmbedding : option (list float)
}.

(** [arr.join(sep)] *)
Fixpoint join (sep : string) (arr : list string) : string :=
  match arr with
  | [] => EmptyString
  | [x] => x
  | x :: rest => x ++ sep ++ join sep rest
  end.

(** [arr || []] *)
Definition orEmpty (arr : option (list string)) : list string :=
  match arr with
  | Some l => l
  | None => []
  end.

Definition newline : string := String (ascii_of_nat 10) EmptyString.

(** The text sent for an entry (lines 23-31); the template has a line
    break and four blanks before its last line. *)
Definition embeddingText (entry : DataEntry) : string :=
  "Species: " ++ dSpecies entry ++ newline
  ++ "Family: " ++ dFamily entry ++ newline
  ++ "EcosystemService: " ++ join ", " (orEmpty (dEcosystemService entry)) ++ newline
  ++ "PartsUsed: " ++ join ", " (orEmpty (dPartsUsed entry)) ++ newline
  ++ "    " ++ newline
  ++ "RelatedFunctionalTraits: " ++ join ", " (orEmpty (dRelatedFunctionalTraits entry)).

(** [entry.embedding = embeddingResponse.data[0].embedding] *)
Definition withEmbedding (entry : DataEntry) (e : list float) : DataEntry :=
  mkData (dSpecies entry) (dFamily entry) (dEcosystemService entry)
         (dPartsUsed entry) (dRelatedFunctionalTraits entry) (dOBS entry) (Some e).

(** The loop of lines 21-37 over the entries left: the entries with their
    embeddings, or [None] when a request throws, and the texts requested,
    in order. *)
Fixpoint embedEach (embed : string -> option (list float)) (data : list DataEntry)
  : option (list DataEntry) * list string :=
  match data with
  | [] => (Some [], [])
  | entry :: rest =>
      let text := embeddingText entry in
      match embed text with
      | None => (None, [text])
      | Some e =>
          let (done, requested) := embedEach embed rest in
          (option_map (cons (withEmbedding entry e)) done, text :: requested)
      end
  end.

(** How a run of the script ends: the data handed to [fs.writeFile], or
    [process.exit(1)]. *)
Inductive Outcome : Type :=
| WriteFile (data : list DataEntry)
| Exit1.

(** [main().catch(...)]: [raw] is what reading and parsing [data.json]
    gives, the message of the error thrown or the entries. *)
Definition main (raw : string + list DataEntry) (embed : string -> option (list float))
  : Outcome * list string :=
  match raw with
  | inl _ => (Exit1, [])
  | inr data =>
      match embedEach embed data with
      | (Some done, requested) => (WriteFile done, requested)
      | (None, requested) => (Exit1, requested)
      end
  end.

End AddEmbeddings.

(** ** Vocabulary of the further properties *)

Definition isErrorResponse (r : Response) : bool :=
  match r with
  | JsonError _ _ => true
  | _ => false
  end.

(** [l] is [full] with some elements left out, the order kept. *)
Inductive Sublist {A : Type} : list A -> list A -> Prop :=
| sub_nil : Sublist [] []
| sub_keep : forall x l full, Sublist l full -> Sublist (x :: l) (x :: full)
| sub_drop : forall x l full, Sublist l full -> Sublist l (x :: full).

(** The identifiers of the still images of a response, in document
    order. *)
Definition stillImageIdentifiers (data : Http.GbifData) : list string :=
  flat_map (fun result =>
              match Http.media result with
              | Some medias => map Http.identifierOf (filter Http.isStillImage medias)
              | None => []
              end)
           (match Http.gbifResults data with
            | Some results => results
            | None => []
            end).

(** The characters [encodeURIComponent] can produce. *)
Definition isUrlChar (c : ascii) : bool := Http.isUnreserved c || Ascii.eqb c "%".

Fixpoint allChars (p : ascii -> bool) (s : string) : bool :=
  match s with
  | EmptyString => true
  | String c s' => p c && allChars p s'
  end.

Definition hexValue (c : ascii) : nat :=
  let n := nat_of_ascii c in
  if Http.isDigit c then n - 48 else n - 55.

(** Reading the escapes back. *)
Fixpoint percentDecode (s : string) : string :=
  match s with
  | EmptyString => EmptyString
  | String c rest =>
      if Ascii.eqb c "%" then
        match rest with
        | String h (String l rest') =>
            String (ascii_of_nat (16 * hexValue h + hexValue l)) (percentDecode rest')
        | _ => String c (percentDecode rest)
        end
      else String c (percentDecode rest)
  end.

(** What holds of the page's state at any time: at least twenty items
    are asked for, and an open modal has at most seven images and points at
    one of them. *)
Definition pageInvariant (st : Page.State) : Prop :=
  (20 <= Page.visibleCount st)%nat
  /\ forall m, Page.modalImage st = Some m ->
               (Page.modalIndex m < List.length (Page.modalImages m))%nat
               /\ (List.length (Page.modalImages m) <= 7)%nat.

Section Spelling.

Context {engine : Builtins}.

(** [v] is a synonym of table [T] that is not the spelling of a
    canonical label: in the part table "fruits", "seeds", "leaf", "roots",
    "branches", "flowers", "wood", "timber" and the three "edible ..."
    phrases. *)
Definition synonymSpelling (T : Dict) (v : string) : Prop :=
  (exists canonical synonyms, In (canonical, synonyms) T /\ In v synonyms)
  /\ (forall canonical synonyms, In (canonical, synonyms) T -> toLowerCase canonical <> v).

End Spelling.

(** * Properties *)

(** ** Strings *)

Lemma prefix_iff : forall p s,
  String.prefix p s = true <-> exists t, s = p ++ t.
Proof.
  induction p as [|a p IH]; intros s.
  - split; [intros _; exists s; reflexivity | intros _; destruct s; reflexivity].
  - destruct s as [|b s]; simpl.
    + split; [discriminate | intros [t Ht]; discriminate].
    + destruct (ascii_dec a b) as [->|Hab].
      * rewrite IH. split; intros [t Ht]; exists t.
        -- now rewrite Ht.
        -- now injection Ht.
      * split; [discriminate | intros [t Ht]; injection Ht; intros _ Heq; now elim Hab].
Qed.

Lemma includes_iff : forall hay needle,
  includes hay needle = true <-> occursIn needle hay.
Proof.
  induction hay as [|c hay IH]; intros needle.
  - change (includes "" needle) with (String.prefix needle "" || false).
    rewrite orb_false_r, prefix_iff. split.
    + intros [t Ht]. exists "", t. exact Ht.
    + intros [pre [post H]]. destruct pre; [|discriminate]. now exists post.
  - change (includes (String c hay) needle)
      with (String.prefix needle (String c hay) || includes hay needle).
    rewrite orb_true_iff, prefix_iff, IH. split.
    + intros [[t Ht] | [pre [post H]]].
      * exists "", t. exact Ht.
      * exists (String c pre), post. simpl. now rewrite H.
    + intros [pre [post H]]. destruct pre as [|c' pre].
      * left. now exists post.
      * right. simpl in H. injection H as _ H. now exists pre, post.
Qed.

Lemma includes_empty : forall hay, includes hay "" = true.
Proof. intros hay. apply includes_iff. exists "", hay. reflexivity. Qed.

Lemma occursIn_empty : forall hay, occursIn "" hay.
Proof. intros hay. exists "", hay. reflexivity. Qed.

Lemma truthy_Some : forall v : string, truthy (Some v) = true <-> v <> "".
Proof. intros [|c v]; simpl; split; congruence. Qed.

Lemma truthy_true : forall value,
  truthy value = true -> exists v, value = Some v /\ v <> "".
Proof.
  intros [v|]; simpl; [|discriminate].
  intros H. exists v. split; [reflexivity | now apply truthy_Some].
Qed.

(** ** ASCII text *)

Lemma isLower_not_space : forall c, isLowerAZ c = true -> AsciiText.isSpace c = false.
Proof.
  intros c. unfold isLowerAZ, AsciiText.isSpace. cbv zeta.
  rewrite andb_true_iff, !Nat.leb_le. intros [H1 H2].
  apply orb_false_iff. split.
  - apply andb_false_iff. right. apply Nat.leb_gt. lia.
  - apply Nat.eqb_neq. lia.
Qed.

Lemma isLower_not_upper : forall c, isLowerAZ c = true -> isUpperAZ c = false.
Proof.
  intros c. unfold isLowerAZ, isUpperAZ. cbv zeta.
  rewrite andb_true_iff, !Nat.leb_le. intros [H1 H2].
  apply andb_false_iff. right. apply Nat.leb_gt. lia.
Qed.

Lemma allLower_isText : forall w, allLower w = true -> AsciiText.isText w = true.
Proof.
  induction w as [|c w IH]; [reflexivity|].
  cbn [allLower AsciiText.isText]. rewrite !andb_true_iff. intros [Hc Hw].
  split; [|now apply IH].
  unfold isLowerAZ in Hc. cbv zeta in Hc. apply andb_true_iff in Hc.
  destruct Hc as [_ Hc]. apply Nat.leb_le in Hc. apply Nat.ltb_lt. lia.
Qed.

Lemma asciiLowerCase_allLower : forall w,
  allLower w = true -> AsciiText.toLowerCase w = w.
Proof.
  induction w as [|c w IH]; simpl; [reflexivity|].
  rewrite andb_true_iff. intros [Hc Hw]. unfold AsciiText.lowerChar.
  rewrite (isLower_not_upper c Hc), (IH Hw). reflexivity.
Qed.

Lemma asciiTrimEnd_allLower : forall w, allLower w = true -> AsciiText.trimEnd w = w.
Proof.
  induction w as [|c w IH]; simpl; [reflexivity|].
  rewrite andb_true_iff. intros [Hc Hw]. rewrite (IH Hw).
  destruct w; [|reflexivity]. now rewrite (isLower_not_space c Hc).
Qed.

Lemma asciiTrim_allLower : forall w, allLower w = true -> AsciiText.trim w = w.
Proof.
  intros w Hw. unfold AsciiText.trim.
  replace (AsciiText.trimStart w) with w; [now apply asciiTrimEnd_allLower|].
  destruct w as [|c w]; [reflexivity|]. simpl in *.
  apply andb_true_iff in Hw. destruct Hw as [Hc _].
  now rewrite (isLower_not_space c Hc).
Qed.

(** ** The built-ins on literals and on tokens *)

(** Rewrites the built-ins applied to closed ASCII text into the functions
    of [AsciiText], which compute. *)
Ltac ascii_literals :=
  repeat match goal with
         | |- context [trim ?s] => rewrite (trim_ascii s eq_refl)
         | |- context [toLowerCase ?s] => rewrite (toLowerCase_ascii s eq_refl)
         end.

Section Verification.

Context {engine : Builtins}.

Lemma toLowerCase_allLower : forall w, allLower w = true -> toLowerCase w = w.
Proof.
  intros w Hw. rewrite (toLowerCase_ascii w (allLower_isText w Hw)).
  now apply asciiLowerCase_allLower.
Qed.

Lemma trim_allLower : forall w, allLower w = true -> trim w = w.
Proof.
  intros w Hw. rewrite (trim_ascii w (allLower_isText w Hw)).
  now apply asciiTrim_allLower.
Qed.

Lemma toLowerCase_empty : toLowerCase "" = "".
Proof. now rewrite (toLowerCase_ascii "" eq_refl). Qed.

(** ** The synonym normaliser *)

Lemma entryMatches_iff : forall lv canonical synonyms,
  entryMatches lv (canonical, synonyms) = true
  <-> toLowerCase canonical = lv
      \/ exists syn, In syn synonyms /\ toLowerCase syn = lv.
Proof.
  intros lv canonical synonyms. unfold entryMatches.
  rewrite orb_true_iff, String.eqb_eq, existsb_exists.
  split; (intros [H | [syn [Hin H]]]; [now left | right; exists syn]).
  - now apply String.eqb_eq in H.
  - split; [exact Hin | now apply String.eqb_eq].
Qed.

Lemma normalizeLoop_step : forall lv canonical synonyms rest,
  normalizeLoop lv ((canonical, synonyms) :: rest)
  = if entryMatches lv (canonical, synonyms) then Some canonical
    else normalizeLoop lv rest.
Proof.
  intros. simpl. destruct (toLowerCase canonical =? lv); [reflexivity|].
  now destruct (existsb _ synonyms).
Qed.

Lemma normalizeLoop_first : forall lv pre canonical synonyms post,
  (forall e, In e pre -> entryMatches lv e = false) ->
  entryMatches lv (canonical, synonyms) = true ->
  normalizeLoop lv (pre ++ (canonical, synonyms) :: post)%list = Some canonical.
Proof.
  intros lv pre canonical synonyms post. induction pre as [|[c s] pre IH]; intros Hpre Hm.
  - simpl app. now rewrite normalizeLoop_step, Hm.
  - simpl app. rewrite normalizeLoop_step, (Hpre (c, s) (or_introl eq_refl)).
    apply IH; [|exact Hm]. intros e He. apply Hpre. now right.
Qed.

Lemma normalizeLoop_Some : forall lv T canonical,
  normalizeLoop lv T = Some canonical ->
  exists synonyms, In (canonical, synonyms) T
                   /\ entryMatches lv (canonical, synonyms) = true.
Proof.
  intros lv T canonical. induction T as [|[c s] T IH]; [discriminate|].
  rewrite normalizeLoop_step. destruct (entryMatches lv (c, s)) eqn:Hm.
  - intros H. injection H as <-. exists s. split; [now left | exact Hm].
  - intros H. destruct (IH H) as [syns [Hin Hms]]. exists syns. split; [now right | exact Hms].
Qed.

Lemma normalizeLoop_None : forall lv T,
  normalizeLoop lv T = None <-> forall e, In e T -> entryMatches lv e = false.
Proof.
  intros lv T. induction T as [|[c s] T IH].
  - split; [intros _ e [] | reflexivity].
  - rewrite normalizeLoop_step. destruct (entryMatches lv (c, s)) eqn:Hm.
    + split; [discriminate|]. intros H. specialize (H (c, s) (or_introl eq_refl)). congruence.
    + rewrite IH. split.
      * intros H e [<- | He]; [exact Hm | now apply H].
      * intros H e He. apply H. now right.
Qed.

Lemma normalizeField_nonempty : forall v T,
  v <> "" ->
  normalizeField (Some v) T
  = match normalizeLoop (toLowerCase (trim v)) T with
    | Some canonical => Some canonical
    | None => Some v
    end.
Proof.
  intros v T Hv. unfold normalizeField.
  now rewrite (proj2 (truthy_Some v) Hv).
Qed.

Lemma normalizeField_falsy : forall value T,
  truthy value = false -> normalizeField value T = None.
Proof. intros value T H. unfold normalizeField. now rewrite H. Qed.

Lemma canonicalStable_spec : forall T canonical synonyms,
  canonicalStable T = true -> In (canonical, synonyms) T ->
  normalizeField (Some canonical) T = Some canonical.
Proof.
  intros T canonical synonyms HT Hin. unfold canonicalStable in HT.
  rewrite forallb_forall in HT. specialize (HT _ Hin). simpl in HT.
  destruct (normalizeField (Some canonical) T) as [c|]; [|discriminate].
  apply String.eqb_eq in HT. now subst.
Qed.

Lemma normalizeField_idem_stable : forall T x,
  canonicalStable T = true ->
  normalizeField (normalizeField x T) T = normalizeField x T.
Proof.
  intros T x HT. destruct (truthy x) eqn:Hx.
  - destruct (truthy_true x Hx) as [v [-> Hv]].
    rewrite (normalizeField_nonempty v T Hv).
    destruct (normalizeLoop (toLowerCase (trim v)) T) as [c|] eqn:Hloop.
    + destruct (normalizeLoop_Some _ _ _ Hloop) as [syns [Hin _]].
      exact (canonicalStable_spec T c syns HT Hin).
    + now rewrite (normalizeField_nonempty v T Hv), Hloop.
  - rewrite (normalizeField_falsy x T Hx). reflexivity.
Qed.

Lemma program_tables_stable :
  canonicalStable ecosystemServiceSynonyms = true
  /\ canonicalStable partUsedSynonyms = true.
Proof.
  split;
    unfold canonicalStable, normalizeField, ecosystemServiceSynonyms, partUsedSynonyms;
    cbn [forallb fst truthy negb normalizeLoop existsb];
    ascii_literals; vm_compute; reflexivity.
Qed.

(** C8, as the code has it.  The normaliser is a total function.  It
    returns null on a null or empty input.  On any other input it returns
    the canonical label of the first entry, in table order, whose label or
    one of whose synonyms equals the trimmed, lower-cased input when
    lower-cased itself; when no entry does, it returns the input as it was
    given (untrimmed, original case). *)
Theorem normalizeField_contract : forall (value : option string) (T : Dict),
  (truthy value = false -> normalizeField value T = None)
  /\ (forall v, value = Some v -> v <> "" ->
      (forall pre canonical synonyms post,
          T = (pre ++ (canonical, synonyms) :: post)%list ->
          (forall e, In e pre -> entryMatches (toLowerCase (trim v)) e = false) ->
          (toLowerCase canonical = toLowerCase (trim v)
           \/ exists syn, In syn synonyms /\ toLowerCase syn = toLowerCase (trim v)) ->
          normalizeField value T = Some canonical)
      /\ (noEntryMatches v T -> normalizeField value T = Some v)).
Proof.
  intros value T. split; [apply normalizeField_falsy|].
  intros v -> Hv. rewrite (normalizeField_nonempty v T Hv). split.
  - intros pre canonical synonyms post -> Hpre Hm.
    apply entryMatches_iff in Hm.
    now rewrite (normalizeLoop_first _ pre canonical synonyms post Hpre Hm).
  - intros Hnone. apply normalizeLoop_None in Hnone. now rewrite Hnone.
Qed.

(** C9, as the code has it.  On a table each of whose canonical labels
    normalises to itself, as both tables of the program do, normalising
    twice is normalising once. *)
Theorem normalizeField_idempotent : forall (T : Dict) (x : option string),
  canonicalStable T = true ->
  normalizeField (normalizeField x T) T = normalizeField x T.
Proof. intros T x HT. now apply normalizeField_idem_stable. Qed.

(** Both tables of the program are covered. *)
Lemma normalizeField_idempotent_program : forall x,
  normalizeField (normalizeField x ecosystemServiceSynonyms) ecosystemServiceSynonyms
  = normalizeField x ecosystemServiceSynonyms
  /\ normalizeField (normalizeField x partUsedSynonyms) partUsedSynonyms
     = normalizeField x partUsedSynonyms.
Proof.
  intros x. split; apply normalizeField_idem_stable; apply program_tables_stable.
Qed.

(** ** The heuristic parser: table scans *)

Lemma append_assoc : forall a b c : string, (a ++ b) ++ c = a ++ b ++ c.
Proof. induction a as [|x a IH]; intros b c; simpl; [reflexivity | now rewrite IH]. Qed.

Lemma append_empty_r : forall a : string, a ++ "" = a.
Proof. induction a as [|x a IH]; simpl; [reflexivity | now rewrite IH]. Qed.

Lemma someSynonym_iff : forall lowerQ synonyms,
  existsb (fun syn => includes lowerQ syn) synonyms = true
  <-> exists syn, In syn synonyms /\ occursIn syn lowerQ.
Proof.
  intros lowerQ synonyms. rewrite existsb_exists.
  split; intros [syn [Hin H]]; exists syn; (split; [exact Hin | now apply includes_iff]).
Qed.

Lemma someSynonym_false : forall lowerQ synonyms,
  existsb (fun syn => includes lowerQ syn) synonyms = false
  <-> forall syn, In syn synonyms -> ~ occursIn syn lowerQ.
Proof.
  intros lowerQ synonyms. rewrite <- not_true_iff_false, someSynonym_iff. split.
  - intros H syn Hin Hocc. apply H. now exists syn.
  - intros H [syn [Hin Hocc]]. exact (H syn Hin Hocc).
Qed.

Lemma detectLabel_iff : forall lowerQ dict label,
  detectLabel lowerQ dict = Some label <-> firstLabelWith lowerQ dict label.
Proof.
  intros lowerQ dict label. split.
  - induction dict as [|[l s] dict IH]; [discriminate|]. simpl.
    destruct (existsb (fun syn => includes lowerQ syn) s) eqn:Hs.
    + intros H. injection H as <-. exists [], s, dict. split; [reflexivity|]. split.
      * now apply someSynonym_iff.
      * intros entry syn [].
    + intros H. destruct (IH H) as [pre [syns [post [-> [Hsyn Hpre]]]]].
      exists ((l, s) :: pre), syns, post. split; [reflexivity|]. split; [exact Hsyn|].
      intros entry syn [<- | Hin] Hsynin.
      * simpl in Hsynin. now apply (proj1 (someSynonym_false lowerQ s) Hs).
      * now apply (Hpre entry).
  - intros [pre [syns [post [-> [Hsyn Hpre]]]]].
    induction pre as [|[l s] pre IH]; simpl.
    + now rewrite (proj2 (someSynonym_iff lowerQ syns) Hsyn).
    + assert (Hs : existsb (fun syn => includes lowerQ syn) s = false).
      { apply someSynonym_false. intros syn Hin.
        exact (Hpre (l, s) syn (or_introl eq_refl) Hin). }
      rewrite Hs. apply IH. intros entry syn Hin. apply Hpre. now right.
Qed.

Lemma detectLabel_in : forall lowerQ dict label,
  detectLabel lowerQ dict = Some label -> exists synonyms, In (label, synonyms) dict.
Proof.
  intros lowerQ dict label H. apply detectLabel_iff in H.
  destruct H as [pre [syns [post [-> _]]]]. exists syns.
  apply in_or_app. right. now left.
Qed.

Lemma service_label_truthy : forall lowerQ label,
  detectLabel lowerQ ecosystemServiceSynonyms = Some label ->
  truthy (Some label) = true.
Proof.
  intros lowerQ label H. destruct (detectLabel_in _ _ _ H) as [syns Hin].
  simpl in Hin.
  repeat (destruct Hin as [Heq | Hin]; [injection Heq as <- _; reflexivity|]).
  destruct Hin.
Qed.

(** ** The heuristic parser: the exclusivity patterns *)

Lemma dropPrefix_iff : forall p s rest,
  dropPrefix p s = Some rest <-> s = p ++ rest.
Proof.
  induction p as [|a p IH]; intros s rest; simpl.
  - split; congruence.
  - destruct s as [|b s]; [split; discriminate|].
    destruct (Ascii.eqb a b) eqn:Hab.
    + apply Ascii.eqb_eq in Hab. subst b. rewrite IH. split; congruence.
    + apply Ascii.eqb_neq in Hab. split; [discriminate | congruence].
Qed.

Lemma greedyLower_sound : forall after s w,
  greedyLower after s = Some w ->
  isToken w /\ exists post, s = w ++ after ++ post.
Proof.
  intros after. induction s as [|c s IH]; intros w; simpl; [discriminate|].
  destruct (isLowerAZ c) eqn:Hc; [|discriminate].
  destruct (greedyLower after s) as [w'|] eqn:Hrec.
  - intros H. injection H as <-. destruct (IH w' eq_refl) as [[_ Hw'] [post ->]].
    split; [split; [discriminate | simpl; now rewrite Hc]|].
    now exists post.
  - destruct (String.prefix after s) eqn:Hp; [|discriminate].
    intros H. injection H as <-. apply prefix_iff in Hp. destruct Hp as [post ->].
    split; [split; [discriminate | simpl; now rewrite Hc]|].
    now exists post.
Qed.

Lemma greedyLower_complete : forall after w post,
  isToken w -> exists w', greedyLower after (w ++ after ++ post) = Some w'.
Proof.
  intros after. induction w as [|c w IH]; intros post [Hne Hall]; [now elim Hne|].
  simpl in Hall. apply andb_true_iff in Hall. destruct Hall as [Hc Hall].
  simpl. rewrite Hc. destruct w as [|c' w].
  - simpl. destruct (greedyLower after (after ++ post)) as [w'|]; [now eexists|].
    rewrite (proj2 (prefix_iff after (after ++ post))); [now eexists | now exists post].
  - destruct (IH post) as [w' ->]; [split; [discriminate | exact Hall]|]. now eexists.
Qed.

Lemma matchHere_sound : forall p s w,
  matchHere p s = Some w ->
  isToken w /\ exists post, s = (patBefore p ++ w ++ patAfter p) ++ post.
Proof.
  intros p s w. unfold matchHere.
  destruct (dropPrefix (patBefore p) s) as [rest|] eqn:Hd; [|discriminate].
  apply dropPrefix_iff in Hd. intros H.
  destruct (greedyLower_sound _ _ _ H) as [Hw [post ->]].
  split; [exact Hw|]. exists post. subst s. now rewrite !append_assoc.
Qed.

Lemma matchHere_complete : forall p w post,
  isToken w ->
  exists w', matchHere p ((patBefore p ++ w ++ patAfter p) ++ post) = Some w'.
Proof.
  intros p w post Hw. unfold matchHere. rewrite !append_assoc.
  rewrite (proj2 (dropPrefix_iff (patBefore p) _ (w ++ patAfter p ++ post)) eq_refl).
  now apply greedyLower_complete.
Qed.

Lemma regexMatch_sound : forall p s w,
  regexMatch p s = Some w -> matchesPattern p s w.
Proof.
  intros p. induction s as [|c s IH]; intros w; simpl.
  - destruct (matchHere p "") as [w'|] eqn:Hm; [|discriminate].
    intros H. injection H as <-. destruct (matchHere_sound _ _ _ Hm) as [Hw [post Hs]].
    split; [exact Hw|]. now exists "", post.
  - destruct (matchHere p (String c s)) as [w'|] eqn:Hm.
    + intros H. injection H as <-. destruct (matchHere_sound _ _ _ Hm) as [Hw [post Hs]].
      split; [exact Hw|]. now exists "", post.
    + intros H. destruct (IH w H) as [Hw [pre [post ->]]].
      split; [exact Hw|]. now exists (String c pre), post.
Qed.

Lemma regexMatch_complete : forall p s w,
  matchesPattern p s w -> exists w', regexMatch p s = Some w'.
Proof.
  intros p s w [Hw [pre [post ->]]]. induction pre as [|c pre IH].
  - change ("" ++ (patBefore p ++ w ++ patAfter p) ++ post)
      with ((patBefore p ++ w ++ patAfter p) ++ post).
    destruct (matchHere_complete p w post Hw) as [w' Hm].
    exists w'. destruct ((patBefore p ++ w ++ patAfter p) ++ post); simpl; now rewrite Hm.
  - simpl. destruct (matchHere p _) as [w'|]; [now eexists | exact IH].
Qed.

Lemma regexMatch_None : forall p s,
  regexMatch p s = None <-> forall w, ~ matchesPattern p s w.
Proof.
  intros p s. split.
  - intros H w Hm. destruct (regexMatch_complete p s w Hm) as [w' Hw']. congruence.
  - intros H. destruct (regexMatch p s) as [w|] eqn:Hr; [|reflexivity].
    elim (H w). now apply regexMatch_sound.
Qed.

Lemma regexMatch_truthy : forall p s w,
  regexMatch p s = Some w -> truthy (Some w) = true.
Proof.
  intros p s w H. apply regexMatch_sound in H. destruct H as [[Hne _] _].
  now apply truthy_Some.
Qed.

Lemma firstOnlyMatch_cons : forall lowerQ p rest,
  firstOnlyMatch (p :: rest) lowerQ
  = match regexMatch p lowerQ with
    | Some m1 => if truthy (Some m1) then Some m1 else firstOnlyMatch rest lowerQ
    | None => firstOnlyMatch rest lowerQ
    end.
Proof. reflexivity. Qed.

Lemma firstOnlyMatch_first : forall lowerQ pre p post w,
  (forall p', In p' pre -> regexMatch p' lowerQ = None) ->
  regexMatch p lowerQ = Some w ->
  firstOnlyMatch (pre ++ p :: post)%list lowerQ = Some w.
Proof.
  intros lowerQ pre p post w. induction pre as [|p0 pre IH]; intros Hpre Hp;
    simpl app; rewrite firstOnlyMatch_cons.
  - now rewrite Hp, (regexMatch_truthy _ _ _ Hp).
  - rewrite (Hpre p0 (or_introl eq_refl)). apply IH; [|exact Hp].
    intros p' Hin. apply Hpre. now right.
Qed.

Lemma firstOnlyMatch_None : forall lowerQ patterns,
  firstOnlyMatch patterns lowerQ = None
  <-> forall p w, In p patterns -> ~ matchesPattern p lowerQ w.
Proof.
  intros lowerQ. induction patterns as [|p0 patterns IH].
  - split; [intros _ p w [] | reflexivity].
  - rewrite firstOnlyMatch_cons. destruct (regexMatch p0 lowerQ) as [w0|] eqn:Hr.
    + rewrite (regexMatch_truthy _ _ _ Hr). split; [discriminate|].
      intros H. elim (H p0 w0 (or_introl eq_refl)). now apply regexMatch_sound.
    + rewrite IH. split.
      * intros H p w [<- | Hin]; [now apply regexMatch_None | now apply H].
      * intros H p w Hin. apply H. now right.
Qed.

Lemma detectLabel_None : forall lowerQ dict,
  detectLabel lowerQ dict = None
  <-> forall entry syn, In entry dict -> In syn (snd entry) -> ~ occursIn syn lowerQ.
Proof.
  intros lowerQ. induction dict as [|[l s] dict IH]; simpl.
  - split; [intros _ entry syn [] | reflexivity].
  - destruct (existsb (fun syn => includes lowerQ syn) s) eqn:Hs.
    + split; [discriminate|]. intros H. apply someSynonym_iff in Hs.
      destruct Hs as [syn [Hin Hocc]]. elim (H (l, s) syn (or_introl eq_refl) Hin Hocc).
    + rewrite IH. split.
      * intros H entry syn [<- | Hin] Hsyn.
        -- now apply (proj1 (someSynonym_false lowerQ s) Hs).
        -- now apply (H entry).
      * intros H entry syn Hin. apply H. now right.
Qed.

(** The parser, with its four steps read off. *)
Lemma heuristicParse_eq : forall question,
  let lowerQ := toLowerCase question in
  let svc := detectLabel lowerQ ecosystemServiceSynonyms in
  let part := match svc with
              | Some _ => None
              | None => detectLabel lowerQ partUsedSynonyms
              end in
  heuristicParse question
  = match firstOnlyMatch onlyPartsUsedPatterns lowerQ with
    | Some m1 =>
        mkExtracted
          (mkQuery None svc
                   (Some match normalizedPart m1 with
                         | Some entry => fst entry
                         | None => m1
                         end))
          (Some true) None false
    | None => mkExtracted (mkQuery None svc part) None None false
    end.
Proof.
  intros question lowerQ svc part. unfold heuristicParse. fold lowerQ.
  subst part. subst svc.
  destruct (detectLabel lowerQ ecosystemServiceSynonyms) as [label|] eqn:Hsvc.
  - pose proof (service_label_truthy _ _ Hsvc) as Ht.
    cbn [species ecosystemService partUsed initialQuery]. rewrite Ht.
    cbn [negb species ecosystemService partUsed].
    destruct (existsb (fun syn => includes lowerQ syn) speciesSynonyms);
      cbn [species ecosystemService partUsed];
      destruct (firstOnlyMatch onlyPartsUsedPatterns lowerQ); reflexivity.
  - cbn [species ecosystemService partUsed initialQuery truthy negb].
    destruct (detectLabel lowerQ partUsedSynonyms);
      cbn [species ecosystemService partUsed];
      destruct (existsb (fun syn => includes lowerQ syn) speciesSynonyms);
      cbn [species ecosystemService partUsed];
      destruct (firstOnlyMatch onlyPartsUsedPatterns lowerQ); reflexivity.
Qed.

Lemma existsb_lower_synonyms : forall m synonyms,
  (forall syn, In syn synonyms -> toLowerCase syn = syn) ->
  existsb (fun syn => toLowerCase syn =? m) synonyms
  = existsb (fun syn => syn =? m) synonyms.
Proof.
  intros m. induction synonyms as [|syn synonyms IH]; intros H; simpl; [reflexivity|].
  rewrite (H syn (or_introl eq_refl)), IH; [reflexivity|].
  intros syn' Hin. apply H. now right.
Qed.

(** On a table whose synonyms are written in lower case, the [find] of
    step 4 picks the entry the normaliser's loop picks. *)
Lemma find_agrees_with_normalizeLoop : forall (T : Dict) m,
  (forall entry syn, In entry T -> In syn (snd entry) -> toLowerCase syn = syn) ->
  option_map fst
    (find (fun entry : string * list string =>
             let (canonical, synonyms) := entry in
             (toLowerCase canonical =? m) || existsb (fun syn => syn =? m) synonyms) T)
  = normalizeLoop m T.
Proof.
  intros T m. induction T as [|[c syns] T IH]; intros H; [reflexivity|].
  rewrite normalizeLoop_step. unfold entryMatches.
  rewrite (existsb_lower_synonyms m syns
             (fun syn Hin => H (c, syns) syn (or_introl eq_refl) Hin)).
  cbn [find]. destruct ((toLowerCase c =? m) || existsb (fun syn => syn =? m) syns).
  - reflexivity.
  - apply IH. intros entry syn Hin. apply H. now right.
Qed.

Lemma partUsedSynonyms_lower : forall entry syn,
  In entry partUsedSynonyms -> In syn (snd entry) -> toLowerCase syn = syn.
Proof.
  intros entry syn Hin Hsyn. simpl in Hin.
  repeat (destruct Hin as [<- | Hin];
          [simpl in Hsyn;
           repeat (destruct Hsyn as [<- | Hsyn]; [ascii_literals; reflexivity|]);
           destruct Hsyn|]).
  destruct Hin.
Qed.

Lemma normalizedPart_is_normalizeField : forall w,
  isToken w ->
  Some match normalizedPart w with
       | Some entry => fst entry
       | None => w
       end
  = normalizeField (Some w) partUsedSynonyms.
Proof.
  intros w [Hne Hall]. rewrite (normalizeField_nonempty w _ Hne).
  rewrite (trim_allLower w Hall), (toLowerCase_allLower w Hall).
  rewrite <- (find_agrees_with_normalizeLoop partUsedSynonyms w partUsedSynonyms_lower).
  unfold normalizedPart. now destruct (find _ partUsedSynonyms).
Qed.

(** C6, as the code has it.  The service table is scanned first and
    [ecosystemService] is the first canonical label, in table order, one of
    whose synonyms occurs in the lower-cased question; a question with a
    service synonym always has it set.  The part table is scanned only when
    no service matched.  Hence, for a question that none of the exclusivity
    patterns matches, a service match leaves [partUsed] null, and without a
    service match [partUsed] is the first part label found. *)
Theorem heuristic_service_before_part : forall question,
  let lowerQ := toLowerCase question in
  let query := exQuery (heuristicParse question) in
  (forall label, ecosystemService query = Some label
                 <-> firstLabelWith lowerQ ecosystemServiceSynonyms label)
  /\ ((exists entry syn, In entry ecosystemServiceSynonyms /\ In syn (snd entry)
                         /\ occursIn syn lowerQ) ->
      exists label, ecosystemService query = Some label)
  /\ (noOnlyPattern lowerQ ->
      (forall label, ecosystemService query = Some label -> partUsed query = None)
      /\ (ecosystemService query = None ->
          forall label, partUsed query = Some label
                        <-> firstLabelWith lowerQ partUsedSynonyms label)).
Proof.
  intros question lowerQ query. subst query.
  pose proof (heuristicParse_eq question) as Heq. cbv zeta in Heq. fold lowerQ in Heq.
  assert (Hsvc : ecosystemService (exQuery (heuristicParse question))
                 = detectLabel lowerQ ecosystemServiceSynonyms).
  { rewrite Heq. now destruct (firstOnlyMatch onlyPartsUsedPatterns lowerQ). }
  split; [|split].
  - intros label. rewrite Hsvc. apply detectLabel_iff.
  - intros [entry [syn [Hin [Hsyn Hocc]]]]. rewrite Hsvc.
    destruct (detectLabel lowerQ ecosystemServiceSynonyms) as [label|] eqn:Hd;
      [now exists label|].
    elim (proj1 (detectLabel_None _ _) Hd entry syn Hin Hsyn Hocc).
  - intros Hno. apply firstOnlyMatch_None in Hno. rewrite Hsvc.
    rewrite Heq, Hno. cbn [exQuery partUsed]. split.
    + intros label ->. reflexivity.
    + intros ->. intros label. apply detectLabel_iff.
Qed.

(** C7.  Whatever the table scans found, when a pattern matches the
    lower-cased question and none of the patterns before it does, [only]
    is true and [partUsed] is the captured token put through the
    normaliser: its canonical part label, or the token itself when the part
    vocabulary does not know it.  The patterns after it play no role. *)
Theorem heuristic_exclusivity_first_match : forall question pre p post w,
  onlyPartsUsedPatterns = (pre ++ p :: post)%list ->
  (forall p' w', In p' pre -> ~ matchesPattern p' (toLowerCase question) w') ->
  regexMatch p (toLowerCase question) = Some w ->
  exOnly (heuristicParse question) = Some true
  /\ partUsed (exQuery (heuristicParse question))
     = normalizeField (Some w) partUsedSynonyms
  /\ matchesPattern p (toLowerCase question) w.
Proof.
  intros question pre p post w Hpats Hpre Hp.
  pose proof (heuristicParse_eq question) as Heq. cbv zeta in Heq.
  assert (Hfirst : firstOnlyMatch onlyPartsUsedPatterns (toLowerCase question) = Some w).
  { rewrite Hpats. apply firstOnlyMatch_first; [|exact Hp].
    intros p' Hin. apply regexMatch_None. intros w'. now apply Hpre. }
  pose proof (regexMatch_sound _ _ _ Hp) as Hm.
  rewrite Heq, Hfirst. cbn [exOnly exQuery partUsed].
  split; [reflexivity|]. split; [|exact Hm].
  apply normalizedPart_is_normalizeField. exact (proj1 Hm).
Qed.

(** ** Queries that reach the filter *)

Lemma firstOnlyMatch_Some : forall lowerQ patterns w,
  firstOnlyMatch patterns lowerQ = Some w -> isToken w.
Proof.
  intros lowerQ. induction patterns as [|p patterns IH]; intros w; [discriminate|].
  rewrite firstOnlyMatch_cons. destruct (regexMatch p lowerQ) as [m1|] eqn:Hr; [|apply IH].
  rewrite (regexMatch_truthy _ _ _ Hr). intros H. injection H as <-.
  exact (proj1 (regexMatch_sound _ _ _ Hr)).
Qed.

Lemma normalizeField_not_empty : forall value (T : Dict),
  (forall entry, In entry T -> fst entry <> "") ->
  normalizeField value T <> Some "".
Proof.
  intros value T HT. destruct (truthy value) eqn:Hv.
  - destruct (truthy_true value Hv) as [v [-> Hne]].
    rewrite (normalizeField_nonempty v T Hne).
    destruct (normalizeLoop (toLowerCase (trim v)) T) as [c|] eqn:Hloop.
    + destruct (normalizeLoop_Some _ _ _ Hloop) as [syns [Hin _]].
      intros H. injection H as ->. exact (HT _ Hin eq_refl).
    + congruence.
  - rewrite (normalizeField_falsy value T Hv). discriminate.
Qed.

Lemma labels_not_empty :
  (forall entry, In entry ecosystemServiceSynonyms -> fst entry <> "")
  /\ (forall entry, In entry partUsedSynonyms -> fst entry <> "").
Proof.
  split; intros entry Hin; simpl in Hin;
    repeat (destruct Hin as [<- | Hin]; [discriminate|]); destruct Hin.
Qed.

Lemma detectLabel_not_empty : forall lowerQ (T : Dict),
  (forall entry, In entry T -> fst entry <> "") ->
  detectLabel lowerQ T <> Some "".
Proof.
  intros lowerQ T HT H. destruct (detectLabel_in _ _ _ H) as [syns Hin].
  exact (HT _ Hin eq_refl).
Qed.

(** Neither extraction path leaves an empty string in [ecosystemService]
    or [partUsed]: for these two fields non-null and truthy coincide. *)
Lemma extractQuery_fields : forall question llm,
  ecosystemService (exQuery (extractQuery question llm)) <> Some ""
  /\ partUsed (exQuery (extractQuery question llm)) <> Some "".
Proof.
  intros question [llmQuery|]; simpl extractQuery.
  - cbn [exQuery ecosystemService partUsed].
    split; apply normalizeField_not_empty; apply labels_not_empty.
  - pose proof (heuristicParse_eq question) as Heq. cbv zeta in Heq. rewrite Heq.
    destruct (firstOnlyMatch onlyPartsUsedPatterns (toLowerCase question)) as [m1|] eqn:Hm;
      cbn [exQuery ecosystemService partUsed].
    + split; [apply detectLabel_not_empty, labels_not_empty|].
      rewrite (normalizedPart_is_normalizeField m1 (firstOnlyMatch_Some _ _ _ Hm)).
      apply normalizeField_not_empty, labels_not_empty.
    + split; [apply detectLabel_not_empty, labels_not_empty|].
      destruct (detectLabel (toLowerCase question) ecosystemServiceSynonyms);
        [discriminate | apply detectLabel_not_empty, labels_not_empty].
Qed.

(** ** The filter combinator *)

Lemma soleValueIs_iff : forall arr q, soleValueIs arr q = true <-> soleValue arr q.
Proof.
  intros arr q. unfold soleValueIs, soleValue.
  rewrite andb_true_iff, Nat.eqb_eq. split.
  - intros [Hlen Heq]. destruct arr as [|x [|y arr]]; try discriminate.
    exists x. split; [reflexivity | now apply String.eqb_eq].
  - intros [x [-> Heq]]. split; [reflexivity | now apply String.eqb_eq].
Qed.

Lemma someIncludes_iff : forall arr q, someIncludes arr q = true <-> someContains arr q.
Proof.
  intros arr q. unfold someIncludes, someContains. rewrite existsb_exists.
  split; intros [s [Hin H]]; exists s; (split; [exact Hin | now apply includes_iff]).
Qed.

Lemma onlyCallback_iff : forall query item,
  ecosystemService query <> Some "" -> partUsed query <> Some "" ->
  onlyCallback query item = true <-> onlySpec query item.
Proof.
  intros [sp es pu] item Hes Hpu. unfold onlyCallback, onlySpec.
  cbn [species ecosystemService partUsed] in *.
  destruct es as [es|]; destruct pu as [pu|];
    repeat match goal with
           | H : Some ?v <> Some "" |- _ =>
               rewrite (proj2 (truthy_Some v)) by congruence; clear H
           end;
    rewrite ?andb_true_l, ?andb_true_iff, ?soleValueIs_iff.
  - split.
    + intros [H1 H2]. split; intros q Hq; injection Hq as <-; assumption.
    + intros [H1 H2]. split; [now apply H1 | now apply H2].
  - split.
    + intros H1. split; intros q Hq; [injection Hq as <-; assumption | discriminate].
    + intros [H1 _]. now apply H1.
  - split.
    + intros H2. split; intros q Hq; [discriminate | injection Hq as <-; assumption].
    + intros [_ H2]. now apply H2.
  - split; [|reflexivity]. intros _. split; intros q Hq; discriminate.
Qed.

Lemma fieldMatch_iff : forall (v : option string) (b : string -> bool) (P : string -> Prop),
  (forall q, b q = true <-> P q) ->
  (v = Some "" -> P "") ->
  match v with
  | Some q => negb (truthy (Some q)) || b q
  | None => true
  end = true
  <-> (forall q, v = Some q -> P q).
Proof.
  intros v b P Hb Hempty. destruct v as [q|].
  - rewrite orb_true_iff, Hb. split.
    + intros [Hf | HP] q' Hq'; injection Hq' as <-; [|exact HP].
      destruct q; [now apply Hempty | discriminate].
    + intros H. right. now apply H.
  - split; [intros _ q Hq; discriminate | reflexivity].
Qed.

Lemma defaultCallback_iff : forall query item,
  ecosystemService query <> Some "" -> partUsed query <> Some "" ->
  defaultCallback query item = true <-> defaultSpec query item.
Proof.
  intros query item Hes Hpu. unfold defaultCallback, defaultSpec. cbv zeta.
  rewrite !andb_true_iff.
  rewrite (fieldMatch_iff (species query)
             (fun q => includes (toLowerCase (Species item)) (toLowerCase q))
             (fun q => occursIn (toLowerCase q) (toLowerCase (Species item)))).
  2: { intros q. apply includes_iff. }
  2: { intros _. rewrite toLowerCase_empty. apply occursIn_empty. }
  rewrite (fieldMatch_iff (ecosystemService query)
             (fun q => someIncludes (EcosystemService item) q)
             (fun q => someContains (EcosystemService item) q)).
  2: { intros q. apply someIncludes_iff. }
  2: { intros H. contradiction. }
  rewrite (fieldMatch_iff (partUsed query)
             (fun q => someIncludes (PartsUsed item) q)
             (fun q => someContains (PartsUsed item) q)).
  2: { intros q. apply someIncludes_iff. }
  2: { intros H. contradiction. }
  tauto.
Qed.

Lemma filter_all : forall (A : Type) (p : A -> bool) (l : list A),
  (forall a, In a l -> p a = true) -> filter p l = l.
Proof.
  intros A p. induction l as [|a l IH]; intros H; simpl; [reflexivity|].
  rewrite (H a (or_introl eq_refl)), IH; [reflexivity|].
  intros b Hb. apply H. now right.
Qed.

Lemma filter_filter : forall (A : Type) (p q : A -> bool) (l : list A),
  filter q (filter p l) = filter (fun a => p a && q a) l.
Proof.
  intros A p q. induction l as [|a l IH]; simpl; [reflexivity|].
  destruct (p a); simpl; [destruct (q a)|]; now rewrite IH.
Qed.

Lemma filterWhenSet_filter : forall v p filtered,
  filterWhenSet v p filtered
  = filter (fun item => match v with
                        | Some q => negb (truthy (Some q)) || p q item
                        | None => true
                        end) filtered.
Proof.
  intros v p filtered. unfold filterWhenSet. destruct v as [q|].
  - destruct (truthy (Some q)); simpl; [reflexivity|].
    symmetry. now apply filter_all.
  - symmetry. now apply filter_all.
Qed.

Lemma onlyAgain_redundant : forall query only dataWithEmbeddings,
  onlyAgain query only (filter (onlyCallback query) dataWithEmbeddings)
  = filter (onlyCallback query) dataWithEmbeddings.
Proof.
  intros [sp es pu] only data. unfold onlyAgain.
  destruct (truthyb only); [|reflexivity].
  rewrite !filterWhenSet_filter, !filter_filter. apply filter_ext.
  intros item. unfold onlyCallback. cbn [species ecosystemService partUsed].
  destruct es as [es|]; destruct pu as [pu|];
    repeat match goal with
           | |- context [truthy (Some ?v)] => destruct (truthy (Some v))
           end; simpl;
    repeat match goal with
           | |- context [soleValueIs ?a ?b] => destruct (soleValueIs a b)
           end; reflexivity.
Qed.

(** C3.  When [only] is truthy the primary branch filters the catalog as
    loaded, in catalog order, not the ranked copy; an entry is kept exactly
    when each of [ecosystemService] and [partUsed] that is non-null in the
    query finds the entry's array of length 1 with that value as its sole
    element, compared case-insensitively; with neither field set every
    entry is kept.  The second pass of lines 318-334 changes nothing. *)
Theorem only_branch_filters_catalog :
  forall question llm (dataWithEmbeddings scored : list ScoredTreeSpecies),
  truthyb (exOnly (extractQuery question llm)) = true ->
  let query := exQuery (extractQuery question llm) in
  let only := exOnly (extractQuery question llm) in
  primaryBranch query only dataWithEmbeddings scored
  = filter (onlyCallback query) dataWithEmbeddings
  /\ (forall item, onlyCallback query item = true <-> onlySpec query item)
  /\ (forall item, In item (primaryBranch query only dataWithEmbeddings scored)
                   <-> In item dataWithEmbeddings /\ onlySpec query item)
  /\ onlyAgain query only (primaryBranch query only dataWithEmbeddings scored)
     = primaryBranch query only dataWithEmbeddings scored
  /\ (ecosystemService query = None -> partUsed query = None ->
      primaryBranch query only dataWithEmbeddings scored = dataWithEmbeddings).
Proof.
  intros question llm data scored Honly query only. subst query only.
  destruct (extractQuery_fields question llm) as [Hes Hpu].
  set (x := extractQuery question llm) in *.
  assert (Hprim : primaryBranch (exQuery x) (exOnly x) data scored
                  = filter (onlyCallback (exQuery x)) data).
  { unfold primaryBranch. now rewrite Honly. }
  assert (Hiff : forall item, onlyCallback (exQuery x) item = true
                              <-> onlySpec (exQuery x) item).
  { intros item. now apply onlyCallback_iff. }
  rewrite Hprim. split; [reflexivity|]. split; [exact Hiff|]. split; [|split].
  - intros item. rewrite filter_In, Hiff. tauto.
  - apply onlyAgain_redundant.
  - intros Hes' Hpu'. apply filter_all. intros item _. apply Hiff.
    split; intros q Hq; congruence.
Qed.

(** C4.  When [only] is falsy the primary branch filters the ranked
    catalog and keeps its order; an entry is kept exactly when each filter
    that is non-null in the query occurs, case-insensitively, as a
    substring of the species name, of some service, of some part.  A query
    with every field null and no modifier returns the whole ranked
    catalog. *)
Theorem default_branch_filters_ranked :
  forall question llm questionEmbedding (dataWithEmbeddings : list ScoredTreeSpecies),
  truthyb (exOnly (extractQuery question llm)) = false ->
  let x := extractQuery question llm in
  let query := exQuery x in
  let scored := rankCatalog questionEmbedding dataWithEmbeddings in
  primaryBranch query (exOnly x) dataWithEmbeddings scored
  = filter (defaultCallback query) scored
  /\ (forall item, defaultCallback query item = true <-> defaultSpec query item)
  /\ (forall item, In item (primaryBranch query (exOnly x) dataWithEmbeddings scored)
                   <-> In item scored /\ defaultSpec query item)
  /\ onlyAgain query (exOnly x) (primaryBranch query (exOnly x) dataWithEmbeddings scored)
     = primaryBranch query (exOnly x) dataWithEmbeddings scored
  /\ (species query = None -> ecosystemService query = None -> partUsed query = None ->
      exAnd x = None ->
      filterCatalog x dataWithEmbeddings scored = scored).
Proof.
  intros question llm qe data Honly x query scored. subst query.
  destruct (extractQuery_fields question llm) as [Hes Hpu]. fold x in Hes, Hpu.
  fold x in Honly.
  assert (Hprim : primaryBranch (exQuery x) (exOnly x) data scored
                  = filter (defaultCallback (exQuery x)) scored).
  { unfold primaryBranch. now rewrite Honly. }
  assert (Hiff : forall item, defaultCallback (exQuery x) item = true
                              <-> defaultSpec (exQuery x) item).
  { intros item. now apply defaultCallback_iff. }
  assert (Hagain : forall l, onlyAgain (exQuery x) (exOnly x) l = l).
  { intros l. unfold onlyAgain. now rewrite Honly. }
  split; [exact Hprim|]. split; [exact Hiff|]. split; [|split].
  - intros item. rewrite Hprim, filter_In, Hiff. tauto.
  - apply Hagain.
  - intros Hsp Hes' Hpu' Hand. unfold filterCatalog. rewrite Hand, Hagain, Hprim.
    cbn [andFilters]. apply filter_all. intros item _. apply Hiff.
    repeat split; intros q Hq; congruence.
Qed.

Lemma andFilters_filter : forall and_ filtered,
  andFilters and_ filtered
  = filter (fun item =>
              match and_ with
              | Some clause =>
                  match andEcosystemService clause with
                  | Some q => negb (truthy (Some q)) || someIncludes (EcosystemService item) q
                  | None => true
                  end
                  && match andPartUsed clause with
                     | Some q => negb (truthy (Some q)) || someIncludes (PartsUsed item) q
                     | None => true
                     end
              | None => true
              end) filtered.
Proof.
  intros [clause|] filtered; unfold andFilters.
  - now rewrite !filterWhenSet_filter, filter_filter.
  - symmetry. now apply filter_all.
Qed.

Lemma andField_iff : forall (v : option string) (arr : list string),
  match v with
  | Some q => negb (truthy (Some q)) || someIncludes arr q
  | None => true
  end = true
  <-> (forall q, v = Some q -> q <> "" -> someContains arr q).
Proof.
  intros v arr. destruct v as [q|].
  - rewrite orb_true_iff, someIncludes_iff. split.
    + intros [Hf | Hs] q' Hq' Hne; injection Hq' as <-; [|exact Hs].
      apply truthy_Some in Hne. rewrite Hne in Hf. discriminate.
    + intros H. destruct q as [|c q]; [now left|]. right. apply H; [reflexivity | discriminate].
  - split; [intros _ q Hq; discriminate | reflexivity].
Qed.

(** C5.  The 'and' values are taken from the completion service's answer
    as they are.  After the primary branch (and its second pass), whichever
    it was, each value that is present filters the current set by
    case-insensitive substring membership: the final set is the set of the
    primary branch intersected with the 'and' predicates, in the same
    order. *)
Theorem and_filters_intersect :
  forall (x : Extracted) (dataWithEmbeddings scored : list ScoredTreeSpecies),
  let primary :=
    onlyAgain (exQuery x) (exOnly x)
      (primaryBranch (exQuery x) (exOnly x) dataWithEmbeddings scored) in
  (forall item, In item (filterCatalog x dataWithEmbeddings scored)
                <-> In item primary /\ andSpec (exAnd x) item)
  /\ (exists keep, filterCatalog x dataWithEmbeddings scored = filter keep primary)
  /\ (forall question llmQuery,
        exAnd (extractQuery question (Some llmQuery)) = llmAnd llmQuery).
Proof.
  intros x data scored primary. unfold filterCatalog. fold primary.
  rewrite andFilters_filter. split; [|split].
  - intros item. rewrite filter_In.
    assert (Hiff : match exAnd x with
                   | Some clause =>
                       match andEcosystemService clause with
                       | Some q => negb (truthy (Some q))
                                   || someIncludes (EcosystemService item) q
                       | None => true
                       end
                       && match andPartUsed clause with
                          | Some q => negb (truthy (Some q))
                                      || someIncludes (PartsUsed item) q
                          | None => true
                          end
                   | None => true
                   end = true <-> andSpec (exAnd x) item).
    { unfold andSpec. destruct (exAnd x) as [clause|].
      - rewrite andb_true_iff, !andField_iff. split.
        + intros H clause' Hc. injection Hc as <-. exact H.
        + intros H. now apply H.
      - split; [intros _ clause Hc; discriminate | reflexivity]. }
    now rewrite Hiff.
  - eexists. reflexivity.
  - reflexivity.
Qed.

(** ** Ranking *)

Lemma insertSorted_perm : forall x l, Permutation (insertSorted x l) (x :: l).
Proof.
  intros x. induction l as [|y l IH]; simpl; [apply Permutation_refl|].
  destruct (sortsAfter x y); [|apply Permutation_refl].
  apply Permutation_trans with (y :: x :: l); [now apply perm_skip | apply perm_swap].
Qed.

Lemma sortBySimilarity_perm : forall l, Permutation (sortBySimilarity l) l.
Proof.
  induction l as [|x l IH]; simpl; [apply perm_nil|].
  apply Permutation_trans with (x :: sortBySimilarity l);
    [apply insertSorted_perm | now apply perm_skip].
Qed.

Lemma rankCatalog_In : forall questionEmbedding dataWithEmbeddings item,
  In item (rankCatalog questionEmbedding dataWithEmbeddings)
  <-> exists entry, In entry dataWithEmbeddings /\ item = score questionEmbedding entry.
Proof.
  intros qe data item. unfold rankCatalog. split.
  - intros H. apply (Permutation_in _ (sortBySimilarity_perm _)) in H.
    apply in_map_iff in H. destruct H as [entry [Heq Hin]]. now exists entry.
  - intros [entry [Hin ->]].
    apply (Permutation_in _ (Permutation_sym (sortBySimilarity_perm _))).
    now apply in_map.
Qed.

(** ** The handler *)

Lemma withImages_run : forall w filtered log,
  withImages w filtered log
  = (inr (map (fun item => mkResult item (fetchGbifImages w (Species item))) filtered),
     (log ++ imageLookups filtered)%list).
Proof.
  intros w. induction filtered as [|item rest IH]; intros log.
  - simpl. unfold ret. now rewrite app_nil_r.
  - simpl. unfold bind, calling. rewrite IH. unfold ret.
    now rewrite <- app_assoc.
Qed.

(** A request that gets its embedding and its catalog. *)
Lemma POST_success : forall w question questionEmbedding dataWithEmbeddings,
  question <> "" ->
  embeddingOf w question = Some questionEmbedding ->
  fetchPublicJson w "data_with_embeddings.json" = inr dataWithEmbeddings ->
  let filtered :=
    filterCatalog (extractQuery question (completion w question)) dataWithEmbeddings
                  (rankCatalog questionEmbedding dataWithEmbeddings) in
  POST w (Some question)
  = (if isCountQuery question then JsonCount (List.length filtered)
     else JsonResults
            (map (fun item => mkResult item (fetchGbifImages w (Species item))) filtered),
     ([CompletionCall question; EmbeddingCall question;
       CatalogFetch "data_with_embeddings.json"] ++ imageLookups filtered)%list).
Proof.
  intros w question qe data Hq Hemb Hfetch filtered.
  unfold POST, handle. rewrite (proj2 (truthy_Some question) Hq).
  cbn [negb]. unfold bind, calling. cbn [app]. rewrite Hemb, Hfetch.
  rewrite withImages_run. fold filtered.
  destruct (isCountQuery question); reflexivity.
Qed.

Lemma isCountQuery_nonempty : forall question,
  isCountQuery question = true -> question <> "".
Proof. intros question H ->. discriminate. Qed.

Lemma imageLookups_count : forall calls filtered,
  forallb (fun c => negb (isImageLookup c)) calls = true ->
  List.length (filter isImageLookup (calls ++ imageLookups filtered)%list)
  = List.length filtered.
Proof.
  intros calls filtered Hcalls. rewrite filter_app, length_app.
  replace (filter isImageLookup calls) with (@nil Call).
  - simpl. unfold imageLookups. rewrite filter_all.
    + apply length_map.
    + intros c Hc. apply in_map_iff in Hc. destruct Hc as [item [<- _]]. reflexivity.
  - symmetry. induction calls as [|c calls IH]; [reflexivity|].
    simpl in *. apply andb_true_iff in Hcalls. destruct Hcalls as [Hc Hrest].
    destruct (isImageLookup c); [discriminate | now apply IH].
Qed.

(** C1, as the code has it.  A count question whose embedding and catalog
    are obtained is answered with the cardinality of the final filtered set
    alone; the images do not appear in the response.  The image lookup has
    nevertheless run by then, once for each entry of the filtered set, in
    order, after the three other calls. *)
Theorem count_query_answer :
  forall w question questionEmbedding dataWithEmbeddings,
  isCountQuery question = true ->
  embeddingOf w question = Some questionEmbedding ->
  fetchPublicJson w "data_with_embeddings.json" = inr dataWithEmbeddings ->
  let filtered :=
    filterCatalog (extractQuery question (completion w question)) dataWithEmbeddings
                  (rankCatalog questionEmbedding dataWithEmbeddings) in
  fst (POST w (Some question)) = JsonCount (List.length filtered)
  /\ snd (POST w (Some question))
     = ([CompletionCall question; EmbeddingCall question;
         CatalogFetch "data_with_embeddings.json"] ++ imageLookups filtered)%list
  /\ List.length (filter isImageLookup (snd (POST w (Some question))))
     = List.length filtered.
Proof.
  intros w question qe data Hcount Hemb Hfetch filtered.
  pose proof (POST_success w question qe data
                (isCountQuery_nonempty question Hcount) Hemb Hfetch) as H.
  cbv zeta in H. fold filtered in H. rewrite H, Hcount. cbn [fst snd].
  split; [reflexivity|]. split; [reflexivity|].
  now apply imageLookups_count.
Qed.

Lemma filterWhenSet_In : forall v p filtered item,
  In item (filterWhenSet v p filtered) -> In item filtered.
Proof.
  intros v p filtered item. rewrite filterWhenSet_filter, filter_In. tauto.
Qed.

Lemma filterCatalog_source : forall x dataWithEmbeddings scored item,
  In item (filterCatalog x dataWithEmbeddings scored) ->
  In item (if truthyb (exOnly x) then dataWithEmbeddings else scored).
Proof.
  intros x data scored item H. unfold filterCatalog in H.
  assert (Hprim : In item (primaryBranch (exQuery x) (exOnly x) data scored)).
  { unfold andFilters in H. destruct (exAnd x) as [clause|].
    - apply filterWhenSet_In in H. apply filterWhenSet_In in H.
      unfold onlyAgain in H. destruct (truthyb (exOnly x)); [|exact H].
      apply filterWhenSet_In in H. now apply filterWhenSet_In in H.
    - unfold onlyAgain in H. destruct (truthyb (exOnly x)); [|exact H].
      apply filterWhenSet_In in H. now apply filterWhenSet_In in H. }
  unfold primaryBranch in Hprim.
  destruct (truthyb (exOnly x)); apply filter_In in Hprim; apply Hprim.
Qed.

(** C2, as the code has it.  In a response with results, each element is
    a surviving entry with its images.  On the default branch that entry is
    a catalog entry annotated with the cosine similarity of its embedding
    to this request's question embedding.  On the exclusivity branch it is
    the catalog entry as loaded: nothing is annotated. *)
Theorem results_similarity_by_branch :
  forall w question questionEmbedding dataWithEmbeddings results,
  embeddingOf w question = Some questionEmbedding ->
  fetchPublicJson w "data_with_embeddings.json" = inr dataWithEmbeddings ->
  fst (POST w (Some question)) = JsonResults results ->
  let x := extractQuery question (completion w question) in
  (forall r, In r results -> images r = fetchGbifImages w (Species (resultItem r)))
  /\ (truthyb (exOnly x) = false ->
      forall r, In r results ->
        exists entry, In entry dataWithEmbeddings
                      /\ resultItem r = score questionEmbedding entry
                      /\ similarity (resultItem r)
                         = Some (cosineSimilarity questionEmbedding (embedding entry)))
  /\ (truthyb (exOnly x) = true ->
      forall r, In r results -> In (resultItem r) dataWithEmbeddings).
Proof.
  intros w question qe data results Hemb Hfetch Hres x.
  assert (Hq : question <> "").
  { intros ->. discriminate Hres. }
  pose proof (POST_success w question qe data Hq Hemb Hfetch) as H.
  cbv zeta in H. fold x in H. rewrite H in Hres. cbn [fst] in Hres.
  destruct (isCountQuery question); [discriminate|].
  injection Hres as <-.
  split; [|split].
  - intros r Hr. apply in_map_iff in Hr. destruct Hr as [item [<- _]]. reflexivity.
  - intros Honly r Hr. apply in_map_iff in Hr. destruct Hr as [item [<- Hin]].
    apply filterCatalog_source in Hin. rewrite Honly in Hin.
    apply rankCatalog_In in Hin. destruct Hin as [entry [Hentry ->]].
    exists entry. cbn [resultItem]. repeat split. exact Hentry.
  - intros Honly r Hr. apply in_map_iff in Hr. destruct Hr as [item [<- Hin]].
    apply filterCatalog_source in Hin. now rewrite Honly in Hin.
Qed.

End Verification.

(** ** Cosine similarity in binary64 arithmetic *)

Module FloatFacts.

Local Open Scope float_scope.

Lemma float_cases : forall x : float, x = SF2Prim (Prim2SF x).
Proof. intros x. symmetry. apply SF2Prim_Prim2SF. Qed.

Ltac by_float_cases x :=
  destruct (Prim2SF x) as [[|] | [|] | | [|] ? ?]; vm_compute; auto; try discriminate.

Lemma isZero_cases : forall x, isZero x = true -> x = 0 \/ x = -0.
Proof.
  intros x. unfold isZero. rewrite eqb_spec. rewrite (float_cases x) at 2 3.
  by_float_cases x.
Qed.

Lemma mul_zero_l : forall z x, z = 0 \/ z = -0 -> zeroOrNaN (z * x).
Proof.
  intros z x Hz. unfold zeroOrNaN. rewrite (float_cases (z * x)), mul_spec.
  destruct Hz as [-> | ->]; by_float_cases x.
Qed.

Lemma mul_zero_r : forall z x, z = 0 \/ z = -0 -> zeroOrNaN (x * z).
Proof.
  intros z x Hz. unfold zeroOrNaN. rewrite (float_cases (x * z)), mul_spec.
  destruct Hz as [-> | ->]; by_float_cases x.
Qed.

Lemma mul_nan_r : forall x, x * nan = nan.
Proof. intros x. rewrite (float_cases (x * nan)), mul_spec. by_float_cases x. Qed.

Lemma sub_nan_r : forall x, x - nan = nan.
Proof. intros x. rewrite (float_cases (x - nan)), sub_spec. by_float_cases x. Qed.

Lemma sub_nan_l : forall x, nan - x = nan.
Proof. intros x. rewrite (float_cases (nan - x)), sub_spec. by_float_cases x. Qed.

Lemma add_zeroOrNaN : forall s t, zeroOrNaN s -> zeroOrNaN t -> zeroOrNaN (s + t).
Proof.
  intros s t [-> | [-> | ->]] [-> | [-> | ->]]; vm_compute; auto.
Qed.

Lemma div_zeroOrNaN : forall n d, zeroOrNaN n -> zeroOrNaN d -> n / d = nan.
Proof.
  intros n d [-> | [-> | ->]] [-> | [-> | ->]]; vm_compute; reflexivity.
Qed.

Lemma square_of_zero : forall z, z = 0 \/ z = -0 -> 0 + z * z = 0.
Proof. intros z [-> | ->]; vm_compute; reflexivity. Qed.

End FloatFacts.

Import FloatFacts.

Lemma at_index_zero : forall b i,
  forallb isZero b = true -> zeroOrNaN (at_index b i).
Proof.
  unfold at_index. induction b as [|x b IH]; intros i Hb.
  - destruct i; right; right; reflexivity.
  - simpl in Hb. apply andb_true_iff in Hb. destruct Hb as [Hx Hb].
    destruct i as [|i]; simpl.
    + destruct (isZero_cases x Hx) as [-> | ->]; [now left | now right; left].
    + now apply IH.
Qed.

Lemma dotProduct_zero_l : forall a b i acc,
  forallb isZero a = true -> zeroOrNaN acc ->
  zeroOrNaN (reduceFrom (fun sum ai k => (sum + ai * at_index b k)%float) a i acc).
Proof.
  induction a as [|x a IH]; intros b i acc Ha Hacc; simpl; [exact Hacc|].
  simpl in Ha. apply andb_true_iff in Ha. destruct Ha as [Hx Ha].
  apply IH; [exact Ha|]. apply add_zeroOrNaN; [exact Hacc|].
  apply mul_zero_l. now apply isZero_cases.
Qed.

Lemma dotProduct_zero_r : forall a b i acc,
  forallb isZero b = true -> zeroOrNaN acc ->
  zeroOrNaN (reduceFrom (fun sum ai k => (sum + ai * at_index b k)%float) a i acc).
Proof.
  induction a as [|x a IH]; intros b i acc Hb Hacc; simpl; [exact Hacc|].
  apply IH; [exact Hb|]. apply add_zeroOrNaN; [exact Hacc|].
  destruct (at_index_zero b i Hb) as [-> | [-> | ->]].
  - apply mul_zero_r. now left.
  - apply mul_zero_r. now right.
  - rewrite mul_nan_r. right; right; reflexivity.
Qed.

Lemma sumSquares_zero : forall a i,
  forallb isZero a = true ->
  reduceFrom (fun sum ai _ => (sum + ai * ai)%float) a i 0%float = 0%float.
Proof.
  induction a as [|x a IH]; intros i Ha; simpl; [reflexivity|].
  simpl in Ha. apply andb_true_iff in Ha. destruct Ha as [Hx Ha].
  rewrite (square_of_zero x (isZero_cases x Hx)). now apply IH.
Qed.

Lemma norm_zero : forall a, forallb isZero a = true -> norm a = 0%float.
Proof. intros a Ha. unfold norm. now rewrite sumSquares_zero. Qed.

Lemma cosineSimilarity_zero_vector : forall a b,
  forallb isZero a = true \/ forallb isZero b = true ->
  cosineSimilarity a b = PrimFloat.nan.
Proof.
  intros a b H. unfold cosineSimilarity. cbv zeta. apply div_zeroOrNaN.
  - unfold dotProduct. destruct H as [Ha | Hb].
    + apply dotProduct_zero_l; [exact Ha | now left].
    + apply dotProduct_zero_r; [exact Hb | now left].
  - destruct H as [Ha | Hb].
    + rewrite (norm_zero a Ha). apply mul_zero_l. now left.
    + rewrite (norm_zero b Hb). apply mul_zero_r. now left.
Qed.

Lemma comparator_nan : forall e other,
  similarityOf e = PrimFloat.nan ->
  comparator e other = PrimFloat.nan /\ comparator other e = PrimFloat.nan
  /\ sortsAfter e other = false /\ sortsAfter other e = false.
Proof.
  intros e other He. unfold sortsAfter, comparator. rewrite He.
  rewrite sub_nan_r, sub_nan_l. repeat split.
Qed.

(** C10, as the code has it.  The quotient is taken without a guard.
    When the question's embedding or an entry's embedding consists of zeros
    only, and whatever the lengths, the similarity is NaN; the entry is
    stored in the scored catalog with that NaN and takes part in the sort;
    against any other entry the comparator then yields NaN in either
    order, so the sort is told of neither entry that it goes after the
    other.  For vectors of equal length whose computed norms are not zero
    the result is not confined to the interval from -1 to 1: there are
    such vectors with a result above 1, by rounding (1.0000000000000002)
    and by underflow of a square (1.21875), and such vectors with the
    result NaN, by overflow of the squares. *)
Theorem zero_vector_similarity_is_nan :
  (forall questionEmbedding (dataWithEmbeddings : list ScoredTreeSpecies) entry,
     In entry dataWithEmbeddings ->
     forallb isZero questionEmbedding = true \/ forallb isZero (embedding entry) = true ->
     cosineSimilarity questionEmbedding (embedding entry) = PrimFloat.nan
     /\ similarity (score questionEmbedding entry) = Some PrimFloat.nan
     /\ In (score questionEmbedding entry)
           (rankCatalog questionEmbedding dataWithEmbeddings)
     /\ (forall other,
           comparator (score questionEmbedding entry) other = PrimFloat.nan
           /\ comparator other (score questionEmbedding entry) = PrimFloat.nan
           /\ sortsAfter (score questionEmbedding entry) other = false
           /\ sortsAfter other (score questionEmbedding entry) = false))
  /\ (exists a b,
        List.length a = List.length b
        /\ isZero (norm a) = false /\ isZero (norm b) = false
        /\ isNaN (cosineSimilarity a b) = false
        /\ PrimFloat.ltb 1 (cosineSimilarity a b) = true
        /\ cosineSimilarity a b = 0x1.0000000000001p+0%float)
  /\ (exists a b,
        List.length a = List.length b
        /\ isZero (norm a) = false /\ isZero (norm b) = false
        /\ cosineSimilarity a b = 1.21875%float)
  /\ (exists a b,
        List.length a = List.length b
        /\ isZero (norm a) = false /\ isZero (norm b) = false
        /\ cosineSimilarity a b = PrimFloat.nan).
Proof.
  split; [|split; [|split]].
  - intros qe data entry Hin Hzero.
    pose proof (cosineSimilarity_zero_vector qe (embedding entry) Hzero) as Hnan.
    split; [exact Hnan|]. split; [|split].
    + cbn [score similarity]. now rewrite Hnan.
    + apply rankCatalog_In. now exists entry.
    + intros other. apply comparator_nan. unfold similarityOf.
      cbn [score similarity]. exact Hnan.
  - exists [1%float; 5%float], [1%float; 5%float]. vm_compute. repeat split.
  - exists [0x1.38p-537%float], [1%float]. vm_compute. repeat split.
  - exists [0x1p600%float], [0x1p600%float]. vm_compute. repeat split.
Qed.

(** C10 at work: a catalog with an entry whose embedding is the zero
    vector. *)
Lemma zero_vector_similarity_is_nan_witness :
  cosineSimilarity [1%float; 1%float] (embedding Examples.inga) = PrimFloat.nan
  /\ In (score [1%float; 1%float] Examples.inga)
        (rankCatalog [1%float; 1%float] Examples.catalogWithZero).
Proof.
  destruct (proj1 zero_vector_similarity_is_nan
              [1%float; 1%float] Examples.catalogWithZero
              Examples.inga (or_intror (or_introl eq_refl)) (or_intror eq_refl))
    as [Hnan [_ [Hin _]]].
  split; [exact Hnan | exact Hin].
Defined.

(** C10 as stated fails on its bound: the vectors [(1, 5)] and [(1, 5)]
    have equal length and non-zero norms, and their similarity,
    1.0000000000000002, lies above 1. *)
Lemma cosine_similarity_above_one :
  List.length [1%float; 5%float] = List.length [1%float; 5%float]
  /\ isZero (norm [1%float; 5%float]) = false
  /\ isNaN (cosineSimilarity [1%float; 5%float] [1%float; 5%float]) = false
  /\ PrimFloat.ltb 1 (cosineSimilarity [1%float; 5%float] [1%float; 5%float]) = true
  /\ PrimFloat.leb (cosineSimilarity [1%float; 5%float] [1%float; 5%float]) 1 = false.
Proof. vm_compute. repeat split. Qed.

(** Two more ways out of the interval, by overflow and by underflow of the
    squares: non-zero vectors in the same direction with similarity 0, and
    a zero computed norm, for a vector that is not zero, with an infinite
    similarity. *)
Example cosine_overflow_and_underflow :
  isZero (norm [0x1p600%float]) = false
  /\ cosineSimilarity [0x1p600%float] [1%float] = 0%float
  /\ isZero (norm [0x1p-600%float]) = true
  /\ cosineSimilarity [0x1p-600%float] [1%float] = PrimFloat.infinity.
Proof. vm_compute. repeat split. Qed.

(** ** Further properties of the handler *)

Section FurtherProperties.

Context {engine : Builtins}.

(** A missing or empty question is answered with status 400 before any
    collaborator is called. *)
Theorem empty_question_is_client_error : forall w,
  POST w None = (JsonError 400 "No question provided", [])
  /\ POST w (Some "") = (JsonError 400 "No question provided", []).
Proof. intros w. split; reflexivity. Qed.

Lemma embedding_failure_is_fatal_aux : forall w question,
  question <> "" ->
  embeddingOf w question = None ->
  POST w (Some question)
  = (JsonError 500 "Failed to generate embedding for question.",
     [CompletionCall question; EmbeddingCall question]).
Proof.
  intros w question Hq Hemb. unfold POST, handle.
  rewrite (proj2 (truthy_Some question) Hq). cbn [negb].
  unfold bind, calling, respond. cbn [app]. now rewrite Hemb.
Qed.

(** When the embedding service fails the request ends with status 500
    right after that call: the catalog is not fetched and no image is
    looked up, whether or not the completion service answered. *)
Theorem embedding_failure_is_fatal : forall w question,
  question <> "" ->
  embeddingOf w question = None ->
  POST w (Some question)
  = (JsonError 500 "Failed to generate embedding for question.",
     [CompletionCall question; EmbeddingCall question]).
Proof.
  intros w question Hq Hemb. unfold POST, handle.
  rewrite (proj2 (truthy_Some question) Hq). cbn [negb].
  unfold bind, calling, respond. cbn [app]. now rewrite Hemb.
Qed.

(** Ranking neither drops nor duplicates an entry: the ranked catalog is a
    rearrangement of the scored entries, one per catalog entry. *)
Theorem ranking_is_permutation :
  forall questionEmbedding (dataWithEmbeddings : list ScoredTreeSpecies),
  Permutation (rankCatalog questionEmbedding dataWithEmbeddings)
              (map (score questionEmbedding) dataWithEmbeddings)
  /\ List.length (rankCatalog questionEmbedding dataWithEmbeddings)
     = List.length dataWithEmbeddings.
Proof.
  intros qe data. unfold rankCatalog. split.
  - apply sortBySimilarity_perm.
  - rewrite (Permutation_length (sortBySimilarity_perm _)). apply length_map.
Qed.

(** ** The handler's ways to fail *)

Lemma POST_catalog_failure : forall w question questionEmbedding message,
  question <> "" ->
  embeddingOf w question = Some questionEmbedding ->
  fetchPublicJson w "data_with_embeddings.json" = inl message ->
  POST w (Some question)
  = (JsonError 500 message,
     [CompletionCall question; EmbeddingCall question;
      CatalogFetch "data_with_embeddings.json"]).
Proof.
  intros w question qe message Hq Hemb Hfetch. unfold POST, handle.
  rewrite (proj2 (truthy_Some question) Hq). cbn [negb].
  unfold bind, calling, respond. cbn [app]. now rewrite Hemb, Hfetch.
Qed.

(** When the catalog cannot be loaded the request ends with status 500
    and no image is looked up.  If the HTTP response is not ok the message
    is "Failed to fetch data_with_embeddings.json", whatever the body; if
    the fetch itself is rejected, the message of that error is what the
    client receives. *)
Theorem catalog_failure_is_fatal :
  forall env completion embeddingOf fetchCatalog fetchGbif question questionEmbedding,
  question <> "" ->
  embeddingOf question = Some questionEmbedding ->
  let w := deployedWorld env completion embeddingOf fetchCatalog fetchGbif in
  let calls := [CompletionCall question; EmbeddingCall question;
                CatalogFetch "data_with_embeddings.json"] in
  (forall json,
      fetchCatalog (Http.publicUrl env "data_with_embeddings.json")
      = Http.Responded false json ->
      POST w (Some question)
      = (JsonError 500 "Failed to fetch data_with_embeddings.json", calls))
  /\ (forall message,
        fetchCatalog (Http.publicUrl env "data_with_embeddings.json")
        = Http.Rejected message ->
        POST w (Some question) = (JsonError 500 message, calls)).
Proof.
  intros env completion embeddingOf fetchCatalog fetchGbif question qe Hq Hemb w calls.
  split.
  - intros json Hresp. apply (POST_catalog_failure w question qe); [exact Hq | exact Hemb|].
    unfold w, deployedWorld. cbn [fetchPublicJson]. unfold Http.fetchPublicJson.
    now rewrite Hresp.
  - intros message Hrej. apply (POST_catalog_failure w question qe); [exact Hq | exact Hemb|].
    unfold w, deployedWorld. cbn [fetchPublicJson]. unfold Http.fetchPublicJson.
    now rewrite Hrej.
Qed.

Lemma POST_empty : forall w body,
  truthy body = false -> POST w body = (JsonError 400 "No question provided", []).
Proof.
  intros w body H. unfold POST, handle. now rewrite H.
Qed.

(** Without the completion service the handler still answers.  For a
    question that is a non-empty string and a completion attempt that
    fails (the call, the parse of its answer or the normalisation throws),
    the query is the fallback parser's, and, the embedding and the catalog
    being of their declared types when they arrive, the response is an
    error exactly when the embedding request fails or the catalog cannot
    be loaded; its status is then 500. *)
Theorem completion_failure_is_not_fatal : forall w question,
  question <> "" ->
  completion w question = None ->
  (isErrorResponse (fst (POST w (Some question))) = true
   <-> embeddingOf w question = None
       \/ exists message, fetchPublicJson w "data_with_embeddings.json" = inl message)
  /\ (forall status message,
        fst (POST w (Some question)) = JsonError status message -> status = 500)
  /\ (forall questionEmbedding dataWithEmbeddings,
        embeddingOf w question = Some questionEmbedding ->
        fetchPublicJson w "data_with_embeddings.json" = inr dataWithEmbeddings ->
        let filtered :=
          filterCatalog (heuristicParse question) dataWithEmbeddings
                        (rankCatalog questionEmbedding dataWithEmbeddings) in
        fst (POST w (Some question))
        = if isCountQuery question then JsonCount (List.length filtered)
          else JsonResults
                 (map (fun item => mkResult item (fetchGbifImages w (Species item)))
                      filtered)).
Proof.
  intros w question Hq Hllm.
  destruct (embeddingOf w question) as [qe|] eqn:Hemb.
  - destruct (fetchPublicJson w "data_with_embeddings.json") as [message|data] eqn:Hf.
    + rewrite (POST_catalog_failure w question qe message Hq Hemb Hf).
      cbn [fst isErrorResponse]. split; [|split].
      * split; [intros _|reflexivity]. right. now exists message.
      * intros status m Heq. now injection Heq as <- _.
      * intros qe' data' _ Hdata. discriminate Hdata.
    + pose proof (POST_success w question qe data Hq Hemb Hf) as Hs. cbv zeta in Hs.
      rewrite Hllm in Hs. cbn [extractQuery] in Hs. rewrite Hs. cbn [fst].
      split; [|split].
      * destruct (isCountQuery question); cbn [isErrorResponse];
          (split; [discriminate|]); intros [Hnone | [m Hm]]; discriminate.
      * intros status m. destruct (isCountQuery question); discriminate.
      * intros qe' data' Hqe Hdata. injection Hqe as <-. injection Hdata as <-.
        reflexivity.
  - rewrite (embedding_failure_is_fatal_aux w question Hq Hemb).
    cbn [fst isErrorResponse]. split; [|split].
    + split; [intros _; now left | reflexivity].
    + intros status m Heq. now injection Heq as <- _.
    + intros qe' data' Hqe _. discriminate Hqe.
Qed.

(** ** Further properties of the heuristic parser *)

Lemma firstOnlyMatch_Some_pattern : forall lowerQ patterns w,
  firstOnlyMatch patterns lowerQ = Some w ->
  exists p, In p patterns /\ matchesPattern p lowerQ w.
Proof.
  intros lowerQ. induction patterns as [|p0 patterns IH]; intros w; [discriminate|].
  rewrite firstOnlyMatch_cons. destruct (regexMatch p0 lowerQ) as [m1|] eqn:Hr.
  - rewrite (regexMatch_truthy _ _ _ Hr). intros H. injection H as <-.
    exists p0. split; [now left | now apply regexMatch_sound].
  - intros H. destruct (IH w H) as [p [Hin Hm]]. exists p. split; [now right | exact Hm].
Qed.

(** What the fallback never does.  It never sets [species], never sets
    [and], reports [usedLLM = false], and leaves [only] undefined or true,
    never false.  [ecosystemService] is null or a label of the service
    table; without an exclusivity match [partUsed] is null or a label of
    the part table. *)
Theorem heuristic_parser_invariants : forall question,
  let x := heuristicParse question in
  species (exQuery x) = None
  /\ exAnd x = None
  /\ exUsedLLM x = false
  /\ (exOnly x = None \/ exOnly x = Some true)
  /\ (forall label, ecosystemService (exQuery x) = Some label ->
                    exists synonyms, In (label, synonyms) ecosystemServiceSynonyms)
  /\ (exOnly x = None ->
      forall label, partUsed (exQuery x) = Some label ->
                    exists synonyms, In (label, synonyms) partUsedSynonyms).
Proof.
  intros question x. subst x.
  pose proof (heuristicParse_eq question) as Heq. cbv zeta in Heq. rewrite Heq.
  set (lowerQ := toLowerCase question).
  destruct (firstOnlyMatch onlyPartsUsedPatterns lowerQ) as [m1|];
    cbn [exQuery exOnly exAnd exUsedLLM species ecosystemService partUsed].
  - repeat (split; [reflexivity|]). split; [now right|]. split.
    + intros label H. now apply (detectLabel_in lowerQ).
    + discriminate.
  - repeat (split; [reflexivity|]). split; [now left|]. split.
    + intros label H. now apply (detectLabel_in lowerQ).
    + intros _ label H.
      destruct (detectLabel lowerQ ecosystemServiceSynonyms); [discriminate|].
      now apply (detectLabel_in lowerQ).
Qed.

(** The fallback sets [only] exactly when the lower-cased question
    contains one of the four phrases around a word of the letters a-z:
    "only the _ are used", "_ are the only part used", "parts used is
    only _", "the only value in partsused is _". *)
Theorem heuristic_only_iff_phrase : forall question,
  exOnly (heuristicParse question) = Some true
  <-> exists p w, In p onlyPartsUsedPatterns
                  /\ matchesPattern p (toLowerCase question) w.
Proof.
  intros question.
  pose proof (heuristicParse_eq question) as Heq. cbv zeta in Heq. rewrite Heq.
  destruct (firstOnlyMatch onlyPartsUsedPatterns (toLowerCase question)) as [m1|] eqn:Hm;
    cbn [exOnly].
  - split; [intros _|reflexivity].
    destruct (firstOnlyMatch_Some_pattern _ _ _ Hm) as [p [Hin Hp]]. now exists p, m1.
  - split; [discriminate|]. intros [p [w [Hin Hp]]].
    elim (proj1 (firstOnlyMatch_None _ _) Hm p w Hin Hp).
Qed.

Lemma service_synonym_sets_service : forall question entry syn,
  In entry ecosystemServiceSynonyms -> In syn (snd entry) ->
  occursIn syn (toLowerCase question) ->
  exists label, ecosystemService (exQuery (heuristicParse question)) = Some label.
Proof.
  intros question entry syn Hin Hsyn Hocc.
  pose proof (heuristicParse_eq question) as Heq. cbv zeta in Heq.
  assert (Hsvc : ecosystemService (exQuery (heuristicParse question))
                 = detectLabel (toLowerCase question) ecosystemServiceSynonyms).
  { rewrite Heq. now destruct (firstOnlyMatch onlyPartsUsedPatterns (toLowerCase question)). }
  rewrite Hsvc.
  destruct (detectLabel (toLowerCase question) ecosystemServiceSynonyms) as [label|] eqn:Hd;
    [now exists label|].
  elim (proj1 (detectLabel_None _ _) Hd entry syn Hin Hsyn Hocc).
Qed.

(** Three part synonyms are also service synonyms: a question that
    mentions "wood", "timber" or "latex" always gets a service, so the part
    scan is skipped for it.  In particular the part label "latex", whose
    only synonym is "latex", is never what the scan yields: the fallback
    gives [partUsed = "latex"] only through an exclusivity phrase. *)
Theorem shadowed_part_synonyms : forall question,
  (forall syn, In syn ["wood"; "timber"; "latex"] ->
               occursIn syn (toLowerCase question) ->
               exists label,
                 ecosystemService (exQuery (heuristicParse question)) = Some label)
  /\ (partUsed (exQuery (heuristicParse question)) = Some "latex" ->
      exOnly (heuristicParse question) = Some true).
Proof.
  intros question. split.
  - intros syn Hsyn Hocc.
    apply (service_synonym_sets_service question
             ("Raw Material",
              ["raw material"; "material"; "timber"; "wood"; "construction";
               "building"; "fiber"; "latex"; "resource"]) syn);
      [right; right; now left | | exact Hocc].
    simpl in Hsyn. simpl.
    destruct Hsyn as [<- | [<- | [<- | []]]]; tauto.
  - pose proof (heuristicParse_eq question) as Heq. cbv zeta in Heq. rewrite Heq.
    destruct (firstOnlyMatch onlyPartsUsedPatterns (toLowerCase question)) as [m1|];
      cbn [exQuery exOnly partUsed]; [reflexivity|].
    destruct (detectLabel (toLowerCase question) ecosystemServiceSynonyms) eqn:Hsvc;
      [discriminate|].
    intros Hpart. exfalso. apply detectLabel_iff in Hpart.
    destruct Hpart as [pre [syns [post [Htable [[syn [Hsyn Hocc]] _]]]]].
    assert (Hin : In ("latex", syns) partUsedSynonyms).
    { rewrite Htable. apply in_or_app. right. now left. }
    assert (Hsyns : syns = ["latex"]).
    { simpl in Hin.
      repeat (destruct Hin as [Heq' | Hin]; [try discriminate Heq'|]);
        try (now injection Heq' as <-); destruct Hin. }
    subst syns. destruct Hsyn as [<- | []].
    apply (proj1 (detectLabel_None _ _) Hsvc
             ("Raw Material",
              ["raw material"; "material"; "timber"; "wood"; "construction";
               "building"; "fiber"; "latex"; "resource"]) "latex");
      [right; right; now left | simpl; tauto | exact Hocc].
Qed.

(** ** Further properties of the normaliser *)

(** Two spellings that differ only by case and by surrounding blanks are
    treated alike by any table: both are resolved, to the same canonical
    label, or both are passed through. *)
Theorem normalizeField_ignores_case_and_padding : forall (T : Dict) v v',
  v <> "" -> v' <> "" ->
  toLowerCase (trim v) = toLowerCase (trim v') ->
  (exists canonical synonyms,
      In (canonical, synonyms) T
      /\ normalizeField (Some v) T = Some canonical
      /\ normalizeField (Some v') T = Some canonical)
  \/ (normalizeField (Some v) T = Some v /\ normalizeField (Some v') T = Some v').
Proof.
  intros T v v' Hv Hv' Heq.
  rewrite (normalizeField_nonempty v T Hv), (normalizeField_nonempty v' T Hv'), <- Heq.
  destruct (normalizeLoop (toLowerCase (trim v)) T) as [c|] eqn:Hloop.
  - left. destruct (normalizeLoop_Some _ _ _ Hloop) as [syns [Hin _]].
    exists c, syns. now repeat split.
  - now right.
Qed.

(** ** Further properties of the filter combinator *)

Lemma includes_refl : forall s, includes s s = true.
Proof.
  intros s. apply includes_iff. exists "", "". simpl. now rewrite append_empty_r.
Qed.

Lemma soleValueIs_someIncludes : forall arr q,
  soleValueIs arr q = true -> someIncludes arr q = true.
Proof.
  intros arr q H. apply soleValueIs_iff in H. destruct H as [x [-> Heq]].
  unfold someIncludes. simpl. rewrite Heq, includes_refl. reflexivity.
Qed.

Lemma onlyCallback_defaultCallback : forall query item,
  truthy (species query) = false ->
  onlyCallback query item = true -> defaultCallback query item = true.
Proof.
  intros [sp es pu] item Hsp. unfold onlyCallback, defaultCallback.
  cbn [species ecosystemService partUsed] in *.
  assert (Hspecies : match sp with
                     | Some q => negb (truthy (Some q))
                                 || includes (toLowerCase (Species item)) (toLowerCase q)
                     | None => true
                     end = true).
  { destruct sp as [q|]; [|reflexivity]. now rewrite Hsp. }
  rewrite Hspecies. clear Hspecies Hsp.
  destruct es as [es|]; destruct pu as [pu|];
    repeat match goal with
           | |- context [truthy (Some ?v)] => destruct (truthy (Some v))
           end; cbn [negb orb andb];
    intros H; rewrite ?andb_true_iff in H;
    repeat match goal with
           | H : _ /\ _ |- _ => destruct H
           | H : soleValueIs ?a ?b = true |- _ =>
               rewrite (soleValueIs_someIncludes a b H); clear H
           end; reflexivity.
Qed.

Lemma defaultCallback_score : forall query questionEmbedding item,
  defaultCallback query (score questionEmbedding item) = defaultCallback query item.
Proof. reflexivity. Qed.

(** The exclusivity branch is the stricter one: for a query without a
    species filter, every entry it keeps is an entry the default branch
    would keep (as its scored copy) for the same query. *)
Theorem only_results_within_default_results :
  forall query questionEmbedding (dataWithEmbeddings : list ScoredTreeSpecies) item,
  truthy (species query) = false ->
  In item (primaryBranch query (Some true) dataWithEmbeddings
                         (rankCatalog questionEmbedding dataWithEmbeddings)) ->
  In (score questionEmbedding item)
     (primaryBranch query None dataWithEmbeddings
                    (rankCatalog questionEmbedding dataWithEmbeddings)).
Proof.
  intros query qe data item Hsp Hin. unfold primaryBranch in *. cbn [truthyb] in *.
  apply filter_In in Hin. destruct Hin as [Hin Hcb]. apply filter_In. split.
  - apply rankCatalog_In. now exists item.
  - rewrite defaultCallback_score. now apply onlyCallback_defaultCallback.
Qed.

Lemma filterWhenSet_holds : forall v p filtered item q,
  In item (filterWhenSet v p filtered) -> v = Some q -> q <> "" -> p q item = true.
Proof.
  intros v p filtered item q Hin -> Hq. unfold filterWhenSet in Hin.
  rewrite (proj2 (truthy_Some q) Hq) in Hin. apply filter_In in Hin. apply Hin.
Qed.

Lemma no_element_nil : forall (A : Type) (l : list A),
  (forall a, ~ In a l) -> l = [].
Proof.
  intros A [|a l] H; [reflexivity|]. elim (H a). now left.
Qed.

(** [only] and [and] on the same field.  With [only] set and a part
    asked for, an 'and' part that is not contained in it
    (case-insensitively) can never be satisfied together with it: the
    result is empty whatever the catalog.  The same holds for the service
    field. *)
Theorem only_and_conflict_is_empty :
  forall (x : Extracted) (dataWithEmbeddings scored : list ScoredTreeSpecies) clause,
  truthyb (exOnly x) = true ->
  exAnd x = Some clause ->
  (exists p a, partUsed (exQuery x) = Some p /\ p <> ""
               /\ andPartUsed clause = Some a /\ a <> ""
               /\ ~ occursIn (toLowerCase a) (toLowerCase p))
  \/ (exists s a, ecosystemService (exQuery x) = Some s /\ s <> ""
                  /\ andEcosystemService clause = Some a /\ a <> ""
                  /\ ~ occursIn (toLowerCase a) (toLowerCase s)) ->
  filterCatalog x dataWithEmbeddings scored = [].
Proof.
  intros x data scored clause Honly Hand Hconflict.
  apply no_element_nil. intros item Hin. unfold filterCatalog in Hin.
  rewrite Hand in Hin. cbn [andFilters] in Hin.
  assert (Hprim : In item (filter (onlyCallback (exQuery x)) data)).
  { apply filterWhenSet_In in Hin. apply filterWhenSet_In in Hin.
    unfold onlyAgain in Hin. rewrite Honly in Hin.
    apply filterWhenSet_In in Hin. apply filterWhenSet_In in Hin.
    unfold primaryBranch in Hin. now rewrite Honly in Hin. }
  apply filter_In in Hprim. destruct Hprim as [_ Hcb].
  destruct (exQuery x) as [sp es pu]. unfold onlyCallback in Hcb.
  cbn [species ecosystemService partUsed] in *.
  destruct Hconflict as [[p [a [Hp [Hpne [Ha [Hane Hno]]]]]]
                        | [s [a [Hs [Hsne [Ha [Hane Hno]]]]]]].
  - subst pu. rewrite (proj2 (truthy_Some p) Hpne) in Hcb.
    assert (Hsole : soleValueIs (PartsUsed item) p = true).
    { destruct es as [es|]; [destruct (truthy (Some es))|];
        rewrite ?andb_true_l in Hcb; try (apply andb_true_iff in Hcb; apply Hcb);
        exact Hcb. }
    pose proof (filterWhenSet_holds _ _ _ item a Hin Ha Hane) as Hsome. cbv beta in Hsome.
    apply soleValueIs_iff in Hsole. destruct Hsole as [v [Hv Heq]].
    rewrite Hv in Hsome. unfold someIncludes in Hsome. simpl in Hsome.
    rewrite orb_false_r, Heq in Hsome. apply includes_iff in Hsome. exact (Hno Hsome).
  - subst es. rewrite (proj2 (truthy_Some s) Hsne) in Hcb.
    assert (Hsole : soleValueIs (EcosystemService item) s = true).
    { destruct pu as [pu|]; [destruct (truthy (Some pu))|];
        rewrite ?andb_true_l in Hcb; try (apply andb_true_iff in Hcb; apply Hcb);
        exact Hcb. }
    apply filterWhenSet_In in Hin.
    pose proof (filterWhenSet_holds _ _ _ item a Hin Ha Hane) as Hsome. cbv beta in Hsome.
    apply soleValueIs_iff in Hsole. destruct Hsole as [v [Hv Heq]].
    rewrite Hv in Hsome. unfold someIncludes in Hsome. simpl in Hsome.
    rewrite orb_false_r, Heq in Hsome. apply includes_iff in Hsome. exact (Hno Hsome).
Qed.

Lemma not_occursIn : forall needle hay, includes hay needle = false -> ~ occursIn needle hay.
Proof.
  intros needle hay H Hocc. apply includes_iff in Hocc. congruence.
Qed.

Lemma Sublist_refl : forall (A : Type) (l : list A), Sublist l l.
Proof. induction l; constructor; assumption. Qed.

Lemma Sublist_trans : forall (A : Type) (a b c : list A),
  Sublist a b -> Sublist b c -> Sublist a c.
Proof.
  intros A a b c Hab Hbc. revert a Hab.
  induction Hbc as [|x b c Hbc IH|x b c Hbc IH]; intros a Hab.
  - exact Hab.
  - inversion Hab; subst.
    + apply sub_keep. now apply IH.
    + apply sub_drop. now apply IH.
  - apply sub_drop. now apply IH.
Qed.

Lemma Sublist_filter : forall (A : Type) (p : A -> bool) (l : list A),
  Sublist (filter p l) l.
Proof.
  intros A p. induction l as [|x l IH]; simpl; [constructor|].
  destruct (p x); now constructor.
Qed.

Lemma Sublist_length : forall (A : Type) (a b : list A),
  Sublist a b -> (List.length a <= List.length b)%nat.
Proof. intros A a b H. induction H; simpl; lia. Qed.

Lemma Sublist_In : forall (A : Type) (a b : list A) (x : A),
  Sublist a b -> In x a -> In x b.
Proof.
  intros A a b x H. induction H; simpl; intros Hin; [exact Hin | | right; now apply IHSublist].
  destruct Hin as [-> | Hin]; [now left | right; now apply IHSublist].
Qed.

Lemma filterWhenSet_Sublist : forall v p filtered,
  Sublist (filterWhenSet v p filtered) filtered.
Proof.
  intros v p filtered. rewrite filterWhenSet_filter. apply Sublist_filter.
Qed.

Lemma filterCatalog_Sublist : forall x dataWithEmbeddings scored,
  Sublist (filterCatalog x dataWithEmbeddings scored)
          (if truthyb (exOnly x) then dataWithEmbeddings else scored).
Proof.
  intros x data scored. unfold filterCatalog.
  apply Sublist_trans
    with (onlyAgain (exQuery x) (exOnly x)
            (primaryBranch (exQuery x) (exOnly x) data scored)).
  { unfold andFilters. destruct (exAnd x) as [clause|]; [|apply Sublist_refl].
    eapply Sublist_trans; apply filterWhenSet_Sublist. }
  apply Sublist_trans with (primaryBranch (exQuery x) (exOnly x) data scored).
  { unfold onlyAgain. destruct (truthyb (exOnly x)); [|apply Sublist_refl].
    eapply Sublist_trans; apply filterWhenSet_Sublist. }
  unfold primaryBranch. destruct (truthyb (exOnly x)); apply Sublist_filter.
Qed.

(** The filter combinator only removes: whatever the query and its
    modifiers, the final list is the catalog (under [only]) or the ranked
    catalog (otherwise) with some entries left out, in the same order and
    without repetition of an entry that occurs once; so it is never longer
    than the catalog. *)
Theorem filter_only_removes :
  forall (x : Extracted) questionEmbedding (dataWithEmbeddings : list ScoredTreeSpecies),
  let scored := rankCatalog questionEmbedding dataWithEmbeddings in
  Sublist (filterCatalog x dataWithEmbeddings scored)
          (if truthyb (exOnly x) then dataWithEmbeddings else scored)
  /\ (List.length (filterCatalog x dataWithEmbeddings scored)
      <= List.length dataWithEmbeddings)%nat.
Proof.
  intros x qe data scored.
  pose proof (filterCatalog_Sublist x data scored) as Hsub. split; [exact Hsub|].
  apply Sublist_length in Hsub. destruct (truthyb (exOnly x)); [exact Hsub|].
  unfold scored, rankCatalog in Hsub.
  now rewrite (Permutation_length (sortBySimilarity_perm _)), length_map in Hsub.
Qed.

(** A count never exceeds the size of the catalog, and a list of results
    is never longer than it. *)
Theorem response_size_bounded :
  forall w question questionEmbedding dataWithEmbeddings,
  embeddingOf w question = Some questionEmbedding ->
  fetchPublicJson w "data_with_embeddings.json" = inr dataWithEmbeddings ->
  (forall n, fst (POST w (Some question)) = JsonCount n ->
             (n <= List.length dataWithEmbeddings)%nat)
  /\ (forall rs, fst (POST w (Some question)) = JsonResults rs ->
                 (List.length rs <= List.length dataWithEmbeddings)%nat).
Proof.
  intros w question qe data Hemb Hfetch.
  destruct (string_dec question "") as [-> | Hq].
  { rewrite (POST_empty w (Some "") eq_refl). cbn [fst]. split; discriminate. }
  pose proof (POST_success w question qe data Hq Hemb Hfetch) as H0. cbv zeta in H0.
  rewrite H0. cbn [fst].
  pose proof (filterCatalog_Sublist (extractQuery question (completion w question))
                data (rankCatalog qe data)) as Hsub.
  apply Sublist_length in Hsub.
  assert (Hlen : (List.length
                    (filterCatalog (extractQuery question (completion w question))
                                   data (rankCatalog qe data))
                  <= List.length data)%nat).
  { destruct (truthyb _); [exact Hsub|]. unfold rankCatalog in Hsub.
    now rewrite (Permutation_length (sortBySimilarity_perm _)), length_map in Hsub. }
  destruct (isCountQuery question); split; try discriminate.
  - intros n Hn. now injection Hn as <-.
  - intros rs Hrs. injection Hrs as <-. now rewrite length_map.
Qed.

(** ** Further properties of the ranking *)

Lemma sortBySimilarity_all_nan : forall l,
  (forall e, In e l -> similarityOf e = PrimFloat.nan) -> sortBySimilarity l = l.
Proof.
  induction l as [|x l IH]; intros H; [reflexivity|].
  simpl. rewrite IH by (intros e He; apply H; now right).
  destruct l as [|y l]; [reflexivity|]. simpl.
  destruct (comparator_nan x y (H x (or_introl eq_refl))) as [_ [_ [Hxy _]]].
  now rewrite Hxy.
Qed.

(** A question embedding that consists of zeros ranks nothing: every
    similarity is NaN, the comparator never asks for a swap, and the
    ranked catalog is the catalog in its original order. *)
Theorem zero_question_embedding_keeps_order :
  forall questionEmbedding (dataWithEmbeddings : list ScoredTreeSpecies),
  forallb isZero questionEmbedding = true ->
  rankCatalog questionEmbedding dataWithEmbeddings
  = map (score questionEmbedding) dataWithEmbeddings
  /\ (forall item, In item (rankCatalog questionEmbedding dataWithEmbeddings) ->
                   similarity item = Some PrimFloat.nan).
Proof.
  intros qe data Hzero.
  assert (Hnan : forall e, In e (map (score qe) data) -> similarity e = Some PrimFloat.nan).
  { intros e He. apply in_map_iff in He. destruct He as [entry [<- _]].
    cbn [score similarity]. f_equal. apply cosineSimilarity_zero_vector. now left. }
  assert (Heq : rankCatalog qe data = map (score qe) data).
  { unfold rankCatalog. apply sortBySimilarity_all_nan. intros e He.
    unfold similarityOf. now rewrite (Hnan e He). }
  split; [exact Heq|]. intros item Hin. rewrite Heq in Hin. now apply Hnan.
Qed.

Lemma zero_question_embedding_keeps_order_witness :
  map Species (rankCatalog [0%float; 0%float] Examples.catalog)
  = map Species Examples.catalog.
Proof.
  rewrite (proj1 (zero_question_embedding_keeps_order [0%float; 0%float]
                    Examples.catalog eq_refl)).
  reflexivity.
Defined.

(** ** The image lookup *)

Lemma firstn_full_prefix : forall (A : Type) (n : nat) (l r : list A),
  (n <= List.length l)%nat -> firstn n (l ++ r) = firstn n l.
Proof.
  intros A n l r H. rewrite firstn_app.
  replace (n - List.length l)%nat with 0%nat by lia.
  simpl. apply app_nil_r.
Qed.

Lemma firstn_short : forall (A : Type) (l : list A),
  (List.length l <= 5)%nat -> l = firstn 5 l.
Proof. intros A l H. symmetry. now apply firstn_all2. Qed.

Lemma mediaLoop_spec : forall medias images,
  (List.length images <= 5)%nat ->
  Http.mediaLoop medias images
  = firstn 5 (images ++ map Http.identifierOf (filter Http.isStillImage medias)).
Proof.
  induction medias as [|m rest IH]; intros images Hlen.
  - cbn [Http.mediaLoop filter map]. rewrite app_nil_r. now apply firstn_short.
  - cbn [Http.mediaLoop filter]. destruct (Http.isStillImage m) eqn:Hm; cbn [andb].
    + destruct (List.length images <? 5)%nat eqn:Hlt.
      * apply Nat.ltb_lt in Hlt. cbn [map].
        replace (images ++ Http.identifierOf m
                   :: map Http.identifierOf (filter Http.isStillImage rest))%list
          with ((images ++ [Http.identifierOf m])
                  ++ map Http.identifierOf (filter Http.isStillImage rest))%list
          by (now rewrite <- app_assoc).
        assert (Hlen' : List.length (images ++ [Http.identifierOf m])%list
                        = S (List.length images)).
        { rewrite length_app. cbn [List.length]. lia. }
        destruct (5 <=? List.length (images ++ [Http.identifierOf m])%list)%nat eqn:Hfull.
        -- apply Nat.leb_le in Hfull. rewrite firstn_full_prefix by exact Hfull.
           apply firstn_short. lia.
        -- apply Nat.leb_gt in Hfull. apply IH. lia.
      * apply Nat.ltb_ge in Hlt.
        replace (5 <=? List.length images)%nat with true
          by (symmetry; now apply Nat.leb_le).
        rewrite firstn_full_prefix by exact Hlt. now apply firstn_short.
    + destruct (5 <=? List.length images)%nat eqn:Hfull.
      * apply Nat.leb_le in Hfull. rewrite firstn_full_prefix by exact Hfull.
        now apply firstn_short.
      * now apply IH.
Qed.

Lemma resultLoop_spec : forall results images,
  (List.length images <= 5)%nat ->
  Http.resultLoop results images
  = firstn 5 (images ++ stillImageIdentifiers (Http.mkGbifData (Some results))).
Proof.
  unfold stillImageIdentifiers. cbn [Http.gbifResults].
  induction results as [|result rest IH]; intros images Hlen.
  - cbn [Http.resultLoop flat_map]. rewrite app_nil_r. now apply firstn_short.
  - cbn [Http.resultLoop flat_map].
    set (found := match Http.media result with
                  | Some medias => map Http.identifierOf (filter Http.isStillImage medias)
                  | None => []
                  end).
    assert (Himages : match Http.media result with
                      | Some medias => Http.mediaLoop medias images
                      | None => images
                      end = firstn 5 (images ++ found)%list).
    { subst found. destruct (Http.media result) as [medias|].
      - now apply mediaLoop_spec.
      - rewrite app_nil_r. now apply firstn_short. }
    rewrite Himages. rewrite app_assoc.
    destruct (5 <=? List.length (firstn 5 (images ++ found)%list))%nat eqn:Hfull.
    + apply Nat.leb_le in Hfull. rewrite length_firstn in Hfull.
      symmetry. apply firstn_full_prefix. lia.
    + apply Nat.leb_gt in Hfull. rewrite length_firstn in Hfull.
      rewrite <- (firstn_short _ (images ++ found)%list) by lia.
      apply IH. lia.
Qed.

Lemma collectImages_spec : forall data,
  Http.collectImages data = firstn 5 (stillImageIdentifiers data).
Proof.
  intros [[results|]]; unfold Http.collectImages; cbn [Http.gbifResults].
  - rewrite resultLoop_spec by (cbn [List.length]; lia). reflexivity.
  - reflexivity.
Qed.

Lemma stillImageIdentifiers_In : forall data i,
  In i (stillImageIdentifiers data) ->
  i <> ""
  /\ exists results result medias m,
       Http.gbifResults data = Some results /\ In result results
       /\ Http.media result = Some medias /\ In m medias
       /\ Http.mediaType m = Some "StillImage" /\ Http.identifier m = Some i.
Proof.
  intros data i Hin. unfold stillImageIdentifiers in Hin.
  apply in_flat_map in Hin. destruct Hin as [result [Hres Hin]].
  destruct (Http.gbifResults data) as [results|] eqn:Hdata; [|destruct Hres].
  destruct (Http.media result) as [medias|] eqn:Hmedia; [|destruct Hin].
  apply in_map_iff in Hin. destruct Hin as [m [<- Hm]].
  apply filter_In in Hm. destruct Hm as [Hm Hstill].
  unfold Http.isStillImage in Hstill.
  destruct (Http.mediaType m) as [t|] eqn:Ht; [|discriminate].
  apply andb_true_iff in Hstill. destruct Hstill as [Htype Hid].
  apply String.eqb_eq in Htype. subst t.
  destruct (truthy_true _ Hid) as [v [Hv Hne]].
  unfold Http.identifierOf. rewrite Hv. split; [exact Hne|].
  exists results, result, medias, m. now repeat split.
Qed.

Lemma In_firstn : forall (A : Type) (n : nat) (l : list A) (a : A),
  In a (firstn n l) -> In a l.
Proof.
  intros A n l a H. rewrite <- (firstn_skipn n l). apply in_or_app. now left.
Qed.

Lemma gbif_images_bounds : forall fetch speciesName,
  (List.length (Http.fetchGbifImages fetch speciesName) <= 5)%nat
  /\ ((forall data, fetch (Http.gbifApiUrl speciesName) <> Http.Responded true (inr data)) ->
      Http.fetchGbifImages fetch speciesName = []).
Proof.
  intros fetch speciesName. unfold Http.fetchGbifImages.
  destruct (fetch (Http.gbifApiUrl speciesName)) as [message | [|] [message | data]];
    cbn [negb].
  1-2, 4-5: (split; [cbn [List.length]; lia | reflexivity]).
  rewrite collectImages_spec. split; [rewrite length_firstn; lia|].
  intros H. elim (H data eq_refl).
Qed.

(** The image lookup returns the identifiers of the first five still
    images of the response, in document order (all of them when there are
    fewer), and nothing else: never more than five, never an empty string.
    A rejected fetch, a response that is not ok and a body that does not
    parse all give the empty list. *)
Theorem gbif_images_first_five : forall fetch speciesName,
  (List.length (Http.fetchGbifImages fetch speciesName) <= 5)%nat
  /\ (forall data,
        fetch (Http.gbifApiUrl speciesName) = Http.Responded true (inr data) ->
        Http.fetchGbifImages fetch speciesName = firstn 5 (stillImageIdentifiers data))
  /\ (forall i, In i (Http.fetchGbifImages fetch speciesName) -> i <> "")
  /\ ((forall data, fetch (Http.gbifApiUrl speciesName) <> Http.Responded true (inr data)) ->
      Http.fetchGbifImages fetch speciesName = []).
Proof.
  intros fetch speciesName. unfold Http.fetchGbifImages.
  destruct (fetch (Http.gbifApiUrl speciesName)) as [message | [|] [message | data]];
    cbn [negb].
  1-2, 4-5: (split; [cbn [List.length]; lia|]; split; [discriminate|];
             split; [intros i []|]; reflexivity).
  rewrite collectImages_spec. split; [rewrite length_firstn; lia|].
  split; [intros d H; now injection H as <-|]. split.
  - intros i Hin. apply In_firstn in Hin.
    exact (proj1 (stillImageIdentifiers_In data i Hin)).
  - intros H. elim (H data eq_refl).
Qed.

Lemma gbif_images_first_five_witness :
  Http.fetchGbifImages
    (fun _ => Http.Responded true
                (inr (Http.mkGbifData
                        (Some [Http.mkGbifResult None;
                               Http.mkGbifResult
                                 (Some [Http.mkMedia (Some "Sound") (Some "a.mp3");
                                        Http.mkMedia (Some "StillImage") (Some "a.jpg");
                                        Http.mkMedia (Some "StillImage") None]);
                               Http.mkGbifResult
                                 (Some [Http.mkMedia (Some "StillImage") (Some "b.jpg")])]))))
    "Carapa guianensis"
  = ["a.jpg"; "b.jpg"].
Proof.
  rewrite (proj1 (proj2 (gbif_images_first_five _ "Carapa guianensis")) _ eq_refl).
  reflexivity.
Defined.

(** In a deployment every result carries at most five images, and an
    entry whose lookup is rejected or answered with an error status
    carries none; the response is a list of results all the same. *)
Theorem results_carry_at_most_five_images :
  forall env complete embed fetchCatalog fetchGbif question results,
  fst (POST (deployedWorld env complete embed fetchCatalog fetchGbif)
            (Some question)) = JsonResults results ->
  forall r, In r results ->
    (List.length (images r) <= 5)%nat
    /\ ((forall data, fetchGbif (Http.gbifApiUrl (Species (resultItem r)))
                      <> Http.Responded true (inr data)) ->
        images r = []).
Proof.
  intros env complete embed fetchCatalog fetchGbif question results Hres r Hr.
  set (w := deployedWorld env complete embed fetchCatalog fetchGbif) in *.
  assert (Himg : images r = Http.fetchGbifImages fetchGbif (Species (resultItem r))).
  { assert (Hq : question <> "") by (intros ->; discriminate Hres).
    destruct (embeddingOf w question) as [qe|] eqn:Hemb.
    2: { rewrite (embedding_failure_is_fatal_aux w question Hq Hemb) in Hres. discriminate. }
    destruct (fetchPublicJson w "data_with_embeddings.json") as [message|data] eqn:Hf.
    { rewrite (POST_catalog_failure w question qe message Hq Hemb Hf) in Hres. discriminate. }
    pose proof (POST_success w question qe data Hq Hemb Hf) as H. cbv zeta in H.
    rewrite H in Hres. cbn [fst] in Hres.
    destruct (isCountQuery question); [discriminate|]. injection Hres as <-.
    apply in_map_iff in Hr. destruct Hr as [item [<- _]]. reflexivity. }
  rewrite Himg.
  destruct (gbif_images_bounds fetchGbif (Species (resultItem r))) as [Hlen Hfail].
  split; [exact Hlen | exact Hfail].
Qed.

(** ** The lookup URL *)

Lemma length_append : forall a b : string,
  String.length (a ++ b) = (String.length a + String.length b)%nat.
Proof. induction a as [|c a IH]; intros b; simpl; [reflexivity | now rewrite IH]. Qed.

Lemma append_cancel_l : forall p x y : string, p ++ x = p ++ y -> x = y.
Proof.
  induction p as [|c p IH]; intros x y H; [exact H|].
  simpl in H. injection H as H. now apply IH.
Qed.

Lemma append_cancel_r : forall s x y : string, x ++ s = y ++ s -> x = y.
Proof.
  intros s. induction x as [|a x IH]; intros [|b y] H.
  - reflexivity.
  - apply (f_equal String.length) in H. simpl in H. rewrite length_append in H. lia.
  - apply (f_equal String.length) in H. simpl in H. rewrite length_append in H. lia.
  - simpl in H. injection H as -> H. f_equal. now apply IH.
Qed.

Lemma allChars_append : forall p a b,
  allChars p (a ++ b) = allChars p a && allChars p b.
Proof.
  intros p. induction a as [|c a IH]; intros b; simpl; [reflexivity|].
  now rewrite IH, andb_assoc.
Qed.

Lemma allChars_occurs : forall p s c,
  allChars p s = true -> occursIn (String c "") s -> p c = true.
Proof.
  intros p s c Hall [pre [post ->]]. rewrite !allChars_append in Hall.
  apply andb_true_iff in Hall. destruct Hall as [_ Hall].
  apply andb_true_iff in Hall. destruct Hall as [Hc _].
  simpl in Hc. now rewrite andb_true_r in Hc.
Qed.

Lemma percentEscape_chars : forall c, allChars isUrlChar (Http.percentEscape c) = true.
Proof. intros [[] [] [] [] [] [] [] []]; reflexivity. Qed.

Lemma percentEscape_roundtrip : forall c rest,
  percentDecode (Http.percentEscape c ++ rest) = String c (percentDecode rest).
Proof. intros [[] [] [] [] [] [] [] []] rest; reflexivity. Qed.

Lemma unreserved_not_percent : forall c,
  Http.isUnreserved c = true -> Ascii.eqb c "%" = false.
Proof.
  intros c H. destruct (Ascii.eqb c "%") eqn:E; [|reflexivity].
  apply Ascii.eqb_eq in E. subst c. discriminate H.
Qed.

Lemma encodeURIComponent_chars : forall s,
  allChars isUrlChar (Http.encodeURIComponent s) = true.
Proof.
  induction s as [|c s IH]; [reflexivity|].
  cbn [Http.encodeURIComponent]. rewrite allChars_append, IH, andb_true_r.
  destruct (Http.isUnreserved c) eqn:Hc; [|apply percentEscape_chars].
  simpl. unfold isUrlChar. now rewrite Hc.
Qed.

Lemma percentDecode_encode : forall s,
  percentDecode (Http.encodeURIComponent s) = s.
Proof.
  induction s as [|c s IH]; [reflexivity|].
  cbn [Http.encodeURIComponent]. destruct (Http.isUnreserved c) eqn:Hc.
  - cbn [append percentDecode]. now rewrite (unreserved_not_percent c Hc), IH.
  - now rewrite percentEscape_roundtrip, IH.
Qed.

(** The species name is escaped into the lookup URL.  The escaped name
    consists of letters, digits, the marks [- _ . ! ~ * ' ( )] and [%]
    only, so it cannot close the parameter or add another one; the name can
    be read back from it, so two names are looked up under the same URL
    only if they are the same name. *)
Theorem gbif_url_escapes_name : forall speciesName,
  (forall c, isUrlChar c = false ->
             ~ occursIn (String c "") (Http.encodeURIComponent speciesName))
  /\ percentDecode (Http.encodeURIComponent speciesName) = speciesName
  /\ (forall other, Http.gbifApiUrl speciesName = Http.gbifApiUrl other ->
                    speciesName = other).
Proof.
  intros speciesName. split; [|split].
  - intros c Hc Hocc.
    rewrite (allChars_occurs _ _ c (encodeURIComponent_chars speciesName) Hocc) in Hc.
    discriminate.
  - apply percentDecode_encode.
  - intros other H. unfold Http.gbifApiUrl in H.
    apply append_cancel_r, append_cancel_l in H.
    rewrite <- (percentDecode_encode speciesName), <- (percentDecode_encode other).
    now rewrite H.
Qed.

(** The escaping at work on a name with blanks and an ampersand. *)
Lemma gbif_url_escapes_name_witness :
  Http.gbifApiUrl "Inga & co"
  = "https://api.gbif.org/v1/occurrence/search?mediaType=StillImage&scientificName=Inga%20%26%20co&limit=10"
  /\ ~ occursIn "&" (Http.encodeURIComponent "Inga & co").
Proof.
  split; [reflexivity|].
  apply (proj1 (gbif_url_escapes_name "Inga & co") "&"%char). reflexivity.
Defined.

(** ** The page and the handler *)

Lemma POST_error_status : forall w body status message,
  fst (POST w body) = JsonError status message -> status = 400 \/ status = 500.
Proof.
  intros w body status message H. destruct (truthy body) eqn:Hb.
  - destruct (truthy_true body Hb) as [question [-> Hq]].
    destruct (embeddingOf w question) as [qe|] eqn:Hemb.
    + destruct (fetchPublicJson w "data_with_embeddings.json") as [m|data] eqn:Hf.
      * rewrite (POST_catalog_failure w question qe m Hq Hemb Hf) in H.
        injection H as <- _. now right.
      * pose proof (POST_success w question qe data Hq Hemb Hf) as Hs. cbv zeta in Hs.
        rewrite Hs in H. cbn [fst] in H. destruct (isCountQuery question); discriminate.
    + rewrite (embedding_failure_is_fatal_aux w question Hq Hemb) in H.
      injection H as <- _. now right.
  - rewrite (POST_empty w body Hb) in H. injection H as <- _. now left.
Qed.

(** A count is computed but never shown.  When the handler answers a
    count question with [{count: N}], the page stores [data.results], which
    that answer does not have: afterwards it shows no result list, no
    "Results:" heading, no error and no number. *)
Theorem count_answer_is_not_shown :
  forall w (st : Page.State) questionEmbedding dataWithEmbeddings,
  isCountQuery (Page.question st) = true ->
  embeddingOf w (Page.question st) = Some questionEmbedding ->
  fetchPublicJson w "data_with_embeddings.json" = inr dataWithEmbeddings ->
  (exists n, fst (POST w (Some (Page.question st))) = JsonCount n)
  /\ Page.results (Page.submitTo w st) = None
  /\ Page.shownItems (Page.submitTo w st) = []
  /\ Page.shownError (Page.submitTo w st) = None
  /\ Page.loading (Page.submitTo w st) = false.
Proof.
  intros w st qe data Hcount Hemb Hfetch.
  pose proof (POST_success w (Page.question st) qe data
                (isCountQuery_nonempty _ Hcount) Hemb Hfetch) as H.
  cbv zeta in H. rewrite Hcount in H. unfold Page.submitTo. rewrite H. cbn [fst].
  split; [now eexists|]. repeat split.
Qed.

(** Every error of the handler reaches the user as a non-empty text:
    the handler's message, or "Unknown error" when that message is empty
    (an error thrown with no message while the catalog is fetched).  The
    result list is cleared. *)
Theorem handler_errors_are_shown : forall w (st : Page.State) status message,
  fst (POST w (Some (Page.question st))) = JsonError status message ->
  Page.results (Page.submitTo w st) = None
  /\ Page.shownError (Page.submitTo w st)
     = Some (if truthy (Some message) then message else "Unknown error")
  /\ (exists text, Page.shownError (Page.submitTo w st) = Some text /\ text <> "")
  /\ Page.loading (Page.submitTo w st) = false.
Proof.
  intros w st status message H. unfold Page.submitTo. rewrite H.
  assert (Hok : Page.statusOk status = false).
  { destruct (POST_error_status _ _ _ _ H) as [-> | ->]; reflexivity. }
  unfold Page.handleSubmit, Page.finishSubmit. rewrite Hok.
  assert (Hshown : Page.shownError
                     (Page.setLoading false
                        (Page.setError
                           (Some (if truthy (Some message) then message
                                  else "Unknown error"))
                           (Page.beginSubmit st)))
                   = Some (if truthy (Some message) then message else "Unknown error")).
  { unfold Page.shownError. cbn [Page.setLoading Page.setError Page.error].
    destruct message as [|c message]; reflexivity. }
  split; [reflexivity|]. split; [exact Hshown|]. split; [|reflexivity].
  eexists. split; [exact Hshown|]. destruct message; discriminate.
Qed.

(** ** The page's state *)

Lemma step_visibleCount : forall st e st',
  Page.step st e = Some st' ->
  (Page.visibleCount st <= Page.visibleCount st')%nat
  /\ (e = Page.LoaderSeen ->
      (Page.visibleCount st < Page.visibleCount st')%nat
      /\ exists rs, Page.results st = Some rs
                    /\ (Page.visibleCount st' <= List.length rs)%nat).
Proof.
  intros st e st' H. destruct e; cbn [Page.step] in H.
  - injection H as <-. split; [reflexivity | discriminate].
  - injection H as <-. split; [reflexivity | discriminate].
  - injection H as <-. split; [|discriminate].
    unfold Page.finishSubmit.
    destruct reply as [[m|] | [status m | n | rs]]; try reflexivity.
    destruct (Page.statusOk status); reflexivity.
  - unfold Page.loaderShown in H. destruct (Page.results st) as [rs|] eqn:Hrs;
      [|discriminate].
    destruct (negb (List.length rs =? 0)%nat && (Page.visibleCount st <? List.length rs)%nat)
      eqn:Hshown; [|discriminate].
    injection H as <-. apply andb_true_iff in Hshown. destruct Hshown as [_ Hlt].
    apply Nat.ltb_lt in Hlt. cbn [Page.setVisibleCount Page.visibleCount].
    split; [lia|]. intros _. split; [lia|]. exists rs. split; [reflexivity | lia].
  - destruct (nth_error (Page.shownItems st) idx) as [item|]; [|discriminate].
    destruct (0 <? List.length (images item))%nat; [|discriminate].
    injection H as <-. split; [reflexivity | discriminate].
  - destruct (Page.modalShown st); [|discriminate].
    destruct (Page.modalImage st) as [m|]; [|discriminate].
    destruct (i <? List.length (Page.modalImages m))%nat; [|discriminate].
    injection H as <-. split; [reflexivity | discriminate].
  - destruct (Page.modalShown st); [|discriminate].
    injection H as <-. split; [reflexivity | discriminate].
  - injection H as <-. split; [reflexivity | discriminate].
Qed.

Lemma step_modalImage : forall st e st' m',
  Page.step st e = Some st' ->
  Page.modalImage st' = Some m' ->
  Page.modalImage st = Some m'
  \/ ((Page.modalIndex m' < List.length (Page.modalImages m'))%nat
      /\ ((List.length (Page.modalImages m') <= 7)%nat
          \/ exists m, Page.modalImage st = Some m
                       /\ Page.modalImages m' = Page.modalImages m)).
Proof.
  intros st e st' m' H Hm'. destruct e; cbn [Page.step] in H.
  - injection H as <-. now left.
  - injection H as <-. now left.
  - injection H as <-. left. rewrite <- Hm'. unfold Page.finishSubmit.
    destruct reply as [[m|] | [status m | n | rs]]; try reflexivity.
    destruct (Page.statusOk status); reflexivity.
  - destruct (Page.loaderShown st); [|discriminate].
    destruct (Page.results st); [|discriminate]. injection H as <-. now left.
  - destruct (nth_error (Page.shownItems st) idx) as [item|]; [|discriminate].
    destruct (0 <? List.length (images item))%nat eqn:Hpos; [|discriminate].
    remember (firstn 7 (images item)) as gallery eqn:Hgallery.
    injection H as <-. cbn [Page.setModalImage Page.modalImage] in Hm'.
    injection Hm' as <-. right. cbn [Page.modalIndex Page.modalImages].
    apply Nat.ltb_lt in Hpos. rewrite Hgallery, length_firstn. split; [lia | left; lia].
  - destruct (Page.modalShown st); [|discriminate].
    destruct (Page.modalImage st) as [m|]; [|discriminate].
    destruct (i <? List.length (Page.modalImages m))%nat eqn:Hi; [|discriminate].
    injection H as <-. cbn [Page.setModalImage Page.modalImage] in Hm'.
    injection Hm' as <-. right. cbn [Page.modalIndex Page.modalImages].
    apply Nat.ltb_lt in Hi. split; [exact Hi|]. right. now exists m.
  - destruct (Page.modalShown st); [|discriminate].
    injection H as <-. discriminate Hm'.
  - injection H as <-. now left.
Qed.

(** Whatever the user does and whatever the server answers, the page
    keeps asking for at least twenty items, and an open modal holds at most
    seven images and shows one that exists; the number of items asked for
    never decreases, not even when a new search is submitted, and each
    sighting of the loader while it is displayed raises it, up to the
    length of the result list. *)
Theorem page_state_invariants :
  (forall st, Page.Reachable st ->
     pageInvariant st
     /\ forall m, Page.modalImage st = Some m ->
                  nth_error (Page.modalImages m) (Page.modalIndex m) <> None)
  /\ (forall st e st', Page.step st e = Some st' ->
        (Page.visibleCount st <= Page.visibleCount st')%nat)
  /\ (forall st st', Page.step st Page.LoaderSeen = Some st' ->
        (Page.visibleCount st < Page.visibleCount st')%nat
        /\ exists rs, Page.results st = Some rs
                      /\ (Page.visibleCount st' <= List.length rs)%nat).
Proof.
  assert (Hinv : forall st, Page.Reachable st -> pageInvariant st).
  { intros st H. induction H as [|st e st' Hreach [Hcount Hmodal] Hstep].
    - split; [cbn; lia | discriminate].
    - split.
      + pose proof (proj1 (step_visibleCount st e st' Hstep)). lia.
      + intros m' Hm'.
        destruct (step_modalImage st e st' m' Hstep Hm') as [Hold | [Hidx [Hlen | [m [Hm Heq]]]]].
        * now apply Hmodal.
        * now split.
        * split; [exact Hidx|]. rewrite Heq. now apply Hmodal. }
  split; [|split].
  - intros st H. split; [now apply Hinv|]. intros m Hm.
    destruct (Hinv st H) as [_ Hmodal]. apply nth_error_Some. now apply Hmodal.
  - intros st e st' H. exact (proj1 (step_visibleCount st e st' H)).
  - intros st st' H. exact (proj2 (step_visibleCount st _ st' H) eq_refl).
Qed.

Lemma page_state_invariants_witness :
  pageInvariant
    (Page.mkState "medicine"
       (Some [mkResult Examples.carapa ["a.jpg"; "b.jpg"; "c.jpg"]])
       false None (Some (Page.mkModal ["a.jpg"; "b.jpg"; "c.jpg"] 2)) 20 false).
Proof.
  refine (proj1 (proj1 page_state_invariants _ _)).
  apply (Page.reach_step
           (Page.mkState "medicine"
              (Some [mkResult Examples.carapa ["a.jpg"; "b.jpg"; "c.jpg"]])
              false None (Some (Page.mkModal ["a.jpg"; "b.jpg"; "c.jpg"] 0)) 20 false)
           (Page.GalleryClicked 2)); [|reflexivity].
  apply (Page.reach_step
           (Page.mkState "medicine"
              (Some [mkResult Examples.carapa ["a.jpg"; "b.jpg"; "c.jpg"]])
              false None None 20 false)
           (Page.ThumbnailClicked 0)); [|reflexivity].
  apply (Page.reach_step
           (Page.mkState "medicine" None true None None 20 false)
           (Page.SubmitSettled
              (Page.Answered
                 (JsonResults [mkResult Examples.carapa ["a.jpg"; "b.jpg"; "c.jpg"]]))));
    [|reflexivity].
  apply (Page.reach_step (Page.mkState "medicine" None false None None 20 false)
           Page.SubmitStarted); [|reflexivity].
  apply (Page.reach_step Page.initialState (Page.Typed "medicine")); [|reflexivity].
  apply Page.reach_initial.
Defined.

(** ** The embedding job *)

Lemma embedEach_success : forall embed data,
  (forall entry, In entry data ->
                 embed (AddEmbeddings.embeddingText entry) <> None) ->
  exists done,
    AddEmbeddings.embedEach embed data
    = (Some done, map AddEmbeddings.embeddingText data)
    /\ Forall2 (fun entry out =>
                  exists e, embed (AddEmbeddings.embeddingText entry) = Some e
                            /\ out = AddEmbeddings.withEmbedding entry e)
               data done.
Proof.
  intros embed. induction data as [|entry rest IH]; intros Hall.
  - exists []. split; [reflexivity | constructor].
  - cbn [AddEmbeddings.embedEach map].
    destruct (embed (AddEmbeddings.embeddingText entry)) as [e|] eqn:He.
    + destruct IH as [done [Hrest Hdone]]; [intros x Hx; apply Hall; now right|].
      rewrite Hrest. exists (AddEmbeddings.withEmbedding entry e :: done).
      split; [reflexivity|]. constructor; [now exists e | exact Hdone].
    + elim (Hall entry (or_introl eq_refl) He).
Qed.

Lemma embedEach_failure : forall embed pre bad post,
  (forall entry, In entry pre ->
                 embed (AddEmbeddings.embeddingText entry) <> None) ->
  embed (AddEmbeddings.embeddingText bad) = None ->
  AddEmbeddings.embedEach embed (pre ++ bad :: post)%list
  = (None, map AddEmbeddings.embeddingText (pre ++ [bad])%list).
Proof.
  intros embed pre bad post. induction pre as [|entry pre IH]; intros Hpre Hbad.
  - cbn [app AddEmbeddings.embedEach map]. now rewrite Hbad.
  - cbn [app AddEmbeddings.embedEach map].
    destruct (embed (AddEmbeddings.embeddingText entry)) as [e|] eqn:He.
    + rewrite IH; [reflexivity | | exact Hbad]. intros x Hx. apply Hpre. now right.
    + elim (Hpre entry (or_introl eq_refl) He).
Qed.

(** The embedding job is all or nothing.  If every request succeeds, the
    data written has one entry per input entry, in the same order, each the
    input entry with [embedding] set to what the service returned for its
    text, and one request was made per entry.  If a request fails, nothing
    is written and the script exits with status 1; the requests made are
    those up to and including the failing one, so the entries after it are
    never sent. *)
Theorem embedding_job_all_or_nothing : forall embed (data : list AddEmbeddings.DataEntry),
  ((forall entry, In entry data ->
                  embed (AddEmbeddings.embeddingText entry) <> None) ->
   exists done,
     AddEmbeddings.main (inr data) embed
     = (AddEmbeddings.WriteFile done, map AddEmbeddings.embeddingText data)
     /\ List.length done = List.length data
     /\ Forall2 (fun entry out =>
                   exists e, embed (AddEmbeddings.embeddingText entry) = Some e
                             /\ out = AddEmbeddings.withEmbedding entry e)
                data done)
  /\ (forall pre bad post,
        data = (pre ++ bad :: post)%list ->
        (forall entry, In entry pre ->
                       embed (AddEmbeddings.embeddingText entry) <> None) ->
        embed (AddEmbeddings.embeddingText bad) = None ->
        AddEmbeddings.main (inr data) embed
        = (AddEmbeddings.Exit1, map AddEmbeddings.embeddingText (pre ++ [bad])%list)).
Proof.
  intros embed data. split.
  - intros Hall. destruct (embedEach_success embed data Hall) as [done [Heq Hdone]].
    exists done. unfold AddEmbeddings.main. rewrite Heq.
    split; [reflexivity|]. split; [|exact Hdone].
    symmetry. exact (Forall2_length Hdone).
  - intros pre bad post -> Hpre Hbad. unfold AddEmbeddings.main.
    now rewrite (embedEach_failure embed pre bad post Hpre Hbad).
Qed.

Lemma embedding_job_all_or_nothing_witness :
  AddEmbeddings.main
    (inr [AddEmbeddings.mkData "Carapa guianensis" "Meliaceae" (Some ["Medicinal"])
            (Some ["leaves"]) None None None;
          AddEmbeddings.mkData "Inga sp." "Fabaceae" None None None None None;
          AddEmbeddings.mkData "Pouteria sp." "Sapotaceae" None None None None None])
    (fun text => if String.prefix "Species: Inga" text then None else Some [1%float])
  = (AddEmbeddings.Exit1,
     map AddEmbeddings.embeddingText
       [AddEmbeddings.mkData "Carapa guianensis" "Meliaceae" (Some ["Medicinal"])
          (Some ["leaves"]) None None None;
        AddEmbeddings.mkData "Inga sp." "Fabaceae" None None None None None]).
Proof.
  refine (proj2 (embedding_job_all_or_nothing _ _)
            [AddEmbeddings.mkData "Carapa guianensis" "Meliaceae" (Some ["Medicinal"])
               (Some ["leaves"]) None None None]
            (AddEmbeddings.mkData "Inga sp." "Fabaceae" None None None None None)
            [AddEmbeddings.mkData "Pouteria sp." "Sapotaceae" None None None None None]
            eq_refl _ eq_refl).
  intros entry [<- | []]. discriminate.
Defined.

(** ** The offline answer to a service question *)

Lemma heuristic_service_query : forall question label,
  firstLabelWith (toLowerCase question) ecosystemServiceSynonyms label ->
  noOnlyPattern (toLowerCase question) ->
  heuristicParse question
  = mkExtracted (mkQuery None (Some label) None) None None false.
Proof.
  intros question label Hlabel Hno.
  pose proof (heuristicParse_eq question) as Heq. cbv zeta in Heq. rewrite Heq.
  apply detectLabel_iff in Hlabel. apply firstOnlyMatch_None in Hno.
  now rewrite Hno, Hlabel.
Qed.

(** With the completion service down, a question that mentions a service
    (and contains no exclusivity phrase) is answered with exactly the
    entries one of whose services contains the detected label,
    case-insensitively, each with its similarity and its images, best match
    first; or with their number when it is a count question. *)
Theorem offline_service_question_answer :
  forall w question label questionEmbedding dataWithEmbeddings,
  completion w question = None ->
  firstLabelWith (toLowerCase question) ecosystemServiceSynonyms label ->
  noOnlyPattern (toLowerCase question) ->
  embeddingOf w question = Some questionEmbedding ->
  fetchPublicJson w "data_with_embeddings.json" = inr dataWithEmbeddings ->
  let matching :=
    filter (fun item => someIncludes (EcosystemService item) label)
           (rankCatalog questionEmbedding dataWithEmbeddings) in
  fst (POST w (Some question))
  = (if isCountQuery question then JsonCount (List.length matching)
     else JsonResults
            (map (fun item => mkResult item (fetchGbifImages w (Species item))) matching))
  /\ (forall item, In item matching
                   <-> exists entry, In entry dataWithEmbeddings
                                     /\ item = score questionEmbedding entry
                                     /\ someContains (EcosystemService entry) label).
Proof.
  intros w question label qe data Hllm Hlabel Hno Hemb Hfetch matching.
  assert (Hq : question <> "").
  { intros ->. rewrite toLowerCase_empty in Hlabel.
    destruct Hlabel as [pre [syns [post [Htable [[syn [Hsyn Hocc]] _]]]]].
    assert (Hin : In (label, syns) ecosystemServiceSynonyms).
    { rewrite Htable. apply in_or_app. right. now left. }
    apply includes_iff in Hocc. simpl in Hin.
    repeat (destruct Hin as [Heq | Hin];
            [injection Heq as <- <-; simpl in Hsyn;
             repeat (destruct Hsyn as [<- | Hsyn]; [discriminate Hocc|]); destruct Hsyn|]).
    destruct Hin. }
  assert (Hlabel_ne : truthy (Some label) = true).
  { apply (service_label_truthy (toLowerCase question)). now apply detectLabel_iff. }
  pose proof (POST_success w question qe data Hq Hemb Hfetch) as H. cbv zeta in H.
  rewrite Hllm in H. cbn [extractQuery] in H.
  rewrite (heuristic_service_query question label Hlabel Hno) in H.
  assert (Hfiltered :
            filterCatalog (mkExtracted (mkQuery None (Some label) None) None None false)
                          data (rankCatalog qe data) = matching).
  { unfold filterCatalog, primaryBranch, onlyAgain, andFilters.
    cbn [exQuery exOnly exAnd truthyb]. subst matching. apply filter_ext.
    intros item. unfold defaultCallback. cbn [species ecosystemService partUsed].
    rewrite Hlabel_ne. cbn [negb orb andb]. now rewrite andb_true_r. }
  rewrite Hfiltered in H. rewrite H. cbn [fst]. split; [reflexivity|].
  intros item. subst matching. rewrite filter_In, rankCatalog_In. split.
  - intros [[entry [Hin ->]] Hsome]. exists entry. repeat split; [exact Hin|].
    now apply someIncludes_iff.
  - intros [entry [Hin [-> Hsome]]]. split; [now exists entry|].
    now apply someIncludes_iff.
Qed.

(** ** Exclusivity and the spelling of parts *)

Lemma partUsedSynonyms_trimmed : forall entry syn,
  In entry partUsedSynonyms -> In syn (snd entry) -> trim syn = syn.
Proof.
  intros entry syn Hin Hsyn. simpl in Hin.
  repeat (destruct Hin as [<- | Hin];
          [simpl in Hsyn;
           repeat (destruct Hsyn as [<- | Hsyn]; [ascii_literals; reflexivity|]);
           destruct Hsyn|]).
  destruct Hin.
Qed.

(** Whatever path produced it, the part of a query is a fixed point of
    the normaliser. *)
Lemma extractQuery_part_normal : forall question llm p,
  partUsed (exQuery (extractQuery question llm)) = Some p ->
  normalizeField (Some p) partUsedSynonyms = Some p.
Proof.
  intros question [llmQuery|] p; cbn [extractQuery].
  - cbn [exQuery partUsed]. intros H. rewrite <- H.
    apply normalizeField_idem_stable, program_tables_stable.
  - pose proof (heuristicParse_eq question) as Heq. cbv zeta in Heq. rewrite Heq.
    destruct (firstOnlyMatch onlyPartsUsedPatterns (toLowerCase question)) as [m1|] eqn:Hm;
      cbn [exQuery partUsed].
    + rewrite (normalizedPart_is_normalizeField m1 (firstOnlyMatch_Some _ _ _ Hm)).
      intros H. rewrite <- H. apply normalizeField_idem_stable, program_tables_stable.
    + destruct (detectLabel (toLowerCase question) ecosystemServiceSynonyms);
        [discriminate|].
      intros H. destruct (detectLabel_in _ _ _ H) as [syns Hin].
      exact (canonicalStable_spec partUsedSynonyms p syns
               (proj2 program_tables_stable) Hin).
Qed.

(** The exclusivity branch compares an entry's sole part with the
    normalised part of the query, letter for letter up to case.  An entry
    whose sole part is spelled as a synonym that is not a canonical label
    (such as "fruits" or "seeds", which [scripts/xlsx-to-json.ts] writes)
    is therefore returned by no exclusivity query that names a part,
    whatever the question and whatever the completion service answers. *)
Theorem exclusivity_misses_synonym_spellings :
  forall question llm (dataWithEmbeddings scored : list ScoredTreeSpecies) item v,
  truthyb (exOnly (extractQuery question llm)) = true ->
  partUsed (exQuery (extractQuery question llm)) <> None ->
  PartsUsed item = [v] ->
  synonymSpelling partUsedSynonyms v ->
  ~ In item (primaryBranch (exQuery (extractQuery question llm))
                           (exOnly (extractQuery question llm))
                           dataWithEmbeddings scored).
Proof.
  intros question llm data scored item v Honly Hpart Hv [[c [syns [Hc Hsyn]]] Hnot] Hin.
  destruct (extractQuery_fields question llm) as [_ Hne].
  pose proof (extractQuery_part_normal question llm) as Hnormal.
  set (x := extractQuery question llm) in *.
  unfold primaryBranch in Hin. rewrite Honly in Hin. apply filter_In in Hin.
  destruct Hin as [_ Hcb].
  destruct (partUsed (exQuery x)) as [p|] eqn:Hp; [|now elim Hpart].
  assert (Hpne : p <> "") by congruence.
  assert (Hsole : soleValueIs (PartsUsed item) p = true).
  { unfold onlyCallback in Hcb. rewrite Hp in Hcb.
    rewrite (proj2 (truthy_Some p) Hpne) in Hcb.
    apply andb_true_iff in Hcb. apply Hcb. }
  apply soleValueIs_iff in Hsole. destruct Hsole as [v' [Hv' Heq]].
  rewrite Hv in Hv'. injection Hv' as <-.
  rewrite (partUsedSynonyms_lower (c, syns) v Hc Hsyn) in Heq.
  specialize (Hnormal p eq_refl). rewrite (normalizeField_nonempty p _ Hpne) in Hnormal.
  rewrite toLowerCase_trim, <- Heq, (partUsedSynonyms_trimmed (c, syns) v Hc Hsyn) in Hnormal.
  destruct (normalizeLoop v partUsedSynonyms) as [c'|] eqn:Hloop.
  - injection Hnormal as ->. destruct (normalizeLoop_Some _ _ _ Hloop) as [syns' [Hin' _]].
    exact (Hnot p syns' Hin' (eq_sym Heq)).
  - pose proof (proj1 (normalizeLoop_None _ _) Hloop (c, syns) Hc) as Hm.
    assert (Htrue : entryMatches v (c, syns) = true).
    { apply entryMatches_iff. right. exists v. split; [exact Hsyn|].
      exact (partUsedSynonyms_lower (c, syns) v Hc Hsyn). }
    congruence.
Qed.

End FurtherProperties.

(** * The properties at work

    The examples are run with the two functions of [Latin1Text], which
    have the three facts of [Builtins]: the built-ins on text whose
    capitals are those of ASCII and of the Latin-1 Supplement. *)

(** ** The built-ins on Latin-1 text *)

Ltac each_byte c := destruct c as [[] [] [] [] [] [] [] []].

Lemma lowerByte_space : forall f c,
  AsciiText.isSpace (Latin1Text.lowerByte f c) = AsciiText.isSpace c.
Proof. intros [|] c; each_byte c; reflexivity. Qed.

Lemma isLead_space : forall c, AsciiText.isSpace c = true -> Latin1Text.isLead c = false.
Proof. intros c; each_byte c; (reflexivity || discriminate). Qed.

(** Lower-casing keeps the white space of two and of three bytes and
    makes none. *)
Lemma lowerByte_space2 : forall f a b,
  Latin1Text.isSpace2 (Latin1Text.lowerByte f a)
                      (Latin1Text.lowerByte (Latin1Text.isLead a) b)
  = Latin1Text.isSpace2 a b.
Proof.
  intros f a b. destruct f; each_byte a; try reflexivity; each_byte b; reflexivity.
Qed.

Lemma isLead_space2 : forall a b, Latin1Text.isSpace2 a b = true -> Latin1Text.isLead b = false.
Proof.
  intros a b. each_byte a; try discriminate; each_byte b; (reflexivity || discriminate).
Qed.

Lemma lowerByte_space3 : forall f a b c,
  Latin1Text.isSpace3 (Latin1Text.lowerByte f a)
                      (Latin1Text.lowerByte (Latin1Text.isLead a) b)
                      (Latin1Text.lowerByte (Latin1Text.isLead b) c)
  = Latin1Text.isSpace3 a b c.
Proof.
  intros f a b c.
  destruct f; each_byte a; try reflexivity; each_byte b; try reflexivity;
    each_byte c; reflexivity.
Qed.

Lemma isLead_space3 : forall a b c,
  Latin1Text.isSpace3 a b c = true -> Latin1Text.isLead c = false.
Proof.
  intros a b c. each_byte a; try discriminate; each_byte b; try discriminate;
    each_byte c; (reflexivity || discriminate).
Qed.

Lemma latin1_lowerFrom_trimStart : forall n s,
  (String.length s <= n)%nat ->
  Latin1Text.lowerFrom false (Latin1Text.trimStart s)
  = Latin1Text.trimStart (Latin1Text.lowerFrom false s).
Proof.
  induction n as [|n IH]; intros s Hlen.
  - destruct s; [reflexivity | simpl in Hlen; lia].
  - destruct s as [|a s1]; [reflexivity|].
    cbn [Latin1Text.trimStart Latin1Text.lowerFrom]. rewrite lowerByte_space.
    destruct (AsciiText.isSpace a) eqn:Ha.
    + rewrite (isLead_space a Ha). apply IH. simpl in Hlen. lia.
    + destruct s1 as [|b s2]; [reflexivity|].
      cbn [Latin1Text.lowerFrom]. rewrite lowerByte_space2.
      destruct (Latin1Text.isSpace2 a b) eqn:Hab.
      * rewrite (isLead_space2 a b Hab). apply IH. simpl in Hlen. lia.
      * destruct s2 as [|c s3]; [reflexivity|].
        cbn [Latin1Text.lowerFrom]. rewrite lowerByte_space3.
        destruct (Latin1Text.isSpace3 a b c) eqn:Habc; [|reflexivity].
        rewrite (isLead_space3 a b c Habc). apply IH. simpl in Hlen. lia.
Qed.

Lemma latin1_lowerFrom_trimEnd : forall s f,
  Latin1Text.lowerFrom f (Latin1Text.trimEnd s)
  = Latin1Text.trimEnd (Latin1Text.lowerFrom f s).
Proof.
  induction s as [|c s IH]; intros f; [reflexivity|].
  cbn [Latin1Text.trimEnd Latin1Text.lowerFrom]. rewrite <- IH.
  destruct (Latin1Text.trimEnd s) as [|d [|e [|g t]]]; cbn [Latin1Text.lowerFrom].
  - rewrite lowerByte_space. destruct (AsciiText.isSpace c); reflexivity.
  - rewrite lowerByte_space2. destruct (Latin1Text.isSpace2 c d); reflexivity.
  - rewrite lowerByte_space3. destruct (Latin1Text.isSpace3 c d e); reflexivity.
  - reflexivity.
Qed.

(** On any string, lower-casing and trimming commute. *)
Lemma latin1_toLowerCase_trim : forall s,
  Latin1Text.toLowerCase (Latin1Text.trim s)
  = Latin1Text.trim (Latin1Text.toLowerCase s).
Proof.
  intros s. unfold Latin1Text.toLowerCase, Latin1Text.trim.
  rewrite latin1_lowerFrom_trimEnd.
  now rewrite (latin1_lowerFrom_trimStart (String.length s) s (le_n _)).
Qed.

Lemma lowerByte_ascii : forall f c,
  (nat_of_ascii c <? 128)%nat = true -> Latin1Text.lowerByte f c = AsciiText.lowerChar c.
Proof. intros [|] c; each_byte c; (reflexivity || discriminate). Qed.

Lemma latin1_lowerFrom_ascii : forall s f,
  AsciiText.isText s = true -> Latin1Text.lowerFrom f s = AsciiText.toLowerCase s.
Proof.
  induction s as [|c s IH]; intros f; [reflexivity|].
  cbn [AsciiText.isText Latin1Text.lowerFrom AsciiText.toLowerCase].
  rewrite andb_true_iff. intros [Hc Hs]. now rewrite (lowerByte_ascii f c Hc), IH.
Qed.

Lemma isSpace2_ascii : forall a b,
  (nat_of_ascii a <? 128)%nat = true -> Latin1Text.isSpace2 a b = false.
Proof. intros a b. each_byte a; (reflexivity || discriminate). Qed.

Lemma isSpace3_ascii : forall a b c,
  (nat_of_ascii a <? 128)%nat = true -> Latin1Text.isSpace3 a b c = false.
Proof. intros a b c. each_byte a; (reflexivity || discriminate). Qed.

Lemma latin1_trimStart_ascii : forall s,
  AsciiText.isText s = true -> Latin1Text.trimStart s = AsciiText.trimStart s.
Proof.
  induction s as [|a s IH]; [reflexivity|].
  cbn [AsciiText.isText Latin1Text.trimStart AsciiText.trimStart].
  rewrite andb_true_iff. intros [Ha Hs]. rewrite (IH Hs).
  destruct (AsciiText.isSpace a); [reflexivity|].
  destruct s as [|b s2]; [reflexivity|]. rewrite (isSpace2_ascii a b Ha).
  destruct s2 as [|c s3]; [reflexivity|]. now rewrite (isSpace3_ascii a b c Ha).
Qed.

Lemma latin1_trimEnd_ascii : forall s,
  AsciiText.isText s = true -> Latin1Text.trimEnd s = AsciiText.trimEnd s.
Proof.
  induction s as [|c s IH]; [reflexivity|].
  cbn [AsciiText.isText Latin1Text.trimEnd AsciiText.trimEnd].
  rewrite andb_true_iff. intros [Hc Hs]. rewrite (IH Hs).
  destruct (AsciiText.trimEnd s) as [|d [|e [|g t]]]; try reflexivity.
  - now rewrite (isSpace2_ascii c d Hc).
  - now rewrite (isSpace3_ascii c d e Hc).
Qed.

Lemma asciiTrimStart_isText : forall s,
  AsciiText.isText s = true -> AsciiText.isText (AsciiText.trimStart s) = true.
Proof.
  induction s as [|a s IH]; [reflexivity|].
  intros Hs. cbn [AsciiText.trimStart]. destruct (AsciiText.isSpace a); [|exact Hs].
  cbn [AsciiText.isText] in Hs. apply andb_true_iff in Hs. now apply IH.
Qed.

Lemma latin1_trim_ascii : forall s,
  AsciiText.isText s = true -> Latin1Text.trim s = AsciiText.trim s.
Proof.
  intros s Hs. unfold Latin1Text.trim, AsciiText.trim.
  rewrite (latin1_trimStart_ascii s Hs).
  apply latin1_trimEnd_ascii. now apply asciiTrimStart_isText.
Qed.

#[global] Instance latin1Builtins : Builtins := {|
  toLowerCase := Latin1Text.toLowerCase;
  trim := Latin1Text.trim;
  toLowerCase_ascii := fun s => latin1_lowerFrom_ascii s false;
  trim_ascii := latin1_trim_ascii;
  toLowerCase_trim := latin1_toLowerCase_trim
|}.

(** The built-ins at work on Portuguese text and on white space of one,
    two and three bytes. *)
Example latin1_text :
  toLowerCase "ÓLEO de Copaíba" = "óleo de copaíba"
  /\ toLowerCase "3×4 ÷ Þ ß ÿ" = "3×4 ÷ þ ß ÿ"
  /\ trim (Examples.byteOrderMark ++ Examples.nbsp ++ " leaf "
           ++ Examples.lineSeparator ++ Examples.nbsp)
     = "leaf".
Proof. repeat split. Qed.

(** ** The normaliser at work *)

(** C8 at work on the part vocabulary: ["Leaf"] between a no-break space
    and a blank resolves to ["leaves"], ["petiole"] passes through, the
    empty string becomes null. *)
Lemma normalizeField_contract_witness :
  normalizeField (Some "") partUsedSynonyms = None
  /\ normalizeField (Some (Examples.nbsp ++ "Leaf ")) partUsedSynonyms = Some "leaves"
  /\ normalizeField (Some "petiole") partUsedSynonyms = Some "petiole".
Proof.
  split; [|split].
  - apply (proj1 (normalizeField_contract (engine := latin1Builtins)
                    (Some "") partUsedSynonyms)).
    reflexivity.
  - refine (proj1 (proj2 (normalizeField_contract (engine := latin1Builtins)
                            (Some (Examples.nbsp ++ "Leaf ")) partUsedSynonyms)
                     (Examples.nbsp ++ "Leaf ") eq_refl _)
              (firstn 4 partUsedSynonyms) "leaves"
              ["leaf"; "leaves"; "edible leaves"] (skipn 5 partUsedSynonyms)
              eq_refl _ _).
    + discriminate.
    + intros e He. simpl in He.
      repeat (destruct He as [<- | He]; [vm_compute; reflexivity|]). destruct He.
    + right. exists "leaf". split; [now left | reflexivity].
  - refine (proj2 (proj2 (normalizeField_contract (engine := latin1Builtins)
                            (Some "petiole") partUsedSynonyms)
                     "petiole" eq_refl _) _).
    + discriminate.
    + intros e He. simpl in He.
      repeat (destruct He as [<- | He]; [vm_compute; reflexivity|]). destruct He.
Defined.

(** C8 as stated fails on the empty string: nothing in the part vocabulary
    matches it, yet the normaliser answers null, not the input. *)
Lemma normalizeField_empty_not_passthrough :
  noEntryMatches "" partUsedSynonyms
  /\ normalizeField (Some "") partUsedSynonyms <> Some "".
Proof.
  split.
  - intros e He. simpl in He.
    repeat (destruct He as [<- | He]; [vm_compute; reflexivity|]). destruct He.
  - vm_compute. discriminate.
Qed.

(** C9 at work on the service vocabulary. *)
Lemma normalizeField_idempotent_witness :
  canonicalStable ecosystemServiceSynonyms = true
  /\ normalizeField (normalizeField (Some "Timber") ecosystemServiceSynonyms)
                    ecosystemServiceSynonyms
     = normalizeField (Some "Timber") ecosystemServiceSynonyms.
Proof.
  split.
  - vm_compute. reflexivity.
  - apply (normalizeField_idempotent (engine := latin1Builtins)
              ecosystemServiceSynonyms (Some "Timber")).
    vm_compute. reflexivity.
Defined.

(** C9 as stated fails for a table in which a label, lower-cased, is a
    synonym of an earlier entry: ["q"] normalises to ["X"], and ["X"] to
    ["Y"]. *)
Lemma normalizeField_not_idempotent :
  normalizeField (Some "q") Examples.crossedTable = Some "X"
  /\ normalizeField (normalizeField (Some "q") Examples.crossedTable)
                    Examples.crossedTable = Some "Y"
  /\ normalizeField (normalizeField (Some "q") Examples.crossedTable)
                    Examples.crossedTable
     <> normalizeField (Some "q") Examples.crossedTable.
Proof. vm_compute. repeat split; discriminate. Qed.

(** Two spellings of "medicine". *)
Lemma normalizeField_ignores_case_and_padding_witness :
  normalizeField (Some "  MEDICINE") ecosystemServiceSynonyms = Some "Medicinal"
  /\ normalizeField (Some "Medicine ") ecosystemServiceSynonyms = Some "Medicinal".
Proof.
  destruct (normalizeField_ignores_case_and_padding (engine := latin1Builtins)
               ecosystemServiceSynonyms
              "  MEDICINE" "Medicine ")
    as [[c [syns [_ [H1 H2]]]] | [H1 _]];
    [discriminate | discriminate | reflexivity | | ].
  - split; [rewrite H1 | rewrite H2]; vm_compute in H1; congruence.
  - vm_compute in H1. discriminate.
Defined.

(** ** The heuristic parser at work *)

(** C6 at work: "medicine" is a service synonym and "bark" a part synonym;
    no exclusivity pattern matches. *)
Lemma heuristic_service_before_part_witness :
  noOnlyPattern (toLowerCase "Which bark is used as medicine?")
  /\ ecosystemService (exQuery (heuristicParse "Which bark is used as medicine?"))
     = Some "Medicinal"
  /\ partUsed (exQuery (heuristicParse "Which bark is used as medicine?")) = None.
Proof.
  assert (Hno : noOnlyPattern (toLowerCase "Which bark is used as medicine?")).
  { refine (proj1 (firstOnlyMatch_None _ onlyPartsUsedPatterns) _).
    vm_compute. reflexivity. }
  split; [exact Hno|]. split; [vm_compute; reflexivity|].
  apply (proj1 (proj2 (proj2 (heuristic_service_before_part (engine := latin1Builtins)
                                "Which bark is used as medicine?")) Hno) "Medicinal").
  vm_compute. reflexivity.
Defined.

(** C6 as stated fails when an exclusivity pattern matches: the question
    below contains the service synonym "food" and the part synonym
    "leaves", and the parser sets both fields. *)
Lemma heuristic_sets_service_and_part :
  occursIn "food" (toLowerCase "Only the leaves are used as food")
  /\ occursIn "leaves" (toLowerCase "Only the leaves are used as food")
  /\ ecosystemService (exQuery (heuristicParse "Only the leaves are used as food"))
     = Some "Food"
  /\ partUsed (exQuery (heuristicParse "Only the leaves are used as food"))
     = Some "leaves"
  /\ partUsed (exQuery (heuristicParse "Only the leaves are used as food")) <> None.
Proof.
  split; [apply includes_iff; vm_compute; reflexivity|].
  split; [apply includes_iff; vm_compute; reflexivity|].
  vm_compute. repeat split; discriminate.
Qed.

(** C7 at work on the example question of the front page. *)
Lemma heuristic_exclusivity_first_match_witness :
  exOnly (heuristicParse "Show me trees that only the leaves are used.") = Some true
  /\ partUsed (exQuery (heuristicParse "Show me trees that only the leaves are used."))
     = Some "leaves".
Proof.
  destruct (heuristic_exclusivity_first_match (engine := latin1Builtins)
              "Show me trees that only the leaves are used."
              [] (mkPattern "only the " " are used")
              (tl onlyPartsUsedPatterns) "leaves" eq_refl
              (fun p' w' (H : In p' []) => match H with end) eq_refl)
    as [Honly [Hpart _]].
  split; [exact Honly | exact Hpart].
Defined.

(** The service found by the fallback is a label of the service table. *)
Lemma heuristic_parser_invariants_witness :
  exists synonyms, In ("Medicinal", synonyms) ecosystemServiceSynonyms.
Proof.
  exact (proj1 (proj2 (proj2 (proj2 (proj2
           (heuristic_parser_invariants (engine := latin1Builtins)
               "Which bark is used as medicine?")))))
           "Medicinal" eq_refl).
Defined.

(** A question about latex gets a service. *)
Lemma shadowed_part_synonyms_witness :
  exists label,
    ecosystemService (exQuery (heuristicParse "Which trees give latex?")) = Some label.
Proof.
  apply (proj1 (shadowed_part_synonyms (engine := latin1Builtins)
                   "Which trees give latex?") "latex").
  - right; right; now left.
  - apply includes_iff. vm_compute. reflexivity.
Defined.

(** ** The filter combinator at work *)

(** C3 at work.  The fallback parser turns the question into
    [{partUsed: "leaves"}] with [only]; of the catalog below the entries
    whose parts are exactly ["leaves"] and exactly ["LEAVES"] are kept, in
    catalog order, the second one because the comparison ignores case.
    For the answer [{partUsed: "óleo", only: true}] of the completion
    service, the entry whose sole part is spelled "ÓLEO" is kept. *)
Lemma only_branch_filters_catalog_witness :
  primaryBranch
    (exQuery (extractQuery "Show me trees that only the leaves are used." None))
    (exOnly (extractQuery "Show me trees that only the leaves are used." None))
    Examples.capitalsCatalog (rankCatalog [1%float; 1%float] Examples.capitalsCatalog)
  = [Examples.carapa; Examples.hymenaea]
  /\ onlySpec (exQuery (extractQuery "Show me trees that only the leaves are used." None))
              Examples.hymenaea
  /\ primaryBranch
       (exQuery (extractQuery "oil only"
                   (Some (mkLlmQuery None None (Some "óleo") (Some true) None))))
       (exOnly (extractQuery "oil only"
                  (Some (mkLlmQuery None None (Some "óleo") (Some true) None))))
       Examples.capitalsCatalog (rankCatalog [1%float; 1%float] Examples.capitalsCatalog)
     = [Examples.copaifera].
Proof.
  destruct (only_branch_filters_catalog (engine := latin1Builtins)
              "Show me trees that only the leaves are used." None
              Examples.capitalsCatalog
              (rankCatalog [1%float; 1%float] Examples.capitalsCatalog)
              eq_refl) as [Hprim [Hiff _]].
  destruct (only_branch_filters_catalog (engine := latin1Builtins)
              "oil only" (Some (mkLlmQuery None None (Some "óleo") (Some true) None))
              Examples.capitalsCatalog
              (rankCatalog [1%float; 1%float] Examples.capitalsCatalog)
              eq_refl) as [Hoil _].
  split; [|split].
  - rewrite Hprim. vm_compute. reflexivity.
  - apply (proj1 (Hiff Examples.hymenaea)). vm_compute. reflexivity.
  - rewrite Hoil. vm_compute. reflexivity.
Defined.

(** C4 at work: the completion service answers [{species: "COPAIFERA",
    ecosystemService: "medicine", partUsed: "Óleo"}]; the service is
    normalised to "Medicinal", the part is passed through, and the entry
    "Copaifera multijuga", whose service is written "MEDICINAL" and whose
    part is written "ÓLEO", is the one returned: the three comparisons
    ignore case. *)
Lemma default_branch_filters_ranked_witness :
  map Species
    (primaryBranch
       (exQuery (extractQuery "remedies?"
                   (Some (mkLlmQuery (Some "COPAIFERA") (Some "medicine") (Some "Óleo")
                                     None None))))
       (exOnly (extractQuery "remedies?"
                  (Some (mkLlmQuery (Some "COPAIFERA") (Some "medicine") (Some "Óleo")
                                    None None))))
       Examples.capitalsCatalog
       (rankCatalog [1%float; 1%float] Examples.capitalsCatalog))
  = ["Copaifera multijuga"]
  /\ defaultSpec
       (exQuery (extractQuery "remedies?"
                   (Some (mkLlmQuery (Some "COPAIFERA") (Some "medicine") (Some "Óleo")
                                     None None))))
       (score [1%float; 1%float] Examples.copaifera).
Proof.
  destruct (default_branch_filters_ranked (engine := latin1Builtins)
              "remedies?"
              (Some (mkLlmQuery (Some "COPAIFERA") (Some "medicine") (Some "Óleo")
                                None None))
              [1%float; 1%float] Examples.capitalsCatalog eq_refl)
    as [Hprim [Hiff _]].
  cbv zeta in Hprim, Hiff. split.
  - rewrite Hprim. vm_compute. reflexivity.
  - apply (proj1 (Hiff (score [1%float; 1%float] Examples.copaifera))).
    vm_compute. reflexivity.
Defined.

(** C5 at work, on the spec's example with another part:
    [{ecosystemService: "Medicinal"}] with [and = {partUsed: "óleo"}]
    keeps the entry that is both, whatever the case of its spelling, and
    the entry is in the result because it is in the primary set and meets
    the 'and' predicate. *)
Lemma and_filters_intersect_witness :
  map Species
    (filterCatalog
       (mkExtracted (mkQuery None (Some "Medicinal") None) None
                    (Some (mkAnd None (Some "óleo"))) true)
       Examples.capitalsCatalog (rankCatalog [1%float; 1%float] Examples.capitalsCatalog))
  = ["Copaifera multijuga"]
  /\ In (score [1%float; 1%float] Examples.copaifera)
        (filterCatalog
           (mkExtracted (mkQuery None (Some "Medicinal") None) None
                        (Some (mkAnd None (Some "óleo"))) true)
           Examples.capitalsCatalog
           (rankCatalog [1%float; 1%float] Examples.capitalsCatalog)).
Proof.
  split; [vm_compute; reflexivity|].
  apply (proj1 (and_filters_intersect (engine := latin1Builtins)
                  (mkExtracted (mkQuery None (Some "Medicinal") None) None
                               (Some (mkAnd None (Some "óleo"))) true)
                  Examples.capitalsCatalog
                  (rankCatalog [1%float; 1%float] Examples.capitalsCatalog))
               (score [1%float; 1%float] Examples.copaifera)).
  split.
  - vm_compute. repeat ((left; reflexivity) || right).
  - intros clause Hc. injection Hc as <-. split; intros q Hq Hne.
    + discriminate Hq.
    + injection Hq as <-. exists "ÓLEO". split; [now left|].
      apply includes_iff. reflexivity.
Defined.

(** The entry kept by the exclusivity query for "leaves" is kept by the
    default query for "leaves". *)
Lemma only_results_within_default_results_witness :
  In (score [1%float; 1%float] Examples.carapa)
     (primaryBranch (mkQuery None None (Some "leaves")) None Examples.catalog
                    (rankCatalog [1%float; 1%float] Examples.catalog)).
Proof.
  apply (only_results_within_default_results (engine := latin1Builtins)
            (mkQuery None None (Some "leaves"))
           [1%float; 1%float] Examples.catalog Examples.carapa eq_refl).
  vm_compute. now left.
Defined.

(** [only] with the part "leaves" and an 'and' part "ÓLEO". *)
Lemma only_and_conflict_is_empty_witness :
  filterCatalog
    (mkExtracted (mkQuery None None (Some "leaves")) (Some true)
                 (Some (mkAnd None (Some "ÓLEO"))) true)
    Examples.capitalsCatalog (rankCatalog [1%float; 1%float] Examples.capitalsCatalog)
  = [].
Proof.
  apply (only_and_conflict_is_empty (engine := latin1Builtins)
           (mkExtracted (mkQuery None None (Some "leaves")) (Some true)
                        (Some (mkAnd None (Some "ÓLEO"))) true)
           Examples.capitalsCatalog
           (rankCatalog [1%float; 1%float] Examples.capitalsCatalog)
           (mkAnd None (Some "ÓLEO")) eq_refl eq_refl).
  left. exists "leaves", "ÓLEO".
  split; [reflexivity|]. split; [discriminate|]. split; [reflexivity|].
  split; [discriminate|]. apply not_occursIn. reflexivity.
Defined.

(** An entry whose sole part is spelled "fruits" is not returned for the
    question about fruits. *)
Lemma exclusivity_misses_synonym_spellings_witness :
  PartsUsed Examples.inga = ["fruits"]
  /\ ~ In Examples.inga
       (primaryBranch
          (exQuery (extractQuery "Show me trees that only the fruits are used." None))
          (exOnly (extractQuery "Show me trees that only the fruits are used." None))
          Examples.catalogWithZero
          (rankCatalog [1%float; 1%float] Examples.catalogWithZero)).
Proof.
  split; [reflexivity|].
  apply (exclusivity_misses_synonym_spellings (engine := latin1Builtins)
           "Show me trees that only the fruits are used." None
           Examples.catalogWithZero
           (rankCatalog [1%float; 1%float] Examples.catalogWithZero)
           Examples.inga "fruits" eq_refl).
  - discriminate.
  - reflexivity.
  - split.
    + exists "fruit", ["fruit"; "fruits"; "edible fruit"]. split; [now left | right; now left].
    + intros canonical synonyms Hin. simpl in Hin.
      repeat (destruct Hin as [Heq | Hin]; [injection Heq as <- _; discriminate|]).
      destruct Hin.
Defined.

(** ** The handler at work *)

(** C1 at work: one entry of the example catalog provides food; the answer
    is [{count: 1}]. *)
Lemma count_query_answer_witness :
  fst (POST Examples.offlineWorld (Some "How many species provide food?"))
  = JsonCount 1.
Proof.
  destruct (count_query_answer (engine := latin1Builtins)
               Examples.offlineWorld "How many species provide food?"
              [1%float; 1%float] Examples.catalog eq_refl eq_refl eq_refl)
    as [Hresp _].
  rewrite Hresp. vm_compute. reflexivity.
Defined.

(** C1 as stated fails: on the spec's own count question the image lookup
    is called for the entry that is counted. *)
Lemma count_query_invokes_image_lookup :
  isCountQuery "How many species provide food?" = true
  /\ POST Examples.offlineWorld (Some "How many species provide food?")
     = (JsonCount 1,
        [CompletionCall "How many species provide food?";
         EmbeddingCall "How many species provide food?";
         CatalogFetch "data_with_embeddings.json";
         ImageLookup "Bertholletia excelsa"])
  /\ existsb isImageLookup
       (snd (POST Examples.offlineWorld (Some "How many species provide food?")))
     = true.
Proof. vm_compute. repeat split. Qed.

(** C2 at work on the default branch: the first result for "medicine"
    carries the similarity computed for this request. *)
Lemma results_similarity_by_branch_witness :
  exists entry,
    In entry Examples.catalog
    /\ resultItem (mkResult (score [1%float; 1%float] Examples.protium)
                            ["Protium hebetatum.jpg"])
       = score [1%float; 1%float] entry
    /\ similarity (resultItem (mkResult (score [1%float; 1%float] Examples.protium)
                                        ["Protium hebetatum.jpg"]))
       = Some (cosineSimilarity [1%float; 1%float] (embedding entry)).
Proof.
  refine (proj1 (proj2 (results_similarity_by_branch (engine := latin1Builtins)
                           Examples.offlineWorld "medicine"
                          [1%float; 1%float] Examples.catalog
                          [mkResult (score [1%float; 1%float] Examples.protium)
                                    ["Protium hebetatum.jpg"];
                           mkResult (score [1%float; 1%float] Examples.carapa)
                                    ["Carapa guianensis.jpg"]]
                          eq_refl eq_refl _))
            eq_refl _ (or_introl eq_refl)).
  vm_compute. reflexivity.
Defined.

(** C2 as stated fails on the exclusivity branch: the entry returned for
    the front page's example question has no similarity at all, while the
    similarity of its embedding to the question's is a number. *)
Lemma only_branch_result_not_scored :
  fst (POST Examples.offlineWorld (Some "Show me trees that only the leaves are used."))
  = JsonResults [mkResult Examples.carapa ["Carapa guianensis.jpg"]]
  /\ similarity Examples.carapa = None
  /\ similarity Examples.carapa
     <> Some (cosineSimilarity [1%float; 1%float] (embedding Examples.carapa)).
Proof.
  split; [vm_compute; reflexivity|]. split; [reflexivity | discriminate].
Qed.

(** The embedding service is down. *)
Lemma embedding_failure_is_fatal_witness :
  POST (mkWorld (fun _ => None) (fun _ => None)
                (fun _ => inr Examples.catalog) (fun _ => []))
       (Some "Which species provide food?")
  = (JsonError 500 "Failed to generate embedding for question.",
     [CompletionCall "Which species provide food?";
      EmbeddingCall "Which species provide food?"]).
Proof.
  apply (embedding_failure_is_fatal (engine := latin1Builtins)
           (mkWorld (fun _ => None) (fun _ => None)
                    (fun _ => inr Examples.catalog) (fun _ => []))
           "Which species provide food?").
  - discriminate.
  - reflexivity.
Defined.

(** The catalog is answered with an error status. *)
Lemma catalog_failure_is_fatal_witness :
  POST (deployedWorld (Http.mkEnv None None) (fun _ => None)
          (fun _ => Some [1%float; 1%float])
          (fun _ => Http.Responded false (inr Examples.catalog))
          (fun _ => Http.Rejected "offline"))
       (Some "Which species provide food?")
  = (JsonError 500 "Failed to fetch data_with_embeddings.json",
     [CompletionCall "Which species provide food?";
      EmbeddingCall "Which species provide food?";
      CatalogFetch "data_with_embeddings.json"]).
Proof.
  refine (proj1 (catalog_failure_is_fatal (engine := latin1Builtins)
                    (Http.mkEnv None None) (fun _ => None)
                   (fun _ => Some [1%float; 1%float])
                   (fun _ => Http.Responded false (inr Examples.catalog))
                   (fun _ => Http.Rejected "offline")
                   "Which species provide food?" [1%float; 1%float] _ eq_refl)
            (inr Examples.catalog) eq_refl).
  discriminate.
Defined.

(** The completion service is down, the question is a service question:
    the fallback's query is answered. *)
Lemma completion_failure_is_not_fatal_witness :
  isErrorResponse (fst (POST Examples.offlineWorld (Some "Which species provide food?")))
  = false.
Proof.
  destruct (completion_failure_is_not_fatal (engine := latin1Builtins) Examples.offlineWorld
              "Which species provide food?") as [_ [_ Hanswer]];
    [discriminate | reflexivity |].
  rewrite (Hanswer [1%float; 1%float] Examples.catalog eq_refl eq_refl).
  reflexivity.
Defined.

(** The count of the spec's example question, against the catalog of
    four entries. *)
Lemma response_size_bounded_witness :
  fst (POST Examples.offlineWorld (Some "How many species provide food?")) = JsonCount 1
  /\ (1 <= List.length Examples.catalog)%nat.
Proof.
  assert (Hcount : fst (POST Examples.offlineWorld
                          (Some "How many species provide food?")) = JsonCount 1).
  { vm_compute. reflexivity. }
  split; [exact Hcount|].
  exact (proj1 (response_size_bounded (engine := latin1Builtins) Examples.offlineWorld
                  "How many species provide food?"
                  [1%float; 1%float] Examples.catalog eq_refl eq_refl) 1%nat Hcount).
Defined.

(** A deployment whose image lookups are rejected. *)
Lemma results_carry_at_most_five_images_witness :
  (List.length (images (mkResult (score [1%float; 1%float] Examples.protium) [])) <= 5)%nat
  /\ ((forall data,
         (fun _ : string => Http.Rejected (A := Http.GbifData) "offline")
           (Http.gbifApiUrl
              (Species (resultItem (mkResult (score [1%float; 1%float] Examples.protium) []))))
         <> Http.Responded true (inr data)) ->
      images (mkResult (score [1%float; 1%float] Examples.protium) []) = []).
Proof.
  refine (results_carry_at_most_five_images (engine := latin1Builtins)
             (Http.mkEnv None None) (fun _ => None)
            (fun _ => Some [1%float; 1%float])
            (fun _ => Http.Responded true (inr Examples.catalog))
            (fun _ => Http.Rejected "offline")
            "medicine"
            [mkResult (score [1%float; 1%float] Examples.protium) [];
             mkResult (score [1%float; 1%float] Examples.carapa) []]
            _ _ (or_introl eq_refl)).
  vm_compute. reflexivity.
Defined.

(** A service question answered without the completion service. *)
Lemma offline_service_question_answer_witness :
  fst (POST Examples.offlineWorld (Some "Which trees are used for medicine?"))
  = JsonResults
      [mkResult (score [1%float; 1%float] Examples.protium) ["Protium hebetatum.jpg"];
       mkResult (score [1%float; 1%float] Examples.carapa) ["Carapa guianensis.jpg"]].
Proof.
  assert (Hlabel : firstLabelWith (toLowerCase "Which trees are used for medicine?")
                     ecosystemServiceSynonyms "Medicinal").
  { apply detectLabel_iff. vm_compute. reflexivity. }
  assert (Hno : noOnlyPattern (toLowerCase "Which trees are used for medicine?")).
  { refine (proj1 (firstOnlyMatch_None _ onlyPartsUsedPatterns) _). vm_compute. reflexivity. }
  rewrite (proj1 (offline_service_question_answer (engine := latin1Builtins)
                     Examples.offlineWorld
                    "Which trees are used for medicine?" "Medicinal"
                    [1%float; 1%float] Examples.catalog eq_refl Hlabel Hno eq_refl eq_refl)).
  vm_compute. reflexivity.
Defined.

(** ** The page at work *)

(** The spec's count question, asked from the page. *)
Lemma count_answer_is_not_shown_witness :
  fst (POST Examples.offlineWorld (Some "How many species provide food?")) = JsonCount 1
  /\ Page.results
       (Page.submitTo Examples.offlineWorld
          (Page.setQuestion "How many species provide food?" Page.initialState))
     = None.
Proof.
  destruct (count_answer_is_not_shown (engine := latin1Builtins) Examples.offlineWorld
              (Page.setQuestion "How many species provide food?" Page.initialState)
              [1%float; 1%float] Examples.catalog eq_refl eq_refl eq_refl)
    as [_ [Hres _]].
  split; [vm_compute; reflexivity | exact Hres].
Defined.

(** The embedding service is down: the page shows the handler's message. *)
Lemma handler_errors_are_shown_witness :
  Page.shownError
    (Page.submitTo (mkWorld (fun _ => None) (fun _ => None)
                            (fun _ => inr Examples.catalog) (fun _ => []))
                   (Page.setQuestion "medicine" Page.initialState))
  = Some "Failed to generate embedding for question.".
Proof.
  exact (proj1 (proj2 (handler_errors_are_shown (engine := latin1Builtins)
                         (mkWorld (fun _ => None) (fun _ => None)
                                  (fun _ => inr Examples.catalog) (fun _ => []))
                         (Page.setQuestion "medicine" Page.initialState)
                         500 "Failed to generate embedding for question." eq_refl))).
Defined.
